(** * Replicated log store and revision-tree accessor: a shallow embedding

    The development follows the C++ sources of the repository:
    - [tests/Replication2/MockLog.cpp]: the in-memory [PersistedLog] of the
      replicated-log tests ([MockLog], [ContainerIterator]) and the two
      stream operators defined beside it;
    - [arangod/RestHandler/RestLogHandler.cpp]: [FakeLogFollower], the
      network-backed [AbstractFollower] a leader replicates through, and
      the REST handler [RestLogHandler] that creates it;
    - the header of [RocksDBMetaCollection] with its nested
      [RevisionTreeAccessor], whose revision tree is included from
      [Containers/MerkleTree.h] and modelled from the specification.

    Unsigned 64-bit quantities ([LogIndex::value], [LogTerm::value], node
    counts and digests) are carried by [N]; where arithmetic is done on them
    the wrap-around modulo 2^64 is written out. *)

From Stdlib Require Import ZArith NArith List Bool Lia String Ascii Sorted.
From stdpp Require Import base list gmap strings numbers pretty.

Local Open Scope N_scope.

(** ** Value types ([Replication2/ReplicatedLog/Common.h], as used in [src]) *)

(** [struct LogIndex { std::uint64_t value; }], [struct LogTerm { std::uint64_t value; }] *)
Abbreviation LogIndex := N (only parsing).
Abbreviation LogTerm := N (only parsing).

(** [struct LogPayload { std::string dummy; }] *)
Record LogPayload := mkLogPayload { dummy : string }.

(** [class LogEntry] with its accessors [logTerm()], [logIndex()], [logPayload()] *)
Record LogEntry := mkLogEntry {
  logTerm : LogTerm;
  logIndex : LogIndex;
  logPayload : LogPayload
}.

(** [arangodb::Result]: an error number (0 is [TRI_ERROR_NO_ERROR]) and a message.
  A default-constructed [Result] ([return {};], [Result()]) is the success value. *)
Record Result := mkResult { errorNumber : Z; errorMessage : string }.

Definition Result_default : Result := {| errorNumber := 0%Z; errorMessage := EmptyString |}.

Definition ok (r : Result) : bool := (errorNumber r =? 0)%Z.
Definition fail (r : Result) : bool := negb (ok r).

(** ** [std::map<LogIndex, V>]

  The map is its node sequence in ascending key order; an iterator is a
  position in that sequence ([begin()] is [0], [end()] is the length). *)
Module StdMap.
Abbreviation t V := (list (N * V)) (only parsing).

Section Ops.
Context {V : Type}.
Implicit Types m : t V.

Definition begin (m : t V) : nat := 0%nat.
Definition end_ (m : t V) : nat := length m.

(** first position whose key is not less than [k] *)
Fixpoint lower_bound (k : N) (m : t V) : nat :=
  match m with
  | [] => 0%nat
  | (k', _) :: m' => if k' <? k then S (lower_bound k m') else 0%nat
  end.

(** [erase(first, last)]: drops the positions in [[first, last)] *)
Definition erase (first last : nat) (m : t V) : t V := take first m ++ drop last m.

(** [try_emplace(k, v)] / [emplace(k, v)]: inserts unless the key is present;
    the boolean is the [second] of the returned pair *)
Fixpoint try_emplace (k : N) (v : V) (m : t V) : t V * bool :=
  match m with
  | [] => ([(k, v)], true)
  | (k', v') :: m' =>
      if k <? k' then ((k, v) :: m, true)
      else if k =? k' then (m, false)
      else let r := try_emplace k v m' in ((k', v') :: fst r, snd r)
  end.

Definition clear (m : t V) : t V := [].

(** the class invariant of [std::map]: keys strictly ascending *)
Definition sorted (m : t V) : Prop := StronglySorted (fun a b => fst a < fst b) m.

Fixpoint sortedb (m : t V) : bool :=
  match m with
  | [] => true
  | (k, _) :: m' => forallb (fun b => k <? fst b) m' && sortedb m'
  end.
End Ops.
End StdMap.

(** ** [MockLog] ([tests/Replication2/MockLog.cpp]) *)
Module MockLog.

(** [MockLog::storeType], [std::map<LogIndex, LogEntry>] *)
Abbreviation storeType := (StdMap.t LogEntry).

Record MockLog := mkMockLog { _storage : storeType }.

(** [ContainerIterator<I>]: owns [_store], a copy of the map it was built
    from (the constructor takes the map by value and moves it into the
    member); [_current] and [_end] point into that copy. *)
Record ContainerIterator := mkContainerIterator {
  _store : storeType;
  _current : nat;
  _end : nat
}.

Definition ContainerIterator_new (store : storeType) (start : LogIndex) : ContainerIterator :=
  {| _store := store;
     _current := StdMap.lower_bound start store;
     _end := StdMap.end_ store |}.

(** [ContainerIterator::next]. Dereferencing a position outside [_store]
    does not arise for iterators made by [ContainerIterator_new]; the
    model yields nothing there. *)
Definition next (it : ContainerIterator) : option LogEntry * ContainerIterator :=
  if (_current it =? _end it)%nat then (None, it)
  else match _store it !! _current it with
       | Some kv => (Some (snd kv),
                     {| _store := _store it; _current := S (_current it); _end := _end it |})
       | None => (None, it)
       end.

(** [MockLog::read] *)
Definition read (start : LogIndex) (log : MockLog) : ContainerIterator :=
  ContainerIterator_new (_storage log) start.

(** [MockLog::removeFront] *)
Definition removeFront (stop : LogIndex) (log : MockLog) : Result * MockLog :=
  let s := _storage log in
  (Result_default,
   {| _storage := StdMap.erase (StdMap.begin s) (StdMap.lower_bound stop s) s |}).

(** [MockLog::removeBack] *)
Definition removeBack (start : LogIndex) (log : MockLog) : Result * MockLog :=
  let s := _storage log in
  (Result_default,
   {| _storage := StdMap.erase (StdMap.lower_bound start s) (StdMap.end_ s) s |}).

(** [MockLog::drop] *)
Definition drop (log : MockLog) : Result * MockLog :=
  (Result_default, {| _storage := StdMap.clear (_storage log) |}).

(** [MockLog::setEntry(LogEntry)] *)
Definition setEntry (entry : LogEntry) (log : MockLog) : MockLog :=
  {| _storage := fst (StdMap.try_emplace (logIndex entry) entry (_storage log)) |}.

(** [MockLog::setEntry(LogIndex, LogTerm, LogPayload)] *)
Definition setEntry_at (idx : LogIndex) (term : LogTerm) (payload : LogPayload)
    (log : MockLog) : MockLog :=
  {| _storage := fst (StdMap.try_emplace idx (mkLogEntry term idx payload) (_storage log)) |}.

(** The loop body of [MockLog::insert]: [try_emplace], then the three
    [TRI_ASSERT]s. The boolean records whether all assertions held. *)
Definition insert_step (entry : LogEntry) (st : storeType * LogIndex * LogTerm * bool)
  : storeType * LogIndex * LogTerm * bool :=
  let '(s, lastIndex, lastTerm, asserts) := st in
  let res := StdMap.try_emplace (logIndex entry) entry s in
  (fst res, logIndex entry, logTerm entry,
   asserts && snd res && (lastTerm <=? logTerm entry) && (lastIndex <? logIndex entry)).

(** [MockLog::insert]: drains the iterator; [fuel] bounds the number of
    [next()] calls. Returns the result, the log, the drained iterator and
    whether every assertion held. *)
Fixpoint insert_loop (fuel : nat) (iter : ContainerIterator)
    (st : storeType * LogIndex * LogTerm * bool)
  : ContainerIterator * (storeType * LogIndex * LogTerm * bool) :=
  match fuel with
  | O => (iter, st)
  | S fuel' =>
      match next iter with
      | (Some entry, iter') => insert_loop fuel' iter' (insert_step entry st)
      | (None, iter') => (iter', st)
      end
  end.

Definition insert (iter : ContainerIterator) (log : MockLog)
  : Result * MockLog * ContainerIterator * bool :=
  let '(iter', (s, _, _, asserts)) :=
    insert_loop (S (_end iter - _current iter)) iter (_storage log, 0, 0, true) in
  (Result_default, {| _storage := s |}, iter', asserts).

(** The entries an iterator yields until it is exhausted. *)
Fixpoint drain_fuel (fuel : nat) (it : ContainerIterator) : list LogEntry :=
  match fuel with
  | O => []
  | S fuel' =>
      match next it with
      | (Some entry, it') => entry :: drain_fuel fuel' it'
      | (None, _) => []
      end
  end.

Definition drain (it : ContainerIterator) : list LogEntry :=
  drain_fuel (S (_end it - _current it)) it.

(** An iterator whose positions lie inside the map it owns, as every
    iterator made by [read] and advanced by [next] is. *)
Definition it_wf (it : ContainerIterator) : Prop :=
  _end it = length (_store it) /\ (_current it <= _end it)%nat.

(** A [MockLog] object together with the iterators it has handed out
    ([std::unique_ptr<LogIterator>] values owned by callers). *)
Record Store := mkStore { theLog : MockLog; handedOut : list ContainerIterator }.

Definition st_read (start : LogIndex) (st : Store) : nat * Store :=
  (length (handedOut st),
   {| theLog := theLog st; handedOut := handedOut st ++ [read start (theLog st)] |}).

Definition st_removeFront (stop : LogIndex) (st : Store) : Result * Store :=
  let r := removeFront stop (theLog st) in
  (fst r, {| theLog := snd r; handedOut := handedOut st |}).

Definition st_removeBack (start : LogIndex) (st : Store) : Result * Store :=
  let r := removeBack start (theLog st) in
  (fst r, {| theLog := snd r; handedOut := handedOut st |}).

(** a caller advances the iterator it holds under handle [h] *)
Definition st_next (h : nat) (st : Store) : option LogEntry * Store :=
  match handedOut st !! h with
  | Some it =>
      let r := next it in
      (fst r, {| theLog := theLog st; handedOut := <[h := snd r]> (handedOut st) |})
  | None => (None, st)
  end.

(** what the iterator with handle [h] yields from now on *)
Definition st_yields (h : nat) (st : Store) : option (list LogEntry) :=
  drain <$> handedOut st !! h.

(** [drop], [setEntry] and [insert] on a log whose iterators are held by
    callers; [insert] is given the iterator held under handle [h]. *)
Definition st_drop (st : Store) : Result * Store :=
  let r := drop (theLog st) in
  (fst r, {| theLog := snd r; handedOut := handedOut st |}).

Definition st_setEntry (entry : LogEntry) (st : Store) : Store :=
  {| theLog := setEntry entry (theLog st); handedOut := handedOut st |}.

Definition st_insert (h : nat) (st : Store) : option (Result * bool) * Store :=
  match handedOut st !! h with
  | Some it =>
      let r := insert it (theLog st) in
      (Some (fst (fst (fst r)), snd r),
       {| theLog := snd (fst (fst r)); handedOut := <[h := snd (fst r)]> (handedOut st) |})
  | None => (None, st)
  end.

(** Every node is filed under the index of the entry it holds, as
    [setEntry] and [insert] file entries (the constructor taking a
    [storeType] accepts any map). *)
Definition keyed (s : storeType) : Prop :=
  Forall (fun kv => logIndex (snd kv) = fst kv) s.

(** no entry is stored under index [k] *)
Definition vacant (k : LogIndex) (s : storeType) : Prop := forall e, (k, e) ∉ s.

(** an iterator that has run to its end *)
Definition at_end (it : ContainerIterator) : ContainerIterator :=
  {| _store := _store it; _current := _end it; _end := _end it |}.

(** [insert] as its caller sees it. Where [TRI_ASSERT] is compiled in
    (maintainer mode) a failed assertion ends the process inside the loop
    and the call does not return ([None]); elsewhere the assertions expand
    to nothing. *)
Definition insert_call (maintainerMode : bool) (iter : ContainerIterator) (log : MockLog)
  : option (Result * MockLog * ContainerIterator) :=
  let '(res, log', iter', asserts) := insert iter log in
  if maintainerMode && negb asserts then None else Some (res, log', iter').

(** the storage after the [try_emplace] calls of [insert] for [es] in turn *)
Definition emplace_all (es : list LogEntry) (s : storeType) : storeType :=
  fold_left (fun s e => fst (StdMap.try_emplace (logIndex e) e s)) es s.

End MockLog.

(** ** The stream operators of [tests/Replication2/MockLog.cpp]

    A [std::ostream] is the text written to it so far; an unsigned integer
    is written in decimal, as a stream in its default state does. *)
Module Printing.
Local Open Scope string_scope.

(** [operator<<(std::ostream&, LogIndex)] *)
Definition print_LogIndex (ostream : string) (logIndex : LogIndex) : string :=
  let s1 := ostream ++ "LogIndex{" in
  let s2 := s1 ++ pretty logIndex in
  s2 ++ "}".

(** [operator<<(std::ostream&, LogEntry const&)] *)
Definition print_LogEntry (ostream : string) (logEntry : LogEntry) : string :=
  let s1 := ostream ++ "LogEntry{" in
  let s2 := s1 ++ pretty (logTerm logEntry) in
  let s3 := s2 ++ ", " in
  let s4 := print_LogIndex s3 (logIndex logEntry) in
  let s5 := s4 ++ ", " in
  let s6 := s5 ++ dummy (logPayload logEntry) in
  s6 ++ "}".

(** the decimal digits *)
Definition is_digit (c : ascii) : bool :=
  ((48 <=? N_of_ascii c) && (N_of_ascii c <=? 57))%N.

Fixpoint all_digits (s : string) : bool :=
  match s with
  | EmptyString => true
  | String c rest => is_digit c && all_digits rest
  end.

End Printing.

(** ** Sample data used by the worked examples *)
Module Samples.

Definition entry (term index : N) : LogEntry :=
  {| logTerm := term; logIndex := index; logPayload := {| dummy := "{}" |} |}.

(** a log holding the entries 1, 2, 3 and 5 *)
Definition log1235 : MockLog.MockLog :=
  MockLog.setEntry (entry 1 2)
    (MockLog.setEntry (entry 2 5)
      (MockLog.setEntry (entry 1 3)
        (MockLog.setEntry (entry 1 1) (MockLog.mkMockLog [])))).

End Samples.

(** ** Futures ([Futures/Future.h]) as the sources use them

    Running a C++ callable either returns, throws, or trips a [TRI_ASSERT]
    (which ends the process in maintainer builds). A future is pending
    until it is completed with a value or with an exception; a future whose
    continuation ended the process stays pending. *)
Module Futures.

Inductive Outcome (T : Type) : Type :=
| Returns (v : T)
| Throws (what : string)
| Aborts.
Arguments Returns {T} v.
Arguments Throws {T} what.
Arguments Aborts {T}.

Inductive Future (T : Type) : Type :=
| HasValue (v : T)
| HasException (what : string)
| Pending.
Arguments HasValue {T} v.
Arguments HasException {T} what.
Arguments Pending {T}.

(** [std::move(f).thenValue(fn)]: [fn] runs on the value; what it throws is
    captured in the resulting future; an exception already held is passed on. *)
Definition thenValue {A B : Type} (f : Future A) (fn : A -> Outcome B) : Future B :=
  match f with
  | HasValue v =>
      match fn v with
      | Returns b => HasValue b
      | Throws what => HasException what
      | Aborts => Pending
      end
  | HasException what => HasException what
  | Pending => Pending
  end.

(** one callable after another: the second runs on what the first
    returned; an exception or the end of the process skips it *)
Definition andThen {A B : Type} (o : Outcome A) (fn : A -> Outcome B) : Outcome B :=
  match o with
  | Returns a => fn a
  | Throws what => Throws what
  | Aborts => Aborts
  end.

Definition hasValue {T : Type} (f : Future T) : bool :=
  match f with HasValue _ => true | _ => false end.

Definition hasException {T : Type} (f : Future T) : bool :=
  match f with HasException _ => true | _ => false end.

End Futures.

(** ** [FakeLogFollower] ([arangod/RestHandler/RestLogHandler.cpp]) *)

(** [AppendEntriesResult]: the sources build it from a boolean and a term,
    [AppendEntriesResult{false, LogTerm(0)}]; the wire message names the two
    fields [success] and [term]. *)
Module AppendEntriesResult.
Record t := mk { success : bool; logTerm : LogTerm }.
End AppendEntriesResult.

(** [network::RequestOptions], of which [database] is set *)
Module RequestOptions.
Record t := mk { database : string }.
End RequestOptions.

Module FakeLogFollower.
Import Futures.

(** [fuerte::RestVerb] *)
Inductive RestVerb := Get | Post | Delete.

Record FakeLogFollower := mkFakeLogFollower {
  pool : N;               (* [network::ConnectionPool*] *)
  id : string;            (* [ParticipantId] *)
  database : string;
  logId : N               (* [LogId], read through [logId.id()] *)
}.

Definition getParticipantId (this : FakeLogFollower) : string := id this.

Section AppendEntries.
(** The request type, VelocyPack and the network layer are declared outside
    the sources: their types and operations are parameters. *)
Variables AppendEntriesRequest VPackBuffer VPackSlice Response : Type.
(** [request.toVelocyPack(builder)] into a fresh buffer *)
Variable toVelocyPack : AppendEntriesRequest -> VPackBuffer.
(** [network::Response]: [fail()] and [slice()] *)
Variable Response_fail : Response -> bool.
Variable Response_slice : Response -> VPackSlice.
(** [slice.get(key)], which throws on a slice that is no object, and
    [slice.isFalse()] *)
Variable Slice_get : VPackSlice -> string -> Outcome VPackSlice.
Variable Slice_isFalse : VPackSlice -> bool.
(** [slice.toJson()], which throws on a slice that cannot be dumped *)
Variable Slice_toJson : VPackSlice -> Outcome string.
(** [AppendEntriesResult::fromVelocyPack], which may throw on a malformed slice *)
Variable fromVelocyPack : VPackSlice -> Outcome AppendEntriesResult.t.
(** [network::sendRequest(pool, destination, verb, path, payload, options)] *)
Variable sendRequest :
  N -> string -> RestVerb -> string -> VPackBuffer -> RequestOptions.t -> Future Response.
(** whether [TRI_ASSERT] is compiled in (maintainer mode) or expands to nothing *)
Variable maintainerMode : bool.

(** the continuation passed to [thenValue]: after the check of [fail()]
    it dumps the reply for the [LOG_DEVEL] line, asserts on the [error]
    attribute (read only where [TRI_ASSERT] is compiled in) and decodes the
    [result] attribute *)
Definition appendEntries_continuation (this : FakeLogFollower) (result : Response)
  : Outcome AppendEntriesResult.t :=
  if Response_fail result then
    Returns {| AppendEntriesResult.success := false; AppendEntriesResult.logTerm := 0 |}
  else
    andThen (Slice_toJson (Response_slice result)) (fun _ =>
    andThen (if maintainerMode then
               andThen (Slice_get (Response_slice result) "error") (fun error =>
                 (* [TRI_ASSERT(result.slice().get("error").isFalse())] *)
                 if Slice_isFalse error then Returns tt else Aborts)
             else Returns tt) (fun _ =>
    andThen (Slice_get (Response_slice result) "result") fromVelocyPack)).

(** the future [f] that [network::sendRequest] hands to [appendEntries] *)
Definition appendEntries_sent (this : FakeLogFollower) (request : AppendEntriesRequest)
  : Future Response :=
  let buffer := toVelocyPack request in
  let path := ("_api/log/" ++ pretty (logId this) ++ "/appendEntries")%string in
  let opts := {| RequestOptions.database := database this |} in
  sendRequest (pool this) ("server:" ++ id this)%string Post path buffer opts.

(** [FakeLogFollower::appendEntries] *)
Definition appendEntries (this : FakeLogFollower) (request : AppendEntriesRequest)
  : Future AppendEntriesResult.t :=
  let f := appendEntries_sent this request in
  thenValue f (appendEntries_continuation this).

End AppendEntries.
End FakeLogFollower.

(** ** [containers::RevisionTree] ([Containers/MerkleTree.h]) *)
Module RevisionTree.

(** 2^64: counts and hashes are [std::uint64_t] *)
Definition W : N := 2 ^ 64.

(** Modelled from the spec: one node of the hash/count array of the tree,
    which the sources only include from [Containers/MerkleTree.h]. *)
Record Node := mkNode { nodeCount : N; nodeHash : N }.

(** Modelled from the spec: the commutative, invertible operation by which
    digests are aggregated. The specification names no particular
    operation; any one with these laws will do. *)
Class Aggregation := mkAggregation {
  neutral : N;
  combine : N -> N -> N;
  inverse : N -> N;
  combine_assoc : forall x y z, combine x (combine y z) = combine (combine x y) z;
  combine_comm : forall x y, combine x y = combine y x;
  combine_neutral : forall x, combine x neutral = x;
  combine_inverse : forall x, combine x (inverse x) = neutral
}.

(** Modelled from the spec: what the description of the accumulator leaves
    open, the number of children per node, the leaf bucket a revision id
    hashes into and the 64-bit digest of a revision id. *)
Class Hashing := mkHashing {
  fanout : N;
  leafOf : N -> N;
  hashOf : N -> N
}.

(** Modelled from the spec: the [RevisionTree] class itself, which the
    sources only include; a fixed-depth hash/count accumulator whose node
    array is indexed by (depth, position), the root being (0, 0); absent
    entries of the array are empty nodes. *)
Record RevisionTree := mkRevisionTree {
  maxDepth : nat;
  nodes : gmap (nat * N) Node
}.

Section WithHashing.
Context `{Aggregation} `{Hashing}.

(** Modelled from the spec: the node nothing has been aggregated into. *)
Definition emptyNode : Node := {| nodeCount := 0; nodeHash := neutral |}.

(** Modelled from the spec: the aggregation of one revision id into a node;
    the count moves up by one modulo 2^64 and the digest is combined in. *)
Definition Node_insert (value : N) (n : Node) : Node :=
  {| nodeCount := (nodeCount n + 1) mod W; nodeHash := combine (nodeHash n) value |}.

(** Modelled from the spec: the inverse aggregation, taking one revision
    id out of a node; the count moves down by one modulo 2^64 and the
    inverse of the digest is combined in. *)
Definition Node_remove (value : N) (n : Node) : Node :=
  {| nodeCount := (nodeCount n + (W - 1)) mod W;
     nodeHash := combine (nodeHash n) (inverse value) |}.

(** the node at depth [d] and position [p] of the array *)
Definition nodeAt (t : RevisionTree) (d : nat) (p : N) : Node :=
  default emptyNode (nodes t !! (d, p)).

(** Modelled from the spec: the empty tree of a given depth. *)
Definition empty (depth : nat) : RevisionTree :=
  {| maxDepth := depth; nodes := ∅ |}.

(** Modelled from the spec: the leaf bucket a revision id hashes into, one
    of the [fanout ^ maxDepth] leaves. *)
Definition bucket (t : RevisionTree) (key : N) : N :=
  leafOf key mod fanout ^ N.of_nat (maxDepth t).

(** Modelled from the spec: the position of the node above that bucket at
    depth [d]; at depth 0 it is the root. *)
Definition position (t : RevisionTree) (key : N) (d : nat) : N :=
  bucket t key / fanout ^ N.of_nat (maxDepth t - d).

(** Modelled from the spec: one revision id is aggregated into the node on
    its path at every depth, from the root to its leaf bucket. *)
Definition modifyAt (f : Node -> Node) (t : RevisionTree) (key : N)
    (ns : gmap (nat * N) Node) (d : nat) : gmap (nat * N) Node :=
  let p := position t key d in
  <[(d, p) := f (default emptyNode (ns !! (d, p)))]> ns.

(** Modelled from the spec: the walk over all depths for one revision id. *)
Definition modify (f : Node -> Node) (key : N) (t : RevisionTree) : RevisionTree :=
  {| maxDepth := maxDepth t;
     nodes := foldl (modifyAt f t key) (nodes t) (seq 0 (S (maxDepth t))) |}.

(** Modelled from the spec: insertion and removal of one revision id. *)
Definition insert_one (key : N) (t : RevisionTree) : RevisionTree :=
  modify (Node_insert (hashOf key)) key t.

(** Modelled from the spec: see [insert_one]. *)
Definition remove_one (key : N) (t : RevisionTree) : RevisionTree :=
  modify (Node_remove (hashOf key)) key t.

(** Modelled from the spec: [insert(ids)] of the tree, one id after the other. *)
Definition insert (keys : list N) (t : RevisionTree) : RevisionTree :=
  foldl (fun t k => insert_one k t) t keys.

(** Modelled from the spec: [remove(ids)] of the tree. *)
Definition remove (keys : list N) (t : RevisionTree) : RevisionTree :=
  foldl (fun t k => remove_one k t) t keys.

(** Modelled from the spec: [clear()] empties the array and keeps the depth. *)
Definition clear (t : RevisionTree) : RevisionTree :=
  {| maxDepth := maxDepth t; nodes := ∅ |}.

(** Modelled from the spec: [count()], the count aggregated at the root. *)
Definition count (t : RevisionTree) : N := nodeCount (nodeAt t 0 0).

(** Modelled from the spec: [rootValue()], the digest aggregated at the root. *)
Definition rootValue (t : RevisionTree) : N := nodeHash (nodeAt t 0 0).

(** Modelled from the spec: [clone()], a deep copy. *)
Definition clone (t : RevisionTree) : RevisionTree := t.

(** every count in the array is a [std::uint64_t] *)
Definition wf (t : RevisionTree) : Prop :=
  forall d p, nodeCount (nodeAt t d p) < W.

End WithHashing.

End RevisionTree.

(** ** [RocksDBMetaCollection::RevisionTreeAccessor]

    The class is declared in the header of [RocksDBMetaCollection]: its
    members and the signatures of its operations are the sources'; the
    bodies are not in the sources. *)
Module RevisionTreeAccessor.

(** [static constexpr std::size_t revisionTreeDepth = 6] of the enclosing class *)
Definition revisionTreeDepth : nat := 6.

(** Modelled from the spec: the compressed representation is an opaque
    string ([_compressed]); only its decompression matters to the operations
    below. *)
Class Codec := mkCodec { decompress : string -> RevisionTree.RevisionTree }.

Record RevisionTreeAccessor := mkAccessor {
  _compressed : string;
  _tree : option RevisionTree.RevisionTree;
  _maxDepth : nat;
  _hibernationRequests : N;
  _compressible : bool
}.

Section WithParameters.
Context `{RevisionTree.Aggregation} `{RevisionTree.Hashing} `{Codec}.

(** [explicit RevisionTreeAccessor(std::unique_ptr<containers::RevisionTree> tree, ...)]:
    the accessor starts with the live tree it is given; [_maxDepth] is
    "supposed to never change". *)
Definition new (tree : RevisionTree.RevisionTree) (compressible : bool) : RevisionTreeAccessor :=
  {| _compressed := EmptyString;
     _tree := Some tree;
     _maxDepth := RevisionTree.maxDepth tree;
     _hibernationRequests := 0;
     _compressible := compressible |}.

(** Modelled from the spec: [ensureTree()], which makes sure [_tree] holds
    a value, decompressing [_compressed] when it does not. *)
Definition ensureTree (a : RevisionTreeAccessor) : RevisionTreeAccessor * RevisionTree.RevisionTree :=
  match _tree a with
  | Some t => (a, t)
  | None =>
      let t := decompress (_compressed a) in
      ({| _compressed := EmptyString;
          _tree := Some t;
          _maxDepth := _maxDepth a;
          _hibernationRequests := _hibernationRequests a;
          _compressible := _compressible a |}, t)
  end.

(** Modelled from the spec: an operation that needs the tree calls
    [ensureTree()] and then works on [_tree]. *)
Definition withTree (f : RevisionTree.RevisionTree -> RevisionTree.RevisionTree) (a : RevisionTreeAccessor)
  : RevisionTreeAccessor :=
  let '(a', t) := ensureTree a in
  {| _compressed := _compressed a';
     _tree := Some (f t);
     _maxDepth := _maxDepth a';
     _hibernationRequests := _hibernationRequests a';
     _compressible := _compressible a' |}.

(** Modelled from the spec: [insert(keys)] forwards to the tree. *)
Definition insert (keys : list N) (a : RevisionTreeAccessor) : RevisionTreeAccessor :=
  withTree (RevisionTree.insert keys) a.

(** Modelled from the spec: [remove(keys)] forwards to the tree. *)
Definition remove (keys : list N) (a : RevisionTreeAccessor) : RevisionTreeAccessor :=
  withTree (RevisionTree.remove keys) a.

(** Modelled from the spec: [clear()] forwards to the tree. *)
Definition clear (a : RevisionTreeAccessor) : RevisionTreeAccessor :=
  withTree RevisionTree.clear a.

(** Modelled from the spec: [count()] forwards to the tree. *)
Definition count (a : RevisionTreeAccessor) : N := RevisionTree.count (snd (ensureTree a)).

(** Modelled from the spec: [rootValue()] forwards to the tree. *)
Definition rootValue (a : RevisionTreeAccessor) : N := RevisionTree.rootValue (snd (ensureTree a)).

(** [maxDepth()] reads the member. *)
Definition maxDepth (a : RevisionTreeAccessor) : nat := _maxDepth a.

End WithParameters.
End RevisionTreeAccessor.

(** ** Batches of revision ids and their net effect on a node *)
Module TreeBatches.
Import RevisionTree.

(** a buffered batch, as [bufferUpdates] records it *)
Inductive Batch :=
| InsertBatch (keys : list N)
| RemoveBatch (keys : list N).

(** one revision id of a batch *)
Inductive KeyOp :=
| KInsert (key : N)
| KRemove (key : N).

Definition keysOf (b : Batch) : list KeyOp :=
  match b with
  | InsertBatch keys => map KInsert keys
  | RemoveBatch keys => map KRemove keys
  end.

Definition opKey (op : KeyOp) : N :=
  match op with KInsert k | KRemove k => k end.

(** a change of count (modulo 2^64) and of digest (by [combine]) *)
Definition Delta : Type := N * N.

Section WithHashing.
Context `{Aggregation} `{Hashing}.

Definition act (dl : Delta) (n : Node) : Node :=
  {| nodeCount := (nodeCount n + fst dl) mod W; nodeHash := combine (nodeHash n) (snd dl) |}.

Definition addDelta (a b : Delta) : Delta :=
  ((fst a + fst b) mod W, combine (snd a) (snd b)).

Definition noDelta : Delta := (0, neutral).

Definition applyBatch (b : Batch) (t : RevisionTree) : RevisionTree :=
  match b with
  | InsertBatch keys => insert keys t
  | RemoveBatch keys => remove keys t
  end.

Definition applyBatches (bs : list Batch) (t : RevisionTree) : RevisionTree :=
  foldl (fun t b => applyBatch b t) t bs.

Definition applyKeyOp (op : KeyOp) (t : RevisionTree) : RevisionTree :=
  match op with
  | KInsert k => insert_one k t
  | KRemove k => remove_one k t
  end.

Definition applyKeyOps (ops : list KeyOp) (t : RevisionTree) : RevisionTree :=
  foldl (fun t op => applyKeyOp op t) t ops.

Definition keyDelta (op : KeyOp) : Delta :=
  match op with
  | KInsert k => (1, hashOf k)
  | KRemove k => (W - 1, inverse (hashOf k))
  end.

(** does the path of [key] pass through node [(d, p)]? *)
Definition hitb (t : RevisionTree) (key : N) (d : nat) (p : N) : bool :=
  (d <=? maxDepth t)%nat && (p =? position t key d).

(** the net change a sequence of ids makes to node [(d, p)] *)
Definition deltaAt (t : RevisionTree) (ops : list KeyOp) (d : nat) (p : N) : Delta :=
  foldr (fun op acc => if hitb t (opKey op) d p then addDelta (keyDelta op) acc else acc)
        noDelta ops.

End WithHashing.
End TreeBatches.

(** ** Batches applied through the accessor *)
Module AccessorBatches.
Import TreeBatches.

Section WithParameters.
Context `{RevisionTree.Aggregation} `{RevisionTree.Hashing} `{RevisionTreeAccessor.Codec}.

Definition applyBatch (b : Batch) (a : RevisionTreeAccessor.RevisionTreeAccessor)
  : RevisionTreeAccessor.RevisionTreeAccessor :=
  match b with
  | InsertBatch keys => RevisionTreeAccessor.insert keys a
  | RemoveBatch keys => RevisionTreeAccessor.remove keys a
  end.

Definition applyBatches (bs : list Batch) (a : RevisionTreeAccessor.RevisionTreeAccessor)
  : RevisionTreeAccessor.RevisionTreeAccessor :=
  foldl (fun a b => applyBatch b a) a bs.

End WithParameters.
End AccessorBatches.

(** ** A concrete instantiation of the accumulator for the worked examples *)
Module TreeSamples.

(** digests aggregated by exclusive or, which is its own inverse *)
Definition aggregation : RevisionTree.Aggregation :=
  {| RevisionTree.neutral := 0;
     RevisionTree.combine := N.lxor;
     RevisionTree.inverse := fun x => x;
     RevisionTree.combine_assoc := fun x y z => eq_sym (N.lxor_assoc x y z);
     RevisionTree.combine_comm := N.lxor_comm;
     RevisionTree.combine_neutral := N.lxor_0_r;
     RevisionTree.combine_inverse := N.lxor_nilpotent |}.

(** eight children per node, revision ids bucketed and digested by identity *)
Definition hashing : RevisionTree.Hashing :=
  {| RevisionTree.fanout := 8;
     RevisionTree.leafOf := fun key => key;
     RevisionTree.hashOf := fun key => key |}.

Definition codec : RevisionTreeAccessor.Codec :=
  {| RevisionTreeAccessor.decompress :=
       fun _ => RevisionTree.empty RevisionTreeAccessor.revisionTreeDepth |}.

(** the accessor over the empty tree of depth [revisionTreeDepth = 6] *)
Definition emptyAccessor : RevisionTreeAccessor.RevisionTreeAccessor :=
  RevisionTreeAccessor.new (RevisionTree.empty RevisionTreeAccessor.revisionTreeDepth) true.

End TreeSamples.

(** ** [RestLogHandler] ([arangod/RestHandler/RestLogHandler.cpp])

    The handler is control flow over calls into the database, the
    replicated log, VelocyPack and the response generator, none of which is
    part of the sources. A handler function is embedded as the tree of the
    calls it makes: at each call the tree branches on the value the call
    returns, and every call may instead throw, which leaves the handler (it
    has no [try] block). *)
Module RestLogHandler.
Import Futures FakeLogFollower.

(** [rest::RequestType]: the three types [execute] serves, and any other *)
Inductive RequestType := GET | POST | DELETE_REQ | OtherRequestType (tag : N).

(** [rest::ResponseCode], as far as the handler answers with it *)
Inductive ResponseCode :=
| OK | ACCEPTED | BAD | NOT_FOUND | METHOD_NOT_ALLOWED | NOT_IMPLEMENTED.

(** the error numbers of [Basics/voc-errors.h] the handler names *)
Inductive ErrorCode :=
| TRI_ERROR_HTTP_METHOD_NOT_ALLOWED
| TRI_ERROR_HTTP_BAD_PARAMETER
| TRI_ERROR_HTTP_NOT_FOUND
| TRI_ERROR_NOT_IMPLEMENTED.

(** [RestStatus]: the handler returns [DONE] itself, or what
    [waitForFuture] returns *)
Inductive RestStatus := DONE | OtherStatus (tag : N).

(** [QuorumData], of which the handler reads [index], [term] and [quorum] *)
Record QuorumData := mkQuorumData {
  quorum_index : LogIndex;
  quorum_term : LogTerm;
  quorum : list string
}.

(** The types and functions the handler takes from outside the sources.
    A function that can throw returns an [Outcome]. *)
Class External := {
  (** [arangodb::velocypack::Slice] *)
  Slice : Type;
  (** [AppendEntriesRequest] *)
  AppendEntriesRequest : Type;
  (** [ReplicatedLog&], [std::shared_ptr<LogLeader>], [std::shared_ptr<LogFollower>] *)
  LogRef : Type;
  LeaderRef : Type;
  FollowerRef : Type;
  (** [futures::Future<T>] *)
  FutureOf : Type -> Type;
  (** [slice.get(key)], [slice.getNumericValue<T>()], [slice.copyString()],
      [slice.isArray()], [slice.toJson()] *)
  Slice_get : Slice -> string -> Outcome Slice;
  Slice_getNumericValue : Slice -> Outcome N;
  Slice_copyString : Slice -> Outcome string;
  Slice_isArray : Slice -> bool;
  Slice_toJson : Slice -> Outcome string;
  (** [VPackArrayIterator(slice)]: the members, in their order *)
  ArrayIterator : Slice -> Outcome (list Slice);
  (** [VPackParser::parse(json)], then [steal()->slice()] *)
  Parser_parse : string -> Outcome Slice;
  (** [basics::StringUtils::uint64] *)
  uint64 : string -> N;
  (** [AppendEntriesRequest::fromVelocyPack], [AppendEntriesResult::toVelocyPack] *)
  AppendEntriesRequest_fromVelocyPack : Slice -> Outcome AppendEntriesRequest;
  AppendEntriesResult_toVelocyPack : AppendEntriesResult.t -> Slice
}.

Section Handler.
Context `{External}.

(** what the handler writes into a [VPackBuilder] *)
#[warnings="-register-all"]
Inductive VPackValue :=
| VUInt (n : N)
| VString (s : string)
| VArray (members : list VPackValue)
| VObject (members : list (string * VPackValue))
| VSlice (s : Slice).

(** [VPackSlice::emptyObjectSlice()] *)
Definition emptyObjectSlice : VPackValue := VObject [].

(** the two lambdas passed to [thenValue], by what they capture *)
Inductive Continuation : Type -> Type :=
| quorum_reply (idx : LogIndex) : Continuation QuorumData
| appendEntries_reply : Continuation AppendEntriesResult.t.

(** the calls a handler function makes, indexed by what they return *)
Inductive Call : Type -> Type :=
| parseVPackBody : Call (bool * Slice)
| createReplicatedLog (id : N) : Call Result
| dropReplicatedLog (id : N) : Call Result
| getReplicatedLogById (id : N) : Call LogRef
| getReplicatedLogLeaderById (id : N) : Call LeaderRef
| getReplicatedLogFollowerById (id : N) : Call FollowerRef
| LogLeader_insert (log : LeaderRef) (payload : LogPayload) : Call LogIndex
| LogLeader_waitFor (log : LeaderRef) (idx : LogIndex) : Call (FutureOf QuorumData)
| LogLeader_runAsyncStep (log : LeaderRef) : Call unit
| LogLeader_readReplicatedEntryByIndex (log : LeaderRef) (idx : LogIndex)
    : Call (option LogEntry)
| ReplicatedLog_getStatus (log : LogRef) : Call Slice
| ReplicatedLog_becomeLeader (log : LogRef) (id : string) (term : LogTerm)
    (follower : list FakeLogFollower) (writeConcern : N) : Call unit
| ReplicatedLog_becomeFollower (log : LogRef) (id : string) (term : LogTerm)
    (leaderId : string) : Call unit
| LogFollower_appendEntries (log : FollowerRef) (request : AppendEntriesRequest)
    : Call (FutureOf AppendEntriesResult.t)
| Future_thenValue {A : Type} (f : FutureOf A) (fn : Continuation A) : Call (FutureOf unit)
| waitForFuture (f : FutureOf unit) : Call RestStatus
| generateError (code : ResponseCode) (errorNumber : ErrorCode) : Call unit
| generateError_message (code : ResponseCode) (errorNumber : ErrorCode) (message : string)
    : Call unit
| generateError_result (result : Result) : Call unit
| generateOk (code : ResponseCode) (payload : VPackValue) : Call unit.

(** A handler function: it returns, throws, ends the process, subscripts a
    vector past its end, or makes a call and goes on with what the call
    returned. *)
Inductive Prog (R : Type) : Type :=
| Ret (r : R)
| Throw (what : string)
| Abort
| Undefined
| Vis {X : Type} (c : Call X) (k : X -> Prog R).
Arguments Ret {R} r.
Arguments Throw {R} what.
Arguments Abort {R}.
Arguments Undefined {R}.
Arguments Vis {R X} c k.

Fixpoint bind {A B : Type} (p : Prog A) (f : A -> Prog B) : Prog B :=
  match p with
  | Ret a => f a
  | Throw what => Throw what
  | Abort => Abort
  | Undefined => Undefined
  | Vis c k => Vis c (fun x => bind (k x) f)
  end.

Definition call {X : Type} (c : Call X) : Prog X := Vis c Ret.

(** the result of a library function that can throw *)
Definition lift {X : Type} (o : Outcome X) : Prog X :=
  match o with
  | Returns v => Ret v
  | Throws what => Throw what
  | Aborts => Abort
  end.

(** [v[i]] on a [std::vector]: undefined past the end *)
Definition subscript {X : Type} (v : list X) (i : nat) : Prog X :=
  match v !! i with
  | Some x => Ret x
  | None => Undefined
  end.

End Handler.

Arguments Ret {H R} r.
Arguments Throw {H R} what.
Arguments Abort {H R}.
Arguments Undefined {H R}.
Arguments Vis {H R X} c k.

Declare Scope prog_scope.
Delimit Scope prog_scope with prog.
Notation "x <- p ;; q" := (bind p (fun x => q))
  (at level 100, p at next level, q at level 200, right associativity) : prog_scope.
Notation "p ;; q" := (bind p (fun _ => q))
  (at level 100, q at level 200, right associativity) : prog_scope.

(** What a handler object holds or reads through getters:
    [_request->requestType()], [_request->decodedSuffixes()],
    [_vocbase.name()], [server().getFeature<NetworkFeature>().pool()] and
    [ServerState::instance()->getId()]. *)
Record Handler := mkHandler {
  requestType : RequestType;
  decodedSuffixes : list string;
  vocbase_name : string;
  networkPool : N;
  serverStateId : string
}.

Section Functions.
Context `{External}.
Local Open Scope string_scope.
Local Open Scope prog_scope.

(** the body of the lambda given to [thenValue] after [waitFor] *)
Definition quorum_reply_body (idx : LogIndex) (quorum : QuorumData) : Prog unit :=
  call (generateOk ACCEPTED
          (VObject [("index", VUInt (quorum_index quorum));
                    ("term", VUInt (quorum_term quorum));
                    ("quorum", VArray (map VString (RestLogHandler.quorum quorum)))])).

(** the body of the lambda given to [thenValue] after [appendEntries] *)
Definition appendEntries_reply_body (res : AppendEntriesResult.t) : Prog unit :=
  call (generateOk ACCEPTED (VSlice (AppendEntriesResult_toVelocyPack res))).

Definition continuation_body {A : Type} (fn : Continuation A) : A -> Prog unit :=
  match fn with
  | quorum_reply idx => quorum_reply_body idx
  | appendEntries_reply => appendEntries_reply_body
  end.

(** [RestLogHandler::handleDeleteRequest] *)
Definition handleDeleteRequest (this : Handler) : Prog RestStatus :=
  let suffixes := decodedSuffixes this in
  if negb (length suffixes =? 1)%nat then
    call (generateError_message BAD TRI_ERROR_HTTP_BAD_PARAMETER
            "expect DELETE /_api/log/<log-id>") ;;
    Ret DONE
  else
    s0 <- subscript suffixes 0 ;;
    let logId := uint64 s0 in
    result <- call (dropReplicatedLog logId) ;;
    (if negb (ok result) then call (generateError_result result)
     else call (generateOk ACCEPTED emptyObjectSlice)) ;;
    Ret DONE.

(** [RestLogHandler::handleGetRequest] *)
Definition handleGetRequest (this : Handler) : Prog RestStatus :=
  let suffixes := decodedSuffixes this in
  if (length suffixes =? 0)%nat then
    call (generateError NOT_IMPLEMENTED TRI_ERROR_NOT_IMPLEMENTED) ;;
    Ret DONE
  else
    s0 <- subscript suffixes 0 ;;
    let logId := uint64 s0 in
    if (length suffixes =? 1)%nat then
      log <- call (getReplicatedLogById logId) ;;
      status <- call (ReplicatedLog_getStatus log) ;;
      call (generateOk OK (VSlice status)) ;;
      Ret DONE
    else
      verb <- subscript suffixes 1 ;;
      if (verb =? "dump")%string then
        if negb (length suffixes =? 2)%nat then
          call (generateError_message BAD TRI_ERROR_HTTP_BAD_PARAMETER
                  "expect GET /_api/log/<log-id>/dump") ;;
          Ret DONE
        else
          call (generateOk OK (VObject [("logId", VUInt logId)])) ;;
          Ret DONE
      else if (verb =? "readEntry")%string then
        log <- call (getReplicatedLogLeaderById logId) ;;
        if negb (length suffixes =? 3)%nat then
          call (generateError_message BAD TRI_ERROR_HTTP_BAD_PARAMETER
                  "expect GET /_api/log/<log-id>/readEntry/<id>") ;;
          Ret DONE
        else
          s2 <- subscript suffixes 2 ;;
          let logIdx := uint64 s2 in
          entry <- call (LogLeader_readReplicatedEntryByIndex log logIdx) ;;
          match entry with
          | Some e =>
              payload <- lift (Parser_parse (dummy (logPayload e))) ;;
              call (generateOk OK
                      (VObject [("index", VUInt (logIndex e));
                                ("term", VUInt (logTerm e));
                                ("payload", VSlice payload)])) ;;
              Ret DONE
          | None =>
              call (generateError_message NOT_FOUND TRI_ERROR_HTTP_NOT_FOUND
                      "log index not found") ;;
              Ret DONE
          end
      else
        call (generateError_message NOT_FOUND TRI_ERROR_HTTP_NOT_FOUND
                "expecting one of the resources 'dump', 'readEntry'") ;;
        Ret DONE.

(** the loop of the verb [insertBabies] over the members of the body *)
Fixpoint insertBabies_loop (log : LeaderRef) (entries : list Slice) (lastIndex : LogIndex)
  : Prog LogIndex :=
  match entries with
  | [] => Ret lastIndex
  | entry :: rest =>
      json <- lift (Slice_toJson entry) ;;
      idx <- call (LogLeader_insert log {| dummy := json |}) ;;
      insertBabies_loop log rest idx
  end.

(** the loop of the verb [becomeLeader] over the members of [follower] *)
Fixpoint becomeLeader_loop (this : Handler) (logId : N) (parts : list Slice)
    (follower : list FakeLogFollower) : Prog (list FakeLogFollower) :=
  match parts with
  | [] => Ret follower
  | part :: rest =>
      partId <- lift (Slice_copyString part) ;;
      becomeLeader_loop this logId rest
        (follower ++ [mkFakeLogFollower (networkPool this) partId (vocbase_name this) logId])%list
  end.

(** [RestLogHandler::handlePostRequest] *)
Definition handlePostRequest (this : Handler) : Prog RestStatus :=
  let suffixes := decodedSuffixes this in
  parsed <- call parseVPackBody ;;
  let parseSuccess := fst parsed in
  let body := snd parsed in
  if negb parseSuccess then Ret DONE
  else if (length suffixes =? 0)%nat then
    idSlice <- lift (Slice_get body "id") ;;
    id <- lift (Slice_getNumericValue idSlice) ;;
    result <- call (createReplicatedLog id) ;;
    (if ok result then call (generateOk OK emptyObjectSlice)
     else call (generateError_result result)) ;;
    Ret DONE
  else if negb (length suffixes =? 2)%nat then
    call (generateError_message BAD TRI_ERROR_HTTP_BAD_PARAMETER
            "expect GET /_api/log/<log-id>") ;;
    Ret DONE
  else
    s0 <- subscript suffixes 0 ;;
    let logId := uint64 s0 in
    verb <- subscript suffixes 1 ;;
    if (verb =? "insert")%string then
      log <- call (getReplicatedLogLeaderById logId) ;;
      json <- lift (Slice_toJson body) ;;
      idx <- call (LogLeader_insert log {| dummy := json |}) ;;
      waiting <- call (LogLeader_waitFor log idx) ;;
      f <- call (Future_thenValue waiting (quorum_reply idx)) ;;
      call (LogLeader_runAsyncStep log) ;;
      call (waitForFuture f)
    else if (verb =? "insertBabies")%string then
      log <- call (getReplicatedLogLeaderById logId) ;;
      if negb (Slice_isArray body) then
        call (generateError_message NOT_FOUND TRI_ERROR_HTTP_NOT_FOUND "expected array") ;;
        Ret DONE
      else
        entries <- lift (ArrayIterator body) ;;
        lastIndex <- insertBabies_loop log entries 0%N ;;
        waiting <- call (LogLeader_waitFor log lastIndex) ;;
        f <- call (Future_thenValue waiting (quorum_reply lastIndex)) ;;
        call (LogLeader_runAsyncStep log) ;;
        call (waitForFuture f)
    else if (verb =? "becomeLeader")%string then
      log <- call (getReplicatedLogById logId) ;;
      termSlice <- lift (Slice_get body "term") ;;
      term <- lift (Slice_getNumericValue termSlice) ;;
      writeConcernSlice <- lift (Slice_get body "writeConcern") ;;
      writeConcern <- lift (Slice_getNumericValue writeConcernSlice) ;;
      followerSlice <- lift (Slice_get body "follower") ;;
      parts <- lift (ArrayIterator followerSlice) ;;
      follower <- becomeLeader_loop this logId parts [] ;;
      call (ReplicatedLog_becomeLeader log (serverStateId this) term follower writeConcern) ;;
      call (generateOk ACCEPTED emptyObjectSlice) ;;
      Ret DONE
    else if (verb =? "becomeFollower")%string then
      log <- call (getReplicatedLogById logId) ;;
      termSlice <- lift (Slice_get body "term") ;;
      term <- lift (Slice_getNumericValue termSlice) ;;
      leaderSlice <- lift (Slice_get body "leader") ;;
      leaderId <- lift (Slice_copyString leaderSlice) ;;
      call (ReplicatedLog_becomeFollower log (serverStateId this) term leaderId) ;;
      call (generateOk ACCEPTED emptyObjectSlice) ;;
      Ret DONE
    else if (verb =? "appendEntries")%string then
      log <- call (getReplicatedLogFollowerById logId) ;;
      request <- lift (AppendEntriesRequest_fromVelocyPack body) ;;
      appended <- call (LogFollower_appendEntries log request) ;;
      f <- call (Future_thenValue appended appendEntries_reply) ;;
      call (waitForFuture f)
    else
      call (generateError_message NOT_FOUND TRI_ERROR_HTTP_NOT_FOUND
              "expecting one of the resources 'insert', ") ;;
      Ret DONE.

(** [RestLogHandler::execute] *)
Definition execute (this : Handler) : Prog RestStatus :=
  match requestType this with
  | GET => handleGetRequest this
  | POST => handlePostRequest this
  | DELETE_REQ => handleDeleteRequest this
  | OtherRequestType _ =>
      call (generateError METHOD_NOT_ALLOWED TRI_ERROR_HTTP_METHOD_NOT_ALLOWED) ;;
      Ret DONE
  end.

End Functions.
End RestLogHandler.

(** ** Runs of a handler function

    A run is one path through the tree of calls: the calls made, each with
    the value it returned or the exception it threw, and how the function
    ended. *)
Module HandlerRuns.
Import Futures FakeLogFollower RestLogHandler.

Section Runs.
Context `{External}.

Inductive Event :=
| Returned {X : Type} (c : Call X) (x : X)
| Threw {X : Type} (c : Call X) (what : string).

Inductive Ending (R : Type) :=
| Finished (r : R)        (* the function returned [r] *)
| Raised (what : string)  (* an exception left the function *)
| ProcessEnded            (* an assertion ended the process *)
| OutOfBounds.            (* a vector was subscripted past its end *)
Arguments Finished {R} r.
Arguments Raised {R} what.
Arguments ProcessEnded {R}.
Arguments OutOfBounds {R}.

Inductive run {R : Type} : Prog R -> list Event -> Ending R -> Prop :=
| run_Ret r : run (Ret r) [] (Finished r)
| run_Throw what : run (Throw what) [] (Raised what)
| run_Abort : run Abort [] ProcessEnded
| run_Undefined : run Undefined [] OutOfBounds
| run_Vis {X} (c : Call X) k x t e :
    run (k x) t e -> run (Vis c k) (Returned c x :: t) e
| run_Vis_throw {X} (c : Call X) k what :
    run (Vis c k) [Threw c what] (Raised what).

(** what holds of every run of [p]: of the end of a leaf, and at a call of
    every value the call can return and every exception it can throw *)
Fixpoint every_run {R : Type} (p : Prog R) (Q : list Event -> Ending R -> Prop) : Prop :=
  match p with
  | Ret r => Q [] (Finished r)
  | Throw what => Q [] (Raised what)
  | Abort => Q [] ProcessEnded
  | Undefined => Q [] OutOfBounds
  | Vis c k =>
      (forall x, every_run (k x) (fun t e => Q (Returned c x :: t) e)) /\
      (forall what, Q [Threw c what] (Raised what))
  end.

(** what must hold of a run of [p] for [Q] to hold of every run of [p]
    followed by [f] *)
Definition then_run {A B : Type} (f : A -> Prog B) (Q : list Event -> Ending B -> Prop)
    (t : list Event) (e : Ending A) : Prop :=
  match e with
  | Finished a => every_run (f a) (fun t' e' => Q (t ++ t') e')
  | Raised what => Q t (Raised what)
  | ProcessEnded => Q t ProcessEnded
  | OutOfBounds => Q t OutOfBounds
  end.

(** the calls by which a handler function or a continuation generates the
    response itself; [parseVPackBody] has generated one when it reports
    failure. What a continuation does while a call on a future runs it is
    not among the events of the run that attached it, see [attaches]. *)
Definition is_response_call {X : Type} (c : Call X) : bool :=
  match c with
  | generateError _ _ | generateError_message _ _ _
  | generateError_result _ | generateOk _ _ => true
  | _ => false
  end.

Definition parse_failed {X : Type} (c : Call X) : X -> bool :=
  match c in Call X return X -> bool with
  | parseVPackBody => fun parsed => negb (fst parsed)
  | _ => fun _ => false
  end.

Definition responds (ev : Event) : bool :=
  match ev with
  | Returned c x => is_response_call c || parse_failed c x
  | Threw c _ => is_response_call c
  end.

(** [thenValue] hands a continuation to a future. The future runs it once
    it is completed: inside [thenValue] when it already is, inside a later
    call such as [runAsyncStep] or [waitForFuture], or after the handler
    has returned. A [thenValue] that throws is counted as well. *)
Definition is_thenValue_call {X : Type} (c : Call X) : bool :=
  match c with
  | Future_thenValue _ _ => true
  | _ => false
  end.

Definition attaches (ev : Event) : bool :=
  match ev with
  | Returned c _ | Threw c _ => is_thenValue_call c
  end.

(** the events a response comes from: generated by the call itself, or by
    the continuation the call attached *)
Definition answers (ev : Event) : bool := responds ev || attaches ev.

(** the calls that change a replicated log or the set of logs *)
Definition is_write_call {X : Type} (c : Call X) : bool :=
  match c with
  | createReplicatedLog _ | dropReplicatedLog _
  | LogLeader_insert _ _ | LogLeader_runAsyncStep _
  | ReplicatedLog_becomeLeader _ _ _ _ _ | ReplicatedLog_becomeFollower _ _ _ _
  | LogFollower_appendEntries _ _ => true
  | _ => false
  end.

(** the calls on futures *)
Definition is_future_call {X : Type} (c : Call X) : bool :=
  match c with
  | LogLeader_waitFor _ _ | Future_thenValue _ _ | waitForFuture _ => true
  | _ => false
  end.

(** the calls on [_vocbase] and on the logs it hands out *)
Definition is_vocbase_call {X : Type} (c : Call X) : bool :=
  match c with
  | createReplicatedLog _ | dropReplicatedLog _
  | getReplicatedLogById _ | getReplicatedLogLeaderById _
  | getReplicatedLogFollowerById _
  | LogLeader_insert _ _ | LogLeader_waitFor _ _ | LogLeader_runAsyncStep _
  | LogLeader_readReplicatedEntryByIndex _ _ | ReplicatedLog_getStatus _
  | ReplicatedLog_becomeLeader _ _ _ _ _ | ReplicatedLog_becomeFollower _ _ _ _
  | LogFollower_appendEntries _ _ => true
  | _ => false
  end.

Definition writes (ev : Event) : bool :=
  match ev with
  | Returned c _ | Threw c _ => is_write_call c
  end.

Definition uses_future (ev : Event) : bool :=
  match ev with
  | Returned c _ | Threw c _ => is_future_call c
  end.

Definition touches_vocbase (ev : Event) : bool :=
  match ev with
  | Returned c _ | Threw c _ => is_vocbase_call c
  end.

(** what [parseVPackBody] returned: [parseSuccess] and the body *)
Definition parsed (ev : Event) : option (bool * Slice) :=
  match ev with
  | Returned c x =>
      match c in Call X return X -> option (bool * Slice) with
      | parseVPackBody => fun result => Some result
      | _ => fun _ => None
      end x
  | Threw _ _ => None
  end.

(** the log ids [dropReplicatedLog] was called with *)
Definition dropped (ev : Event) : option N :=
  match ev with
  | Returned (dropReplicatedLog id) _ | Threw (dropReplicatedLog id) _ => Some id
  | _ => None
  end.

(** the payloads [insert] was called with on a leader *)
Definition inserted (ev : Event) : option LogPayload :=
  match ev with
  | Returned (LogLeader_insert _ payload) _ | Threw (LogLeader_insert _ payload) _ =>
      Some payload
  | _ => None
  end.

(** the indexes [insert] returned *)
Definition insert_returned (ev : Event) : option LogIndex :=
  match ev with
  | Returned c x =>
      match c in Call X return X -> option LogIndex with
      | LogLeader_insert _ _ => fun idx => Some idx
      | _ => fun _ => None
      end x
  | Threw _ _ => None
  end.

(** the indexes [waitFor] was called with *)
Definition waited_for (ev : Event) : option LogIndex :=
  match ev with
  | Returned (LogLeader_waitFor _ idx) _ | Threw (LogLeader_waitFor _ idx) _ => Some idx
  | _ => None
  end.

(** the followers [becomeLeader] was called with *)
Definition became_leader_with (ev : Event) : option (list FakeLogFollower) :=
  match ev with
  | Returned (ReplicatedLog_becomeLeader _ _ _ follower _) _
  | Threw (ReplicatedLog_becomeLeader _ _ _ follower _) _ => Some follower
  | _ => None
  end.

End Runs.

Arguments Finished {R} r.
Arguments Raised {R} what.
Arguments ProcessEnded {R}.
Arguments OutOfBounds {R}.

End HandlerRuns.

(** ** A stand-in for the outside of the handler, for the worked examples *)
Module HandlerSamples.
Import Futures FakeLogFollower RestLogHandler.

(** JSON values in the place of VelocyPack slices *)
#[warnings="-register-all"]
Inductive Json :=
| JNull
| JNumber (n : N)
| JString (s : string)
| JArray (members : list Json)
| JObject (members : list (string * Json)).

Fixpoint member (key : string) (members : list (string * Json)) : Json :=
  match members with
  | [] => JNull
  | (k, v) :: rest => if String.eqb k key then v else member key rest
  end.

Definition digit_of (c : ascii) : option N :=
  let n := N_of_ascii c in
  if (48 <=? n) && (n <=? 57) then Some (n - 48) else None.

(** decimal digits to a number; anything else gives 0 *)
Fixpoint parse_uint64 (s : string) (acc : N) : N :=
  match s with
  | EmptyString => acc
  | String c rest =>
      match digit_of c with
      | Some d => parse_uint64 rest (10 * acc + d)
      | None => 0
      end
  end.

Definition external : External :=
  {| Slice := Json;
     AppendEntriesRequest := list LogEntry;
     LogRef := N;
     LeaderRef := N;
     FollowerRef := N;
     FutureOf := Future;
     Slice_get := fun s key =>
       match s with
       | JObject members => Returns (member key members)
       | _ => Throws "Expecting type Object"
       end;
     Slice_getNumericValue := fun s =>
       match s with
       | JNumber n => Returns n
       | _ => Throws "Expecting numeric type"
       end;
     Slice_copyString := fun s =>
       match s with
       | JString v => Returns v
       | _ => Throws "Expecting type String"
       end;
     Slice_isArray := fun s => match s with JArray _ => true | _ => false end;
     Slice_toJson := fun s =>
       match s with
       | JNumber n => Returns (pretty n)
       | JString v => Returns v
       | _ => Returns "{}"%string
       end;
     ArrayIterator := fun s =>
       match s with
       | JArray members => Returns members
       | _ => Throws "Expecting type Array"
       end;
     Parser_parse := fun json => Returns (JString json);
     uint64 := fun s => parse_uint64 s 0;
     AppendEntriesRequest_fromVelocyPack := fun _ => Returns [];
     AppendEntriesResult_toVelocyPack := fun r =>
       JObject [("success"%string,
                 JString (if AppendEntriesResult.success r then "true" else "false"));
                ("term"%string, JNumber (AppendEntriesResult.logTerm r))] |}.

(** requests to the database [_system] on the server [PRMR-1] *)
Definition request (type : RequestType) (suffixes : list string) : Handler :=
  {| requestType := type;
     decodedSuffixes := suffixes;
     vocbase_name := "_system";
     networkPool := 1;
     serverStateId := "PRMR-1" |}.

(** the body of a [becomeLeader] request: term 3, write concern 2 and the
    followers [A] and [B] *)
Definition becomeLeader_body : Json :=
  JObject [("term"%string, JNumber 3); ("writeConcern"%string, JNumber 2);
           ("follower"%string, JArray [JString "A"; JString "B"])].

Section Traces.
Import HandlerRuns.
#[local] Existing Instance external.
Local Open Scope string_scope.

(** [DELETE /_api/log/12], the drop succeeds *)
Definition delete_12 : list Event :=
  [Returned (dropReplicatedLog 12) Result_default;
   Returned (generateOk ACCEPTED emptyObjectSlice) tt].

(** [GET /_api/log/12/dump] *)
Definition get_dump : list Event :=
  [Returned (generateOk OK (VObject [("logId", VUInt 12)])) tt].

(** [POST /_api/log/12/frobnicate] *)
Definition post_unknown : list Event :=
  [Returned parseVPackBody (true, JNull);
   Returned (generateError_message NOT_FOUND TRI_ERROR_HTTP_NOT_FOUND
               "expecting one of the resources 'insert', ") tt].

(** [POST /_api/log/12/insertBabies] with the body [[1, 2]]: the leader is
    log 7, the inserts return the indexes 5 and 6, the future is pending *)
Definition post_insertBabies : list Event :=
  [Returned parseVPackBody (true, JArray [JNumber 1; JNumber 2]);
   Returned (getReplicatedLogLeaderById 12) (7 : LeaderRef);
   Returned (LogLeader_insert (7 : LeaderRef) {| dummy := "1" |}) 5;
   Returned (LogLeader_insert (7 : LeaderRef) {| dummy := "2" |}) 6;
   Returned (LogLeader_waitFor (7 : LeaderRef) 6) (Pending : FutureOf QuorumData);
   Returned (Future_thenValue (Pending : FutureOf QuorumData) (quorum_reply 6))
     (Pending : FutureOf unit);
   Returned (LogLeader_runAsyncStep (7 : LeaderRef)) tt;
   Returned (waitForFuture (Pending : FutureOf unit)) (OtherStatus 1)].

(** [POST /_api/log/12/becomeLeader] with [becomeLeader_body] *)
Definition post_becomeLeader : list Event :=
  [Returned parseVPackBody (true, becomeLeader_body);
   Returned (getReplicatedLogById 12) (4 : LogRef);
   Returned (ReplicatedLog_becomeLeader (4 : LogRef) "PRMR-1" 3
               [mkFakeLogFollower 1 "A" "_system" 12;
                mkFakeLogFollower 1 "B" "_system" 12] 2) tt;
   Returned (generateOk ACCEPTED emptyObjectSlice) tt].

(** [POST /_api/log/12/appendEntries], as the follower for log 12 sends it *)
Definition post_appendEntries : list Event :=
  [Returned parseVPackBody (true, JNull);
   Returned (getReplicatedLogFollowerById 12) (9 : FollowerRef);
   Returned (LogFollower_appendEntries (9 : FollowerRef) ([] : AppendEntriesRequest))
     (Pending : FutureOf AppendEntriesResult.t);
   Returned (Future_thenValue (Pending : FutureOf AppendEntriesResult.t)
               appendEntries_reply) (Pending : FutureOf unit);
   Returned (waitForFuture (Pending : FutureOf unit)) (OtherStatus 1)].

End Traces.
End HandlerSamples.

(** * Properties *)

(** ** [std::map] on ascending node sequences *)
Module StdMapFacts.
Import StdMap.
Section Facts.
Context {V : Type}.
Implicit Types (m : StdMap.t V) (k : N).

Lemma sortedb_spec m : sortedb m = true <-> sorted m.
Proof.
  unfold sorted. induction m as [|[k v] m IH]; simpl.
  - split; [constructor | reflexivity].
  - rewrite andb_true_iff, IH, forallb_forall. split.
    + intros [Hall Hs]. constructor; [exact Hs|].
      apply List.Forall_forall. intros b Hb. apply N.ltb_lt, Hall, Hb.
    + intros Hs. inversion Hs as [|? ? Hs' Hall]; subst. split; [|exact Hs'].
      intros b Hb. apply N.ltb_lt. simpl.
      eapply (proj1 (List.Forall_forall _ _)) in Hall; [exact Hall | exact Hb].
Qed.

Lemma lower_bound_le m k : (lower_bound k m <= length m)%nat.
Proof.
  induction m as [|[k' v] m IH]; simpl; [lia|].
  destruct (k' <? k); simpl; lia.
Qed.

Lemma sorted_tail a m : sorted (a :: m) -> sorted m.
Proof. intros H; inversion H; assumption. Qed.

Lemma sorted_head_lt a m : sorted (a :: m) -> Forall (fun b => fst a < fst b) m.
Proof. intros H; inversion H; assumption. Qed.

(** Behind a head whose key is not less than [k] no key is less than [k]. *)
Lemma filter_lt_above k k' m :
  k <= k' -> Forall (fun b => k' < fst b) m -> filter (fun e => fst e < k) m = [].
Proof.
  intros Hle. induction 1 as [|b m Hb _ IH]; [reflexivity|].
  rewrite filter_cons_False by (simpl in *; lia). exact IH.
Qed.

Lemma filter_ge_above k k' m :
  k <= k' -> Forall (fun b => k' < fst b) m -> filter (fun e => k <= fst e) m = m.
Proof.
  intros Hle. induction 1 as [|b m Hb _ IH]; [reflexivity|].
  rewrite filter_cons_True by (simpl in *; lia). now rewrite IH.
Qed.

(** the two cases of [lower_bound] at the head of a sorted map *)
Ltac lower_bound_head k k' Hs :=
  cbn [lower_bound];
  destruct (N.ltb_spec k' k) as [?Hlt|?Hge];
  [ apply sorted_tail in Hs | apply sorted_head_lt in Hs ].

(** Below the lower bound sit exactly the keys less than [k]. *)
Lemma take_lower_bound m k :
  sorted m -> take (lower_bound k m) m = filter (fun e => fst e < k) m.
Proof.
  induction m as [|[k' v] m IH]; intros Hs; [reflexivity|].
  lower_bound_head k k' Hs.
  - rewrite filter_cons_True by (simpl; lia). cbn [take]. f_equal. now apply IH.
  - rewrite filter_cons_False by (simpl; lia). cbn [take].
    symmetry. now apply (filter_lt_above k k').
Qed.

(** From the lower bound on sit exactly the keys not less than [k]. *)
Lemma drop_lower_bound m k :
  sorted m -> drop (lower_bound k m) m = filter (fun e => k <= fst e) m.
Proof.
  induction m as [|[k' v] m IH]; intros Hs; [reflexivity|].
  lower_bound_head k k' Hs.
  - rewrite filter_cons_False by (simpl; lia). cbn [drop]. now apply IH.
  - rewrite filter_cons_True by (simpl; lia). cbn [drop].
    f_equal. symmetry. now apply (filter_ge_above k k').
Qed.

Lemma erase_front m k :
  sorted m -> erase (begin m) (lower_bound k m) m = filter (fun e => k <= fst e) m.
Proof. intros Hs. unfold erase, begin. simpl. apply drop_lower_bound, Hs. Qed.

Lemma erase_back m k :
  sorted m -> erase (lower_bound k m) (end_ m) m = filter (fun e => fst e < k) m.
Proof.
  intros Hs. unfold erase, end_. rewrite drop_all, app_nil_r.
  apply take_lower_bound, Hs.
Qed.

Lemma sorted_filter (P : N * V -> Prop) `{forall x, Decision (P x)} m :
  sorted m -> sorted (filter P m).
Proof.
  unfold sorted. induction 1 as [|a m Hs IH Hall]; [constructor|].
  destruct (decide (P a)).
  - rewrite filter_cons_True by assumption. constructor; [exact IH|].
    apply List.Forall_forall. intros b Hb.
    apply list_elem_of_In, list_elem_of_filter in Hb. destruct Hb as [_ Hb].
    eapply (proj1 (List.Forall_forall _ _)) in Hall; [exact Hall|].
    apply list_elem_of_In, Hb.
  - rewrite filter_cons_False by assumption. exact IH.
Qed.

(** [try_emplace] adds at most the new node and keeps the old ones. *)
Lemma elem_of_try_emplace x k v m :
  x ∈ fst (try_emplace k v m) <-> (x ∈ m \/ (x = (k, v) /\ snd (try_emplace k v m) = true)).
Proof.
  induction m as [|[k' v'] m IH]; cbn [try_emplace].
  - cbn [fst snd]. rewrite list_elem_of_singleton. split; [auto|].
    intros [Hin|[-> _]]; [inversion Hin | reflexivity].
  - destruct (k <? k'); [cbn [fst snd]; rewrite (elem_of_cons (_ :: _)); tauto|].
    destruct (k =? k'); cbn [fst snd].
    + split; [auto|]. intros [Hin|[_ Hf]]; [exact Hin | discriminate].
    + rewrite !elem_of_cons, IH. tauto.
Qed.

(** [try_emplace] keeps the keys strictly ascending. *)
Lemma try_emplace_sorted k v m : sorted m -> sorted (fst (try_emplace k v m)).
Proof.
  unfold sorted. induction 1 as [|[k' v'] m Hs IH Hall]; cbn [try_emplace].
  - repeat constructor.
  - destruct (N.ltb_spec k k') as [Hlt|Hge]; cbn [fst].
    + constructor; [now constructor|]. constructor; [simpl; lia|].
      eapply Forall_impl; [exact Hall|]. simpl. intros; lia.
    + destruct (N.eqb_spec k k') as [->|Hne]; cbn [fst]; [now constructor|].
      constructor; [exact IH|]. apply Forall_forall. intros x Hx.
      apply elem_of_try_emplace in Hx as [Hx|[-> _]].
      * rewrite Forall_forall in Hall. now apply Hall.
      * simpl. lia.
Qed.

(** A key that is present keeps its value: [try_emplace] does not overwrite. *)
Lemma try_emplace_present k v v' m :
  sorted m -> (k, v') ∈ m -> try_emplace k v m = (m, false).
Proof.
  unfold sorted. induction 1 as [|[k0 v0] m Hs IH Hall]; intros Hin; [inversion Hin|].
  cbn [try_emplace]. apply elem_of_cons in Hin as [Heq|Hin].
  - inversion Heq; subst. now rewrite N.ltb_irrefl, N.eqb_refl.
  - rewrite Forall_forall in Hall. specialize (Hall _ Hin). simpl in Hall.
    destruct (N.ltb_spec k k0); [lia|]. destruct (N.eqb_spec k k0); [lia|].
    now rewrite (IH Hin).
Qed.

End Facts.
End StdMapFacts.

(** ** [MockLog] and its iterators *)
Module MockLogFacts.
Import StdMap StdMapFacts MockLog.

Lemma ContainerIterator_new_wf store start : it_wf (ContainerIterator_new store start).
Proof. split; [reflexivity | apply lower_bound_le]. Qed.

Lemma next_wf it : it_wf it -> it_wf (snd (next it)).
Proof.
  intros [He Hc]. unfold next.
  destruct (Nat.eqb_spec (_current it) (_end it)) as [Heq|Hne]; [split; assumption|].
  destruct (_store it !! _current it) eqn:Hl; [|split; assumption].
  split; simpl; [exact He | lia].
Qed.

Lemma drain_fuel_wf fuel it :
  it_wf it -> (_end it - _current it < fuel)%nat ->
  drain_fuel fuel it = map snd (skipn (_current it) (_store it)).
Proof.
  revert it. induction fuel as [|fuel IH]; intros it [He Hc] Hf; [lia|].
  simpl. unfold next.
  destruct (Nat.eqb_spec (_current it) (_end it)) as [Heq|Hne].
  - rewrite Heq, He. now rewrite drop_all.
  - assert (Hlt : (_current it < length (_store it))%nat) by lia.
    destruct (lookup_lt_is_Some_2 _ _ Hlt) as [kv Hkv]. rewrite Hkv.
    rewrite (drop_S _ _ _ Hkv). simpl. f_equal.
    rewrite IH; [reflexivity | split; simpl; lia | simpl; lia].
Qed.

(** [drain] runs with enough fuel: it yields the rest of the owned map. *)
Lemma drain_wf it : it_wf it -> drain it = map snd (skipn (_current it) (_store it)).
Proof. intros H. unfold drain. apply drain_fuel_wf; [exact H | lia]. Qed.

(** More fuel than [drain] uses changes nothing: the loop had finished. *)
Lemma drain_fuel_enough fuel it :
  it_wf it -> (_end it - _current it < fuel)%nat -> drain_fuel fuel it = drain it.
Proof. intros H Hf. rewrite drain_wf by exact H. apply drain_fuel_wf; assumption. Qed.

Lemma drain_next it : it_wf it -> drain (snd (next it)) = skipn 1 (drain it).
Proof.
  intros Hwf. rewrite !drain_wf by (try apply next_wf; exact Hwf).
  destruct Hwf as [He Hc]. unfold next.
  destruct (Nat.eqb_spec (_current it) (_end it)) as [Heq|Hne].
  - simpl. rewrite Heq, He, drop_all. reflexivity.
  - assert (Hlt : (_current it < length (_store it))%nat) by lia.
    destruct (lookup_lt_is_Some_2 _ _ Hlt) as [kv Hkv]. rewrite Hkv. simpl.
    rewrite (drop_S _ _ _ Hkv). reflexivity.
Qed.

Lemma iter_next_wf n it : it_wf it -> it_wf (Nat.iter n (fun i => snd (next i)) it).
Proof. intros H. induction n as [|n IH]; simpl; [exact H | apply next_wf, IH]. Qed.

Lemma drain_iter_next n it :
  it_wf it -> drain (Nat.iter n (fun i => snd (next i)) it) = skipn n (drain it).
Proof.
  intros H. induction n as [|n IH]; simpl; [now rewrite drop_0|].
  rewrite drain_next by (apply iter_next_wf, H). rewrite IH, drop_drop.
  f_equal. lia.
Qed.

(** A fresh iterator yields the stored entries from [start] on. *)
Lemma drain_read start log :
  sorted (_storage log) ->
  drain (read start log) = map snd (filter (fun e => start <= fst e) (_storage log)).
Proof.
  intros Hs. unfold read. rewrite drain_wf by apply ContainerIterator_new_wf.
  simpl. now rewrite drop_lower_bound.
Qed.

Lemma removeFront_storage stop log :
  sorted (_storage log) ->
  _storage (snd (removeFront stop log)) = filter (fun e => stop <= fst e) (_storage log).
Proof. intros Hs. simpl. apply erase_front, Hs. Qed.

Lemma removeBack_storage start log :
  sorted (_storage log) ->
  _storage (snd (removeBack start log)) = filter (fun e => fst e < start) (_storage log).
Proof. intros Hs. simpl. apply erase_back, Hs. Qed.

(** The class invariant is kept by both trims. *)
Lemma removeFront_sorted stop log :
  sorted (_storage log) -> sorted (_storage (snd (removeFront stop log))).
Proof. intros Hs. rewrite removeFront_storage by exact Hs. now apply sorted_filter. Qed.

Lemma removeBack_sorted start log :
  sorted (_storage log) -> sorted (_storage (snd (removeBack start log))).
Proof. intros Hs. rewrite removeBack_storage by exact Hs. now apply sorted_filter. Qed.

(** The remaining operations keep the class invariant as well. *)
Lemma drop_sorted log : sorted (_storage (snd (MockLog.drop log))).
Proof. constructor. Qed.

Lemma setEntry_sorted entry log :
  sorted (_storage log) -> sorted (_storage (setEntry entry log)).
Proof. apply try_emplace_sorted. Qed.

Lemma setEntry_at_sorted idx term payload log :
  sorted (_storage log) -> sorted (_storage (setEntry_at idx term payload log)).
Proof. apply try_emplace_sorted. Qed.

Lemma insert_loop_sorted fuel iter s lastIndex lastTerm asserts :
  sorted s ->
  sorted (fst (fst (fst (snd (insert_loop fuel iter (s, lastIndex, lastTerm, asserts)))))).
Proof.
  revert iter s lastIndex lastTerm asserts.
  induction fuel as [|fuel IH]; intros iter s lastIndex lastTerm asserts Hs; [exact Hs|].
  cbn [insert_loop]. destruct (next iter) as [[entry|] iter']; [|exact Hs].
  cbn [insert_step]. apply IH, try_emplace_sorted, Hs.
Qed.

Lemma insert_sorted iter log :
  sorted (_storage log) -> sorted (_storage (snd (fst (fst (insert iter log))))).
Proof.
  intros Hs. unfold insert.
  pose proof (insert_loop_sorted (S (_end iter - _current iter)) iter
                (_storage log) 0 0 true Hs) as H.
  destruct (insert_loop _ _ _) as [iter' [[[s li] lt] asserts]]. exact H.
Qed.

(** Advancing iterator [h] touches neither the log nor the other iterators. *)
Lemma st_next_iter n h st :
  theLog (Nat.iter n (fun s => snd (st_next h s)) st) = theLog st /\
  handedOut (Nat.iter n (fun s => snd (st_next h s)) st) !! h =
    Nat.iter n (fun i => snd (next i)) <$> handedOut st !! h.
Proof.
  induction n as [|n [IHl IHh]]; simpl.
  - split; [reflexivity|]. now destruct (handedOut st !! h).
  - set (s := Nat.iter n (fun s => snd (st_next h s)) st) in *.
    unfold st_next. destruct (handedOut s !! h) as [it|] eqn:Hit; simpl.
    + split; [exact IHl|].
      rewrite list_lookup_insert_eq by (eapply lookup_lt_Some; eauto).
      destruct (handedOut st !! h); simpl in *; [|discriminate].
      now inversion IHh.
    + split; [exact IHl|]. rewrite Hit.
      destruct (handedOut st !! h); simpl in *; [discriminate | reflexivity].
Qed.

End MockLogFacts.

Module MockLogClaims.
Import StdMap StdMapFacts MockLog MockLogFacts.

(** C10. For every [MockLog] state and every index [i]: [removeFront(i)]
    and [removeBack(i)] return a success [Result]; [removeFront(i)] removes
    exactly the stored entries with index strictly less than [i] (the
    storage becomes its entries with index at least [i], so an entry at [i]
    stays), and [removeBack(i)] removes exactly the stored entries with
    index at least [i] (an entry at [i] goes). The storage is a [std::map],
    its keys ascend. *)
Theorem removeFront_removeBack_exact (log : MockLog) (i : LogIndex) :
  ok (fst (removeFront i log)) = true /\
  ok (fst (removeBack i log)) = true /\
  (sorted (_storage log) ->
   _storage (snd (removeFront i log)) = filter (fun e => i <= fst e) (_storage log) /\
   _storage (snd (removeBack i log)) = filter (fun e => fst e < i) (_storage log) /\
   (forall e, (i, e) ∈ _storage log ->
      (i, e) ∈ _storage (snd (removeFront i log)) /\
      (i, e) ∉ _storage (snd (removeBack i log))) /\
   (forall k e, (k, e) ∈ _storage (snd (removeFront i log)) <->
                (k, e) ∈ _storage log /\ i <= k) /\
   (forall k e, (k, e) ∈ _storage (snd (removeBack i log)) <->
                (k, e) ∈ _storage log /\ k < i)).
Proof.
  split; [reflexivity|]. split; [reflexivity|]. intros Hs.
  rewrite removeFront_storage, removeBack_storage by exact Hs.
  split; [reflexivity|]. split; [reflexivity|]. split; [|split].
  - intros e Hin. split.
    + apply list_elem_of_filter. split; [simpl; lia | assumption].
    + intros Hin'. apply list_elem_of_filter in Hin'. simpl in Hin'. lia.
  - intros k e. rewrite list_elem_of_filter. simpl. tauto.
  - intros k e. rewrite list_elem_of_filter. simpl. tauto.
Qed.

Lemma removeFront_removeBack_exact_witness :
  sorted (_storage Samples.log1235) /\
  _storage (snd (removeFront 3 Samples.log1235)) =
    [(3, Samples.entry 1 3); (5, Samples.entry 2 5)] /\
  _storage (snd (removeBack 3 Samples.log1235)) =
    [(1, Samples.entry 1 1); (2, Samples.entry 1 2)].
Proof.
  assert (Hs : sorted (_storage Samples.log1235)) by (apply sortedb_spec; reflexivity).
  destruct (removeFront_removeBack_exact Samples.log1235 3) as (_ & _ & Hexact).
  destruct (Hexact Hs) as (Hf & Hb & _).
  split; [exact Hs|]. split; [rewrite Hf | rewrite Hb]; reflexivity.
Defined.

(** C9. For every persisted-log state and every iterator handed out
    before: [removeFront(index)] and [removeBack(index)] leave what the
    iterator yields unchanged. For an iterator obtained from
    [read(fromIndex)], however far the caller has advanced it, that is the
    rest of the entries from [fromIndex] on of the log as it was when [read]
    ran, while the stored sequence itself is trimmed. *)
Theorem iterator_survives_trim (st : Store) (fromIndex index : LogIndex) (n : nat) :
  (forall h, st_yields h (snd (st_removeFront index st)) = st_yields h st /\
             st_yields h (snd (st_removeBack index st)) = st_yields h st) /\
  (sorted (_storage (theLog st)) ->
   let h := fst (st_read fromIndex st) in
   let st1 := Nat.iter n (fun s => snd (st_next h s)) (snd (st_read fromIndex st)) in
   let snapshot := map snd (filter (fun e => fromIndex <= fst e) (_storage (theLog st))) in
   st_yields h st1 = Some (skipn n snapshot) /\
   st_yields h (snd (st_removeFront index st1)) = Some (skipn n snapshot) /\
   st_yields h (snd (st_removeBack index st1)) = Some (skipn n snapshot) /\
   _storage (theLog (snd (st_removeFront index st1))) =
     filter (fun e => index <= fst e) (_storage (theLog st)) /\
   _storage (theLog (snd (st_removeBack index st1))) =
     filter (fun e => fst e < index) (_storage (theLog st))).
Proof.
  split; [intros h; split; reflexivity|].
  intros Hs h st1 snapshot.
  destruct (st_next_iter n h (snd (st_read fromIndex st))) as [Hlog Hit].
  fold st1 in Hlog, Hit.
  assert (Hy : st_yields h st1 = Some (skipn n snapshot)).
  { unfold st_yields. rewrite Hit. subst h. simpl.
    rewrite lookup_app_r by lia. rewrite Nat.sub_diag. simpl.
    rewrite drain_iter_next by apply ContainerIterator_new_wf.
    now rewrite drain_read. }
  repeat split; try exact Hy.
  - unfold st_removeFront. cbn [snd theLog]. rewrite Hlog.
    now rewrite removeFront_storage.
  - unfold st_removeBack. cbn [snd theLog]. rewrite Hlog.
    now rewrite removeBack_storage.
Qed.

Lemma iterator_survives_trim_witness :
  sorted (_storage Samples.log1235) /\
  let st := {| theLog := Samples.log1235; handedOut := [] |} in
  let st1 := snd (st_next 0 (snd (st_read 2 st))) in
  st_yields 0 (snd (st_removeFront 5 st1)) = Some [Samples.entry 1 3; Samples.entry 2 5] /\
  _storage (theLog (snd (st_removeFront 5 st1))) = [(5, Samples.entry 2 5)].
Proof.
  assert (Hs : sorted (_storage Samples.log1235)) by (apply sortedb_spec; reflexivity).
  split; [exact Hs|].
  destruct (iterator_survives_trim {| theLog := Samples.log1235; handedOut := [] |}
              2 5 1) as (_ & Hsnap).
  destruct (Hsnap Hs) as (_ & Hf & _ & Hl & _).
  split; [exact Hf | exact Hl].
Defined.

End MockLogClaims.

(** ** [MockLog::insert] and [MockLog::setEntry]: what ends up in the map *)
Module MockLogInsertFacts.
Import StdMap StdMapFacts MockLog MockLogFacts.



(** [try_emplace] reports an insertion exactly for a key that was not there. *)
Lemma try_emplace_second k (v : LogEntry) m :
  sorted m -> snd (try_emplace k v m) = true <-> vacant k m.
Proof.
  unfold sorted, vacant. induction 1 as [|[k0 v0] m Hs IH Hall]; cbn [try_emplace].
  - cbn [snd]. split; [|reflexivity]. intros _ e He. inversion He.
  - rewrite Forall_forall in Hall.
    destruct (N.ltb_spec k k0) as [Hlt|Hge]; cbn [snd].
    + split; [|reflexivity]. intros _ e He.
      apply elem_of_cons in He as [Heq|He]; [inversion Heq; lia|].
      specialize (Hall _ He). simpl in Hall. lia.
    + destruct (N.eqb_spec k k0) as [->|Hne]; cbn [snd].
      * split; [discriminate|]. intros Hv. exfalso. apply (Hv v0), elem_of_cons. now left.
      * rewrite IH. split; intros Hv e He.
        -- apply elem_of_cons in He as [Heq|He]; [inversion Heq; congruence|].
           exact (Hv e He).
        -- apply (Hv e), elem_of_cons. now right.
Qed.


Lemma emplace_all_sorted es s : sorted s -> sorted (emplace_all es s).
Proof.
  revert s. induction es as [|e es IH]; intros s Hs; [exact Hs|].
  apply IH, try_emplace_sorted, Hs.
Qed.

Lemma emplace_all_cons e es s :
  emplace_all (e :: es) s = emplace_all es (fst (try_emplace (logIndex e) e s)).
Proof. reflexivity. Qed.

(** What the map holds after a run of [try_emplace] calls: the old nodes,
    and for each index that was vacant the first entry offered for it. *)
Lemma elem_of_emplace_all es s k e :
  sorted s ->
  (k, e) ∈ emplace_all es s <->
  (k, e) ∈ s \/ (vacant k s /\ List.find (fun x => logIndex x =? k) es = Some e).
Proof.
  revert s. induction es as [|x es IH]; intros s Hs.
  - cbn [emplace_all fold_left List.find]. split; [auto|]. intros [H|[_ H]]; [exact H|discriminate].
  - rewrite emplace_all_cons, IH by (apply try_emplace_sorted, Hs).
    pose proof (try_emplace_second (logIndex x) x s Hs) as Hsnd.
    assert (Hmem : forall y, y ∈ fst (try_emplace (logIndex x) x s) <->
                     y ∈ s \/ (y = (logIndex x, x) /\ vacant (logIndex x) s)).
    { intros y. rewrite elem_of_try_emplace, Hsnd. reflexivity. }
    cbn [List.find]. destruct (N.eqb_spec (logIndex x) k) as [Heq|Hne].
    + subst k. split.
      * intros [Hin|[Hv Hf]].
        -- apply Hmem in Hin as [Hin|[Hy Hv]]; [now left|].
           right. split; [exact Hv|]. inversion Hy. reflexivity.
        -- exfalso. destruct (snd (try_emplace (logIndex x) x s)) eqn:Hb.
           ++ apply (Hv x), Hmem. right. split; [reflexivity | now apply Hsnd].
           ++ assert (Hv' : ~ vacant (logIndex x) s) by (rewrite <- Hsnd; discriminate).
              apply Hv'. intros e' He'. apply (Hv e'), Hmem. now left.
      * intros [Hin|[Hv Hf]].
        -- left. apply Hmem. now left.
        -- inversion Hf; subst e. left. apply Hmem. right. split; [reflexivity | exact Hv].
    + assert (Hk : forall e', (k, e') ∈ fst (try_emplace (logIndex x) x s) <-> (k, e') ∈ s).
      { intros e'. rewrite Hmem. split; [|auto].
        intros [H|[H _]]; [exact H|]. inversion H. congruence. }
      unfold vacant. rewrite Hk. split.
      * intros [H|[Hv Hf]]; [now left|]. right. split; [|exact Hf].
        intros e' He'. apply (Hv e'), Hk, He'.
      * intros [H|[Hv Hf]]; [now left|]. right. split; [|exact Hf].
        intros e' He'. apply (Hv e'), Hk, He'.
Qed.

(** The loop of [insert] runs the iterator to its end and applies the
    loop body to the entries the iterator yields, in their order. *)
Lemma insert_loop_drain fuel iter st :
  it_wf iter -> (_end iter - _current iter < fuel)%nat ->
  insert_loop fuel iter st =
    (at_end iter, fold_left (fun st e => insert_step e st) (drain iter) st).
Proof.
  revert iter st. induction fuel as [|fuel IH]; intros iter st Hwf Hf; [lia|].
  rewrite drain_wf by exact Hwf. destruct Hwf as [He Hc].
  cbn [insert_loop]. unfold next.
  destruct (Nat.eqb_spec (_current iter) (_end iter)) as [Heq|Hne].
  - rewrite Heq, He, drop_all. cbn [map fold_left]. f_equal.
    destruct iter as [store cur en]. unfold at_end. simpl in *. now subst.
  - assert (Hlt : (_current iter < length (_store iter))%nat) by lia.
    destruct (lookup_lt_is_Some_2 _ _ Hlt) as [kv Hkv]. rewrite Hkv.
    rewrite (drop_S _ _ _ Hkv). cbn [map fold_left].
    rewrite IH; [|split; simpl; lia|simpl; lia].
    rewrite drain_wf by (split; simpl; lia). reflexivity.
Qed.

Lemma fold_insert_step_storage es s li lt a :
  fst (fst (fst (fold_left (fun st e => insert_step e st) es (s, li, lt, a)))) =
  emplace_all es s.
Proof.
  revert s li lt a. induction es as [|e es IH]; intros s li lt a; [reflexivity|].
  cbn [fold_left insert_step]. rewrite IH. reflexivity.
Qed.

Lemma vacant_try_emplace k k' (v : LogEntry) s :
  k <> k' -> vacant k (fst (try_emplace k' v s)) <-> vacant k s.
Proof.
  intros Hne. unfold vacant. split; intros Hv e He.
  - apply (Hv e), elem_of_try_emplace. now left.
  - apply elem_of_try_emplace in He as [He|[Heq _]]; [exact (Hv e He)|].
    inversion Heq. congruence.
Qed.

Lemma Sorted_lt_head i l : Sorted N.lt (i :: l) -> Forall (fun j => i < j) l.
Proof. apply Sorted_extends. intros x y z. apply N.lt_trans. Qed.

(** The assertions of the loop hold for all entries exactly when every
    offered index was vacant, the indexes ascend strictly from
    [lastIndex] and the terms do not descend from [lastTerm]. *)
Lemma fold_insert_step_asserts es s li lt a :
  sorted s ->
  snd (fold_left (fun st e => insert_step e st) es (s, li, lt, a)) = true <->
  a = true /\ Forall (fun e => vacant (logIndex e) s) es /\
  Sorted N.lt (li :: map logIndex es) /\ Sorted N.le (lt :: map logTerm es).
Proof.
  revert s li lt a. induction es as [|x es IH]; intros s li lt a Hs.
  - cbn [fold_left snd map]. split; [|tauto]. intros ->. repeat constructor.
  - cbn [fold_left insert_step map].
    rewrite IH by (apply try_emplace_sorted, Hs).
    rewrite !andb_true_iff, N.leb_le, N.ltb_lt, (try_emplace_second _ _ _ Hs).
    assert (Hvac : Sorted N.lt (logIndex x :: map logIndex es) ->
              (Forall (fun e => vacant (logIndex e) (fst (try_emplace (logIndex x) x s))) es <->
               Forall (fun e => vacant (logIndex e) s) es)).
    { intros Hsort. apply Sorted_lt_head in Hsort.
      rewrite Forall_forall in Hsort. rewrite !Forall_forall.
      split; intros H e He.
      - apply (vacant_try_emplace _ (logIndex x) x); [|exact (H e He)].
        assert (logIndex x < logIndex e) by (apply Hsort, list_elem_of_In, in_map, list_elem_of_In, He). lia.
      - apply (vacant_try_emplace _ (logIndex x) x); [|exact (H e He)].
        assert (logIndex x < logIndex e) by (apply Hsort, list_elem_of_In, in_map, list_elem_of_In, He). lia. }
    split.
    + intros ((((Ha & Hv) & Ht) & Hi) & Hall & Hsi & Hst).
      split; [exact Ha|]. split; [constructor; [exact Hv | now apply Hvac]|].
      split; constructor; try assumption; now constructor.
    + intros (Ha & Hall & Hsi & Hst).
      apply Forall_cons in Hall as [Hv Hall].
      apply Sorted_inv in Hsi as [Hsi Hi]. apply Sorted_inv in Hst as [Hst Ht].
      inversion Hi; subst. inversion Ht; subst.
      split; [tauto|]. split; [now apply Hvac|]. split; assumption.
Qed.

(** [MockLog::insert], component by component. *)
Lemma insert_unfold iter log :
  it_wf iter ->
  insert iter log =
    (Result_default,
     {| _storage := emplace_all (drain iter) (_storage log) |},
     at_end iter,
     snd (fold_left (fun st e => insert_step e st) (drain iter) (_storage log, 0, 0, true))).
Proof.
  intros Hwf. unfold insert. rewrite insert_loop_drain by (exact Hwf || lia).
  pose proof (fold_insert_step_storage (drain iter) (_storage log) 0 0 true) as Hst.
  destruct (fold_left _ (drain iter) _) as [[[s li] lt] a]. cbn [fst snd] in *.
  now subst s.
Qed.



Lemma try_emplace_false k (v : LogEntry) m :
  snd (try_emplace k v m) = false -> fst (try_emplace k v m) = m.
Proof.
  induction m as [|[k0 v0] m IH]; cbn [try_emplace]; [discriminate|].
  destruct (k <? k0); [discriminate|]. destruct (k =? k0); [reflexivity|].
  cbn [fst snd]. intros H. now rewrite IH.
Qed.

Lemma try_emplace_taken k (v : LogEntry) m :
  sorted m -> ~ vacant k m -> fst (try_emplace k v m) = m.
Proof.
  intros Hs Hv. apply try_emplace_false.
  destruct (snd (try_emplace k v m)) eqn:Hb; [|reflexivity].
  exfalso. apply Hv. exact (proj1 (try_emplace_second k v m Hs) Hb).
Qed.

(** Offering entries whose indexes are all taken changes nothing. *)
Lemma emplace_all_taken es s :
  sorted s -> Forall (fun e => ~ vacant (logIndex e) s) es -> emplace_all es s = s.
Proof.
  intros Hs. induction 1 as [|e es He _ IH]; [reflexivity|].
  rewrite emplace_all_cons, try_emplace_taken by assumption. exact IH.
Qed.

(** Two maps with the same nodes are the same map. *)
Lemma sorted_ext (m1 m2 : storeType) :
  sorted m1 -> sorted m2 -> (forall x, x ∈ m1 <-> x ∈ m2) -> m1 = m2.
Proof.
  unfold sorted. intros Hs1. revert m2.
  induction Hs1 as [|a m1 Hs1 IH Hall1]; intros m2 Hs2 Hext.
  - destruct m2 as [|b m2]; [reflexivity|].
    exfalso. eapply not_elem_of_nil, Hext, elem_of_cons. now left.
  - destruct Hs2 as [|b m2 Hs2 Hall2].
    + exfalso. eapply not_elem_of_nil, Hext, elem_of_cons. now left.
    + rewrite Forall_forall in Hall1, Hall2.
      assert (Hab : a = b).
      { assert (Ha : a ∈ b :: m2) by (apply Hext, elem_of_cons; now left).
        assert (Hb : b ∈ a :: m1) by (apply Hext, elem_of_cons; now left).
        apply elem_of_cons in Ha as [Ha|Ha]; [exact Ha|].
        apply elem_of_cons in Hb as [Hb|Hb]; [now symmetry|].
        specialize (Hall1 _ Hb). specialize (Hall2 _ Ha). lia. }
      subst b. f_equal. apply IH; [exact Hs2|]. intros x. split; intros Hx.
      * assert (Hx' : x ∈ a :: m2) by (apply Hext, elem_of_cons; now right).
        apply elem_of_cons in Hx' as [->|Hx']; [|exact Hx'].
        specialize (Hall1 _ Hx). lia.
      * assert (Hx' : x ∈ a :: m1) by (apply Hext, elem_of_cons; now right).
        apply elem_of_cons in Hx' as [->|Hx']; [|exact Hx'].
        specialize (Hall2 _ Hx). lia.
Qed.

End MockLogInsertFacts.

(** ** [MockLog::insert]: contents, assertions, iterator and result *)
Module MockLogInsert.
Import StdMap StdMapFacts MockLog MockLogFacts MockLogInsertFacts.

(** X1. After [insert(iter)] a node is in the map exactly when it was
    there before, or its index was vacant and its entry is the first one
    the iterator yields for that index: stored entries are never replaced
    and of several entries offered for one index the first is kept. *)
Theorem insert_stores
    (iter : ContainerIterator) (log : MockLog) (k : LogIndex) (e : LogEntry) :
  sorted (_storage log) -> it_wf iter ->
  let '(_, log', _, _) := insert iter log in
  (k, e) ∈ _storage log' <->
  (k, e) ∈ _storage log \/
  (vacant k (_storage log) /\ List.find (fun x => logIndex x =? k) (drain iter) = Some e).
Proof.
  intros Hs Hwf. rewrite insert_unfold by exact Hwf. cbn [_storage].
  now apply elem_of_emplace_all.
Qed.

Lemma insert_stores_witness :
  sorted (_storage (setEntry (Samples.entry 7 3) (mkMockLog []))) /\
  it_wf (read 2 Samples.log1235) /\
  let '(_, log', _, _) :=
    insert (read 2 Samples.log1235) (setEntry (Samples.entry 7 3) (mkMockLog [])) in
  (5, Samples.entry 2 5) ∈ _storage log' <->
  (5, Samples.entry 2 5) ∈ _storage (setEntry (Samples.entry 7 3) (mkMockLog [])) \/
  (vacant 5 (_storage (setEntry (Samples.entry 7 3) (mkMockLog []))) /\
   List.find (fun x => logIndex x =? 5) (drain (read 2 Samples.log1235)) =
     Some (Samples.entry 2 5)).
Proof.
  assert (Hs : sorted (_storage (setEntry (Samples.entry 7 3) (mkMockLog []))))
    by (apply sortedb_spec; reflexivity).
  split; [exact Hs|]. split; [apply ContainerIterator_new_wf|].
  exact (insert_stores (read 2 Samples.log1235)
           (setEntry (Samples.entry 7 3) (mkMockLog [])) 5 (Samples.entry 2 5)
           Hs (ContainerIterator_new_wf _ _)).
Defined.

(** X2. The three assertions in the loop of [insert] hold for every entry
    exactly when each index the iterator yields was vacant in the log, the
    yielded indexes ascend strictly and lie above 0, and the yielded terms
    never descend. *)
Theorem insert_assertions (iter : ContainerIterator) (log : MockLog) :
  sorted (_storage log) -> it_wf iter ->
  snd (insert iter log) = true <->
  Forall (fun e => vacant (logIndex e) (_storage log)) (drain iter) /\
  Sorted N.lt (0 :: map logIndex (drain iter)) /\
  Sorted N.le (map logTerm (drain iter)).
Proof.
  intros Hs Hwf. rewrite insert_unfold by exact Hwf. cbn [snd].
  rewrite fold_insert_step_asserts by exact Hs.
  split.
  - intros (_ & Hv & Hi & Ht). split; [exact Hv|]. split; [exact Hi|].
    now apply Sorted_inv in Ht.
  - intros (Hv & Hi & Ht). split; [reflexivity|]. split; [exact Hv|]. split; [exact Hi|].
    constructor; [exact Ht|]. destruct (map logTerm (drain iter)); constructor. lia.
Qed.

Lemma insert_assertions_witness :
  sorted (_storage (mkMockLog [])) /\ it_wf (read 2 Samples.log1235) /\
  snd (insert (read 2 Samples.log1235) (mkMockLog [])) = true.
Proof.
  assert (Hs : sorted (_storage (mkMockLog []))) by constructor.
  split; [exact Hs|]. split; [apply ContainerIterator_new_wf|].
  apply (proj2 (insert_assertions (read 2 Samples.log1235) (mkMockLog [])
                  Hs (ContainerIterator_new_wf _ _))).
  split; [|split].
  - repeat constructor; intros e He; inversion He.
  - repeat constructor.
  - repeat constructor; vm_compute; discriminate.
Defined.

(** X3. When [insert] returns, for an iterator made by [read]. In a build
    without assertions it returns for every such iterator. In a maintainer
    build it returns exactly when every assertion holds, that is when each
    yielded index was vacant, the yielded indexes ascend strictly from above
    0 and the yielded terms never descend; otherwise the process ends inside
    the loop. Whenever it returns, the [Result] is the success value, the
    iterator is left at its end (the next [next()] returns [nullopt] and
    does not move it) and the storage holds what the [try_emplace] calls
    made of it; an error [Result] is never returned. *)
Theorem insert_runs_to_end (maintainerMode : bool) (iter : ContainerIterator) (log : MockLog) :
  sorted (_storage log) -> it_wf iter ->
  let accepted :=
    Forall (fun e => vacant (logIndex e) (_storage log)) (drain iter) /\
    Sorted N.lt (0 :: map logIndex (drain iter)) /\
    Sorted N.le (map logTerm (drain iter)) in
  (insert_call maintainerMode iter log = None <-> maintainerMode = true /\ ~ accepted) /\
  (forall res log' iter',
     insert_call maintainerMode iter log = Some (res, log', iter') ->
     ok res = true /\ iter' = at_end iter /\ next iter' = (None, iter') /\
     drain iter' = [] /\
     _storage log' = emplace_all (drain iter) (_storage log)).
Proof.
  intros Hs Hwf accepted.
  assert (Hacc : snd (fold_left (fun st e => insert_step e st) (drain iter)
                        (_storage log, 0, 0, true)) = true <-> accepted).
  { rewrite fold_insert_step_asserts by exact Hs. subst accepted. split.
    - intros (_ & Hv & Hi & Ht). split; [exact Hv|]. split; [exact Hi|].
      now apply Sorted_inv in Ht.
    - intros (Hv & Hi & Ht). split; [reflexivity|]. split; [exact Hv|]. split; [exact Hi|].
      constructor; [exact Ht|]. destruct (map logTerm (drain iter)); constructor. lia. }
  unfold insert_call. rewrite insert_unfold by exact Hwf.
  destruct (snd (fold_left _ (drain iter) _)) eqn:Hflag.
  - rewrite andb_false_r. split.
    + split; [discriminate|]. intros [_ Hna]. exfalso. apply Hna, Hacc. reflexivity.
    + intros res log' iter' [= <- <- <-].
      assert (Hn : next (at_end iter) = (None, at_end iter)).
      { unfold next, at_end. cbn [_current _end]. now rewrite Nat.eqb_refl. }
      split; [reflexivity|]. split; [reflexivity|]. split; [exact Hn|].
      split; [|reflexivity]. unfold drain. cbn [drain_fuel]. now rewrite Hn.
  - rewrite andb_true_r. destruct maintainerMode; cbn [negb].
    + split; [|discriminate]. split; [|tauto]. intros _. split; [reflexivity|].
      intros Ha. apply Hacc in Ha. discriminate Ha.
    + split.
      * split; [discriminate|]. intros [Hm _]. discriminate Hm.
      * intros res log' iter' [= <- <- <-].
        assert (Hn : next (at_end iter) = (None, at_end iter)).
        { unfold next, at_end. cbn [_current _end]. now rewrite Nat.eqb_refl. }
        split; [reflexivity|]. split; [reflexivity|]. split; [exact Hn|].
        split; [|reflexivity]. unfold drain. cbn [drain_fuel]. now rewrite Hn.
Qed.

(** in a maintainer build, entries for indexes that are taken end the
    process *)
Lemma insert_runs_to_end_witness :
  sorted (_storage Samples.log1235) /\ it_wf (read 0 Samples.log1235) /\
  insert_call true (read 0 Samples.log1235) Samples.log1235 = None.
Proof.
  assert (Hs : sorted (_storage Samples.log1235)) by (apply sortedb_spec; reflexivity).
  split; [exact Hs|]. split; [apply ContainerIterator_new_wf|].
  apply (proj1 (insert_runs_to_end true (read 0 Samples.log1235) Samples.log1235
                  Hs (ContainerIterator_new_wf _ _))).
  split; [reflexivity|]. intros [Hv _].
  apply Forall_cons in Hv as [Hv _]. apply (Hv (Samples.entry 1 1)).
  apply elem_of_cons. now left.
Defined.





End MockLogInsert.

(** ** [MockLog::setEntry], and how the two trims and [read] compose *)
Module MockLogSetTrim.
Import StdMap StdMapFacts MockLog MockLogFacts MockLogInsertFacts.

Lemma MockLog_eq (a b : MockLog) : _storage a = _storage b -> a = b.
Proof. destruct a, b. simpl. now intros ->. Qed.

Lemma setEntry_elem_of entry log x :
  sorted (_storage log) ->
  x ∈ _storage (setEntry entry log) <->
  x ∈ _storage log \/ (x = (logIndex entry, entry) /\ vacant (logIndex entry) (_storage log)).
Proof.
  intros Hs. unfold setEntry. cbn [_storage].
  now rewrite elem_of_try_emplace, try_emplace_second.
Qed.

Lemma setEntry_not_vacant entry log :
  sorted (_storage log) -> ~ vacant (logIndex entry) (_storage (setEntry entry log)).
Proof.
  intros Hs Hv. unfold setEntry in Hv. cbn [_storage] in Hv.
  destruct (snd (try_emplace (logIndex entry) entry (_storage log))) eqn:Hb.
  - apply (Hv entry), elem_of_try_emplace. right. now split.
  - rewrite (try_emplace_false _ _ _ Hb) in Hv.
    apply (try_emplace_second _ entry _ Hs) in Hv. congruence.
Qed.

(** X6. [setEntry] never overwrites: on an index that is taken it leaves
    the log as it is, on a vacant index it adds the one node and keeps all
    others; so of two entries set for the same index the first one stays.
    The three-argument overload files the entry it builds under [idx]. *)
Theorem setEntry_keeps_first (entry : LogEntry) (log : MockLog) :
  sorted (_storage log) ->
  (~ vacant (logIndex entry) (_storage log) -> setEntry entry log = log) /\
  (vacant (logIndex entry) (_storage log) ->
   forall x, x ∈ _storage (setEntry entry log) <->
             x ∈ _storage log \/ x = (logIndex entry, entry)) /\
  (forall entry', logIndex entry' = logIndex entry ->
     setEntry entry' (setEntry entry log) = setEntry entry log) /\
  (forall term payload,
     setEntry_at (logIndex entry) term payload log =
     setEntry (mkLogEntry term (logIndex entry) payload) log).
Proof.
  intros Hs. split; [|split; [|split]].
  - intros Hv. apply MockLog_eq. unfold setEntry. cbn [_storage].
    now apply try_emplace_taken.
  - intros Hv x. rewrite setEntry_elem_of by exact Hs. tauto.
  - intros entry' Hi. apply MockLog_eq.
    unfold setEntry at 1. cbn [_storage]. rewrite Hi.
    apply try_emplace_taken; [now apply setEntry_sorted | now apply setEntry_not_vacant].
  - reflexivity.
Qed.

Lemma setEntry_keeps_first_witness :
  sorted (_storage Samples.log1235) /\
  setEntry (Samples.entry 9 3) Samples.log1235 = Samples.log1235.
Proof.
  assert (Hs : sorted (_storage Samples.log1235)) by (apply sortedb_spec; reflexivity).
  split; [exact Hs|].
  apply (proj1 (setEntry_keeps_first (Samples.entry 9 3) Samples.log1235 Hs)).
  intros Hv. apply (Hv (Samples.entry 1 3)).
  vm_compute. do 2 right. left.
Defined.

(** X7. Entries set for different indexes end up in the same log in
    either order. *)
Theorem setEntry_commutes (e1 e2 : LogEntry) (log : MockLog) :
  sorted (_storage log) -> logIndex e1 <> logIndex e2 ->
  setEntry e1 (setEntry e2 log) = setEntry e2 (setEntry e1 log).
Proof.
  intros Hs Hne. apply MockLog_eq. apply sorted_ext.
  - now do 2 apply setEntry_sorted.
  - now do 2 apply setEntry_sorted.
  - intros x. rewrite !setEntry_elem_of by (try apply setEntry_sorted; exact Hs).
    unfold setEntry. cbn [_storage].
    rewrite (vacant_try_emplace (logIndex e1) (logIndex e2)) by exact Hne.
    rewrite (vacant_try_emplace (logIndex e2) (logIndex e1)) by congruence.
    tauto.
Qed.

Lemma setEntry_commutes_witness :
  setEntry (Samples.entry 2 4) (setEntry (Samples.entry 3 7) Samples.log1235) =
  setEntry (Samples.entry 3 7) (setEntry (Samples.entry 2 4) Samples.log1235).
Proof.
  apply (setEntry_commutes (Samples.entry 2 4) (Samples.entry 3 7) Samples.log1235).
  - apply sortedb_spec. reflexivity.
  - vm_compute. discriminate.
Defined.

Lemma filter_window i j (s : storeType) :
  filter (fun kv => fst kv < j) (filter (fun kv => i <= fst kv) s) =
  filter (fun kv => i <= fst kv /\ fst kv < j) s.
Proof. rewrite list_filter_filter. apply list_filter_iff. intros x. tauto. Qed.

(** X8. The two trims commute: [removeFront(i)] and [removeBack(j)] in
    either order leave exactly the stored entries whose index is at least
    [i] and less than [j]. *)
Theorem trims_commute (log : MockLog) (i j : LogIndex) :
  sorted (_storage log) ->
  snd (removeBack j (snd (removeFront i log))) =
    snd (removeFront i (snd (removeBack j log))) /\
  _storage (snd (removeBack j (snd (removeFront i log)))) =
    filter (fun kv => i <= fst kv /\ fst kv < j) (_storage log).
Proof.
  intros Hs.
  assert (H1 : _storage (snd (removeBack j (snd (removeFront i log)))) =
               filter (fun kv => i <= fst kv /\ fst kv < j) (_storage log)).
  { rewrite removeBack_storage by now apply removeFront_sorted.
    rewrite removeFront_storage by exact Hs. apply filter_window. }
  split; [|exact H1]. apply MockLog_eq. rewrite H1.
  rewrite removeFront_storage by now apply removeBack_sorted.
  rewrite removeBack_storage by exact Hs.
  rewrite list_filter_filter. reflexivity.
Qed.

Lemma trims_commute_witness :
  _storage (snd (removeBack 5 (snd (removeFront 2 Samples.log1235)))) =
    filter (fun kv => 2 <= fst kv /\ fst kv < 5) (_storage Samples.log1235).
Proof.
  apply (trims_commute Samples.log1235 2 5).
  apply sortedb_spec. reflexivity.
Defined.

(** X9. Trimming twice from the same side is trimming once at the
    stricter bound: the larger one for [removeFront], the smaller one for
    [removeBack]; in particular each trim is idempotent. *)
Theorem trims_compose (log : MockLog) (i j : LogIndex) :
  sorted (_storage log) ->
  snd (removeFront i (snd (removeFront j log))) = snd (removeFront (N.max i j) log) /\
  snd (removeBack i (snd (removeBack j log))) = snd (removeBack (N.min i j) log).
Proof.
  intros Hs. split; apply MockLog_eq.
  - rewrite removeFront_storage by now apply removeFront_sorted.
    rewrite !removeFront_storage by exact Hs.
    rewrite list_filter_filter. apply list_filter_iff. intros x. lia.
  - rewrite removeBack_storage by now apply removeBack_sorted.
    rewrite !removeBack_storage by exact Hs.
    rewrite list_filter_filter. apply list_filter_iff. intros x. lia.
Qed.

Lemma trims_compose_witness :
  snd (removeFront 2 (snd (removeFront 4 Samples.log1235))) =
    snd (removeFront (N.max 2 4) Samples.log1235) /\
  snd (removeBack 2 (snd (removeBack 4 Samples.log1235))) =
    snd (removeBack (N.min 2 4) Samples.log1235).
Proof.
  apply (trims_compose Samples.log1235 2 4).
  apply sortedb_spec. reflexivity.
Defined.

End MockLogSetTrim.

(** ** Bounds of the trims, [read] after a trim, the protocol of [next] *)
Module MockLogRead.
Import StdMap StdMapFacts MockLog MockLogFacts MockLogInsertFacts.

Lemma filter_id_iff {A} (P : A -> Prop) `{forall x, Decision (P x)} (l : list A) :
  filter P l = l <-> Forall P l.
Proof.
  induction l as [|a l IH]; [split; [constructor | reflexivity]|].
  destruct (decide (P a)) as [Ha|Ha].
  - rewrite filter_cons_True by exact Ha. rewrite Forall_cons. split.
    + intros Heq. inversion Heq as [Heq']. rewrite Heq'. split; [exact Ha | now apply IH].
    + intros [_ Hl]. f_equal. now apply IH.
  - rewrite filter_cons_False by exact Ha. rewrite Forall_cons. split; [|tauto].
    intros Heq. exfalso.
    assert (Hin : a ∈ filter P l) by (rewrite Heq; apply elem_of_cons; now left).
    apply list_elem_of_filter in Hin. tauto.
Qed.

Lemma filter_nil_iff {A} (P : A -> Prop) `{forall x, Decision (P x)} (l : list A) :
  filter P l = [] <-> Forall (fun x => ~ P x) l.
Proof.
  induction l as [|a l IH]; [split; [constructor | reflexivity]|].
  destruct (decide (P a)) as [Ha|Ha].
  - rewrite filter_cons_True by exact Ha. rewrite Forall_cons. split; [discriminate | tauto].
  - rewrite filter_cons_False by exact Ha. rewrite Forall_cons, IH. tauto.
Qed.

(** X10. Bounds of the trims. [removeFront(0)] changes nothing and
    [removeBack(0)] empties the log like [drop()], for every log. On a
    [std::map], [removeFront(i)] changes nothing, and [removeBack(i)] leaves
    nothing, exactly when no stored index lies below [i]. *)
Theorem trims_at_bounds (log : MockLog) (i : LogIndex) :
  snd (removeFront 0 log) = log /\
  snd (removeBack 0 log) = snd (MockLog.drop log) /\
  (sorted (_storage log) ->
   (snd (removeFront i log) = log <-> forall k e, (k, e) ∈ _storage log -> i <= k) /\
   (_storage (snd (removeBack i log)) = [] <-> forall k e, (k, e) ∈ _storage log -> i <= k)).
Proof.
  assert (H0 : lower_bound 0 (_storage log) = 0%nat).
  { destruct (_storage log) as [|[k v] m]; [reflexivity|].
    cbn [lower_bound]. destruct (N.ltb_spec k 0); [lia | reflexivity]. }
  split; [|split].
  - apply MockLogSetTrim.MockLog_eq. unfold removeFront, erase, begin. cbn [snd _storage]. now rewrite H0.
  - apply MockLogSetTrim.MockLog_eq. unfold removeBack, MockLog.drop, erase, end_, clear.
    cbn [snd _storage]. rewrite H0, skipn_all. reflexivity.
  - intros Hs. split.
    + split.
      * intros Heq k e Hin.
        assert (Hst : _storage (snd (removeFront i log)) = _storage log) by now rewrite Heq.
        rewrite removeFront_storage in Hst by exact Hs.
        apply filter_id_iff in Hst. rewrite Forall_forall in Hst. exact (Hst _ Hin).
      * intros Hall. apply MockLogSetTrim.MockLog_eq. rewrite removeFront_storage by exact Hs.
        apply filter_id_iff, Forall_forall. intros [k e] Hin. exact (Hall _ _ Hin).
    + rewrite removeBack_storage by exact Hs. rewrite filter_nil_iff, Forall_forall.
      split.
      * intros Hall k e Hin. specialize (Hall _ Hin). simpl in Hall. lia.
      * intros Hall [k e] Hin. specialize (Hall _ _ Hin). simpl. lia.
Qed.

Lemma trims_at_bounds_witness :
  sorted (_storage Samples.log1235) /\
  snd (removeFront 1 Samples.log1235) = Samples.log1235 /\
  _storage (snd (removeBack 1 Samples.log1235)) = [].
Proof.
  assert (Hs : sorted (_storage Samples.log1235)) by (apply sortedb_spec; reflexivity).
  assert (Hall : forall k e, (k, e) ∈ _storage Samples.log1235 -> 1 <= k).
  { intros k e Hin. vm_compute in Hin.
    repeat (apply elem_of_cons in Hin as [Hin|Hin]; [inversion Hin; lia|]).
    inversion Hin. }
  destruct (trims_at_bounds Samples.log1235 1) as (_ & _ & H).
  destruct (H Hs) as [Hf Hb].
  split; [exact Hs|]. split; [exact (proj2 Hf Hall) | exact (proj2 Hb Hall)].
Defined.

(** X11. Reading a trimmed log: after [removeFront(i)], [read(start)]
    yields what [read(max(start, i))] yielded before the trim; after
    [removeBack(i)] it yields the entries with index at least [start] and
    less than [i], so nothing when [i <= start]. *)
Theorem read_after_trim (log : MockLog) (start i : LogIndex) :
  sorted (_storage log) ->
  drain (read start (snd (removeFront i log))) = drain (read (N.max start i) log) /\
  drain (read start (snd (removeBack i log))) =
    map snd (filter (fun kv => start <= fst kv /\ fst kv < i) (_storage log)) /\
  (i <= start -> drain (read start (snd (removeBack i log))) = []).
Proof.
  intros Hs.
  assert (Hb : drain (read start (snd (removeBack i log))) =
               map snd (filter (fun kv => start <= fst kv /\ fst kv < i) (_storage log))).
  { rewrite drain_read by now apply removeBack_sorted.
    rewrite removeBack_storage by exact Hs. now rewrite list_filter_filter. }
  split; [|split].
  - rewrite drain_read by now apply removeFront_sorted.
    rewrite removeFront_storage, drain_read by exact Hs.
    rewrite list_filter_filter. f_equal. apply list_filter_iff. intros x. lia.
  - exact Hb.
  - intros Hle. rewrite Hb.
    replace (filter _ (_storage log)) with (@nil (N * LogEntry)); [reflexivity|].
    symmetry. apply filter_nil_iff, Forall_forall. intros x _. lia.
Qed.

Lemma read_after_trim_witness :
  drain (read 1 (snd (removeFront 3 Samples.log1235))) = drain (read (N.max 1 3) Samples.log1235).
Proof.
  apply (read_after_trim Samples.log1235 1 3).
  apply sortedb_spec. reflexivity.
Defined.

Lemma next_head it : it_wf it -> fst (next it) = head (drain it).
Proof.
  intros Hwf. rewrite drain_wf by exact Hwf. destruct Hwf as [He Hc]. unfold next.
  destruct (Nat.eqb_spec (_current it) (_end it)) as [Heq|Hne].
  - rewrite Heq, He, skipn_all. reflexivity.
  - assert (Hlt : (_current it < length (_store it))%nat) by lia.
    destruct (lookup_lt_is_Some_2 _ _ Hlt) as [kv Hkv]. rewrite Hkv.
    now rewrite (drop_S _ _ _ Hkv).
Qed.

(** X12. The protocol of the iterator: the [n]-th call of [next()] on the
    iterator of [read(start)] (counting from 0) returns the [n]-th stored
    entry with index at least [start], in ascending index order, and
    [nullopt] once these are used up, however often it is called again. *)
Theorem next_yields_in_order (log : MockLog) (start : LogIndex) (n : nat) :
  sorted (_storage log) ->
  fst (next (Nat.iter n (fun it => snd (next it)) (read start log))) =
    map snd (filter (fun kv => start <= fst kv) (_storage log)) !! n.
Proof.
  intros Hs.
  rewrite next_head by (apply iter_next_wf, ContainerIterator_new_wf).
  rewrite drain_iter_next by apply ContainerIterator_new_wf.
  rewrite drain_read by exact Hs.
  rewrite head_lookup, lookup_drop. f_equal. lia.
Qed.

Lemma next_yields_in_order_witness :
  fst (next (Nat.iter 1 (fun it => snd (next it)) (read 2 Samples.log1235))) =
    Some (Samples.entry 1 3) /\
  fst (next (Nat.iter 7 (fun it => snd (next it)) (read 2 Samples.log1235))) = None.
Proof.
  assert (Hs : sorted (_storage Samples.log1235)) by (apply sortedb_spec; reflexivity).
  split.
  - exact (next_yields_in_order Samples.log1235 2 1 Hs).
  - exact (next_yields_in_order Samples.log1235 2 7 Hs).
Defined.

End MockLogRead.

(** ** Iterators and later writes to the log *)
Module MockLogSnapshot.
Import StdMap StdMapFacts MockLog MockLogFacts MockLogInsertFacts.

Lemma drain_at_end it : drain (at_end it) = [].
Proof.
  assert (Hn : next (at_end it) = (None, at_end it)).
  { unfold next, at_end. cbn [_current _end]. now rewrite Nat.eqb_refl. }
  unfold drain. cbn [drain_fuel]. now rewrite Hn.
Qed.

(** X13. What an iterator handed out by [read] yields is not changed by
    [drop()], by [setEntry()] or by an [insert()] that consumes another
    iterator; the iterator [insert()] consumes is left with nothing to
    yield. *)
Theorem iterator_survives_writes (st : Store) (h : nat) (entry : LogEntry) :
  st_yields h (snd (st_drop st)) = st_yields h st /\
  st_yields h (st_setEntry entry st) = st_yields h st /\
  (forall h', h' <> h -> st_yields h (snd (st_insert h' st)) = st_yields h st) /\
  (forall it, handedOut st !! h = Some it -> it_wf it ->
     st_yields h (snd (st_insert h st)) = Some []).
Proof.
  split; [reflexivity|]. split; [reflexivity|]. split.
  - intros h' Hne. unfold st_insert, st_yields.
    destruct (handedOut st !! h') as [it'|]; [|reflexivity].
    cbn [snd handedOut]. now rewrite list_lookup_insert_ne.
  - intros it Hit Hwf. unfold st_insert, st_yields. rewrite Hit.
    cbn [snd handedOut].
    rewrite list_lookup_insert_eq by (eapply lookup_lt_Some; exact Hit).
    rewrite insert_unfold by exact Hwf. cbn [fst snd fmap option_fmap option_map].
    f_equal. apply drain_at_end.
Qed.

Lemma iterator_survives_writes_witness :
  let st := snd (st_read 3 (snd (st_read 1 {| theLog := Samples.log1235; handedOut := [] |}))) in
  st_yields 0 (snd (st_insert 1 st)) = st_yields 0 st /\
  st_yields 1 (snd (st_insert 1 st)) = Some [].
Proof.
  intros st.
  destruct (iterator_survives_writes st 0 (Samples.entry 1 1)) as (_ & _ & Hother & _).
  destruct (iterator_survives_writes st 1 (Samples.entry 1 1)) as (_ & _ & _ & Hself).
  split.
  - apply (Hother 1%nat). discriminate.
  - apply (Hself (read 3 Samples.log1235)); [reflexivity | apply ContainerIterator_new_wf].
Defined.

Lemma drain_read_taken log start :
  sorted (_storage log) -> keyed (_storage log) ->
  Forall (fun e => ~ vacant (logIndex e) (_storage log)) (drain (read start log)).
Proof.
  intros Hs Hk. rewrite drain_read by exact Hs. apply Forall_forall. intros e He.
  apply list_elem_of_In, in_map_iff in He as [[k e'] [Heq Hin]]. cbn [snd] in Heq. subst e'.
  apply list_elem_of_In, list_elem_of_filter in Hin as [_ Hin].
  unfold keyed in Hk. rewrite Forall_forall in Hk. specialize (Hk _ Hin). cbn [fst snd] in Hk.
  intros Hv. apply (Hv e). now rewrite Hk.
Qed.

(** X14. For a log whose entries are filed under their own indexes (as
    [setEntry] and [insert] file them; the constructor taking a
    [storeType] accepts other maps, for which this does not hold):
    inserting the log's own entries back into it changes nothing. [insert]
    of the iterator of [read(start)] into the log it was read from leaves
    the storage as it is, and the assertions of the loop fail unless the
    iterator has nothing to yield, that is unless every stored index lies
    below [start]. *)
Theorem insert_own_entries (log : MockLog) (start : LogIndex) :
  sorted (_storage log) -> keyed (_storage log) ->
  let '(_, log', _, asserts) := insert (read start log) log in
  log' = log /\
  (asserts = true <-> forall k e, (k, e) ∈ _storage log -> k < start).
Proof.
  intros Hs Hk. rewrite insert_unfold by apply ContainerIterator_new_wf.
  pose proof (drain_read_taken log start Hs Hk) as Htaken.
  split.
  - apply MockLogSetTrim.MockLog_eq. cbn [_storage]. now apply emplace_all_taken.
  - rewrite fold_insert_step_asserts by exact Hs.
    assert (Hnil : drain (read start log) = [] <->
                   forall k e, (k, e) ∈ _storage log -> k < start).
    { rewrite drain_read by exact Hs. split.
      - intros Hd k e Hin. apply map_eq_nil in Hd.
        apply MockLogRead.filter_nil_iff in Hd. rewrite Forall_forall in Hd.
        specialize (Hd _ Hin). simpl in Hd. lia.
      - intros Hall. replace (filter _ (_storage log)) with (@nil (N * LogEntry));
          [reflexivity|].
        symmetry. apply MockLogRead.filter_nil_iff, Forall_forall.
        intros [k e] Hin. specialize (Hall _ _ Hin). simpl. lia. }
    rewrite <- Hnil. split.
    + intros (_ & Hv & _). destruct (drain (read start log)) as [|e es]; [reflexivity|].
      exfalso. apply Forall_cons in Hv as [Hv _]. apply Forall_cons in Htaken as [Ht _].
      exact (Ht Hv).
    + intros ->. repeat split; repeat constructor.
Qed.

Lemma insert_own_entries_witness :
  let '(_, log', _, asserts) := insert (read 2 Samples.log1235) Samples.log1235 in
  log' = Samples.log1235 /\
  (asserts = true <-> forall k e, (k, e) ∈ _storage Samples.log1235 -> k < 2).
Proof.
  assert (Hs : sorted (_storage Samples.log1235)) by (apply sortedb_spec; reflexivity).
  assert (Hk : keyed (_storage Samples.log1235)) by (repeat constructor).
  exact (insert_own_entries Samples.log1235 2 Hs Hk).
Defined.

End MockLogSnapshot.

(** ** The stream operators: what is printed tells the value *)
Module PrintingFacts.
Import Printing.
Local Open Scope string_scope.

Lemma append_cons (x : ascii) (a b : string) : String x a ++ b = String x (a ++ b).
Proof. reflexivity. Qed.

Lemma append_nil_l (b : string) : EmptyString ++ b = b.
Proof. reflexivity. Qed.

(** appending to a text that is spelled out *)
Ltac push_append := rewrite ?append_cons, ?append_nil_l.
Ltac push_append_in H := rewrite ?append_cons, ?append_nil_l in H.

Lemma append_assoc (a b c : string) : (a ++ b) ++ c = a ++ (b ++ c).
Proof. induction a as [|x a IH]; push_append; [reflexivity | now rewrite IH]. Qed.

Lemma append_inv_head (a b c : string) : a ++ b = a ++ c -> b = c.
Proof.
  induction a as [|x a IH]; push_append; [trivial|]. intros [= Heq]. now apply IH.
Qed.

Lemma append_last_inv (a b : string) (c : ascii) :
  a ++ String c EmptyString = b ++ String c EmptyString -> a = b.
Proof.
  revert b. induction a as [|x a IH]; intros [|y b]; push_append; intros Heq.
  - reflexivity.
  - injection Heq as _ Heq. destruct b; discriminate Heq.
  - injection Heq as _ Heq. destruct a; discriminate Heq.
  - injection Heq as -> Heq. f_equal. now apply IH.
Qed.

Lemma pretty_N_char_digit x : is_digit (pretty_N_char x) = true.
Proof.
  unfold pretty_N_char. destruct x as [|p]; [reflexivity|].
  do 4 (try destruct p as [p|p|]); reflexivity.
Qed.

Lemma pretty_N_go_digits x s : all_digits s = true -> all_digits (pretty_N_go x s) = true.
Proof.
  revert s. induction (N.lt_wf_0 x) as [x _ IH]; intros s Hs.
  destruct (N.eq_dec x 0) as [->|Hx]; [now rewrite pretty_N_go_0|].
  rewrite pretty_N_go_step by lia. apply IH.
  - apply N.div_lt; lia.
  - cbn. now rewrite pretty_N_char_digit, Hs.
Qed.

(** A number prints as decimal digits only. *)
Lemma pretty_digits (n : N) : all_digits (pretty n) = true.
Proof.
  unfold pretty, pretty_N. destruct (decide (n = 0)%N); [reflexivity|].
  now apply pretty_N_go_digits.
Qed.

(** Two runs of digits, each followed by a character that is no digit,
    are told apart by that character. *)
Lemma digits_then (a b : string) (c d : ascii) (r r' : string) :
  all_digits a = true -> all_digits b = true ->
  is_digit c = false -> is_digit d = false ->
  a ++ String c r = b ++ String d r' -> a = b /\ c = d /\ r = r'.
Proof.
  revert b. induction a as [|x a IH]; intros [|y b] Ha Hb Hc Hd; push_append; intros Heq.
  - injection Heq as -> ->. now repeat split.
  - injection Heq as -> _. cbn in Hb. apply andb_true_iff in Hb as [Hy _]. congruence.
  - injection Heq as -> _. cbn in Ha. apply andb_true_iff in Ha as [Hx _]. congruence.
  - injection Heq as -> Heq. cbn in Ha, Hb.
    apply andb_true_iff in Ha as [_ Ha]. apply andb_true_iff in Hb as [_ Hb].
    destruct (IH b Ha Hb Hc Hd Heq) as (-> & -> & ->). now repeat split.
Qed.

End PrintingFacts.

Module PrintingProps.
Import Printing PrintingFacts.
Local Open Scope string_scope.

(** X23. The two stream operators only append to the stream, and what
    they append tells the value: two log indexes that print alike are
    equal, and two log entries that print alike have the same term, index
    and payload, whatever the payload text contains. *)
Theorem print_tells_value (ostream : string) :
  (forall i, print_LogIndex ostream i = ostream ++ print_LogIndex EmptyString i) /\
  (forall e, print_LogEntry ostream e = ostream ++ print_LogEntry EmptyString e) /\
  (forall i j : LogIndex, print_LogIndex ostream i = print_LogIndex ostream j -> i = j) /\
  (forall e e' : LogEntry, print_LogEntry ostream e = print_LogEntry ostream e' -> e = e').
Proof.
  assert (Hidx : forall i, print_LogIndex ostream i = ostream ++ print_LogIndex EmptyString i).
  { intros i. unfold print_LogIndex. cbv zeta. rewrite !append_assoc. now push_append. }
  assert (Hent : forall e, print_LogEntry ostream e = ostream ++ print_LogEntry EmptyString e).
  { intros e. unfold print_LogEntry, print_LogIndex. cbv zeta.
    rewrite !append_assoc. now push_append. }
  split; [exact Hidx|]. split; [exact Hent|]. split.
  - intros i j Heq. rewrite (Hidx i), (Hidx j) in Heq. apply append_inv_head in Heq.
    unfold print_LogIndex in Heq. cbv zeta in Heq.
    rewrite !append_assoc in Heq. push_append_in Heq.
    apply (append_inv_head "LogIndex{") in Heq.
    apply (digits_then _ _ "}"%char "}"%char) in Heq as (Heq & _);
      try apply pretty_digits; try reflexivity.
    now apply (inj pretty).
  - intros [t i [d]] [t' i' [d']] Heq.
    rewrite (Hent (mkLogEntry t i _)), (Hent (mkLogEntry t' i' _)) in Heq.
    apply append_inv_head in Heq.
    unfold print_LogEntry, print_LogIndex in Heq.
    cbn [logTerm logIndex logPayload dummy] in Heq. cbv zeta in Heq.
    rewrite !append_assoc in Heq. push_append_in Heq.
    apply (append_inv_head "LogEntry{") in Heq.
    apply (digits_then _ _ ","%char ","%char) in Heq as (Ht & _ & Heq);
      try apply pretty_digits; try reflexivity.
    apply (append_inv_head " LogIndex{") in Heq.
    apply (digits_then _ _ "}"%char "}"%char) in Heq as (Hi & _ & Heq);
      try apply pretty_digits; try reflexivity.
    apply (append_inv_head ", ") in Heq.
    apply append_last_inv in Heq.
    apply (inj pretty) in Ht. apply (inj pretty) in Hi. now subst.
Qed.

Lemma print_tells_value_witness :
  print_LogEntry "stored " (Samples.entry 1 2) =
    "stored " ++ print_LogEntry EmptyString (Samples.entry 1 2) /\
  print_LogEntry EmptyString (Samples.entry 1 2) = "LogEntry{1, LogIndex{2}, {}}".
Proof.
  split; [|reflexivity].
  exact (proj1 (proj2 (print_tells_value "stored ")) (Samples.entry 1 2)).
Defined.

End PrintingProps.

(** ** Entries are filed under their own index *)
Module MockLogKeyed.
Import StdMap StdMapFacts MockLog MockLogFacts MockLogInsertFacts.

Lemma keyed_try_emplace (e : LogEntry) s :
  keyed s -> keyed (fst (try_emplace (logIndex e) e s)).
Proof.
  unfold keyed. rewrite !Forall_forall. intros Hk x Hx.
  apply elem_of_try_emplace in Hx as [Hx|[-> _]]; [now apply Hk | reflexivity].
Qed.

Lemma keyed_emplace_all es s : keyed s -> keyed (emplace_all es s).
Proof.
  revert s. induction es as [|e es IH]; intros s Hk; [exact Hk|].
  rewrite emplace_all_cons. apply IH, keyed_try_emplace, Hk.
Qed.

Lemma keyed_erase first last s : keyed s -> keyed (erase first last s).
Proof.
  unfold keyed, erase. intros Hk. apply Forall_app. split.
  - now apply Forall_take.
  - now apply Forall_drop.
Qed.

(** X25. Every operation of [MockLog] keeps each entry filed under its own
    index: if the map's keys are the [logIndex()] of the entries they hold,
    they still are after [setEntry], [insert], [removeFront], [removeBack]
    and [drop]. On such a log [read(start)] yields entries whose own indexes
    are at least [start] and strictly ascending. *)
Theorem keyed_is_kept (log : MockLog) :
  keyed (_storage log) ->
  (forall entry, keyed (_storage (setEntry entry log))) /\
  (forall idx term payload, keyed (_storage (setEntry_at idx term payload log))) /\
  (forall i, keyed (_storage (snd (removeFront i log))) /\
             keyed (_storage (snd (removeBack i log)))) /\
  keyed (_storage (snd (MockLog.drop log))) /\
  (forall iter, it_wf iter ->
     let '(_, log', _, _) := insert iter log in keyed (_storage log')) /\
  (sorted (_storage log) ->
   forall start,
     Forall (fun e => start <= logIndex e) (drain (read start log)) /\
     StronglySorted N.lt (map logIndex (drain (read start log)))).
Proof.
  intros Hk. split; [|split; [|split; [|split; [|split]]]].
  - intros entry. now apply keyed_try_emplace.
  - intros idx term payload.
    exact (keyed_try_emplace (mkLogEntry term idx payload) _ Hk).
  - intros i. split; now apply keyed_erase.
  - constructor.
  - intros iter Hwf. rewrite insert_unfold by exact Hwf. cbn [_storage].
    now apply keyed_emplace_all.
  - intros Hs start. rewrite drain_read by exact Hs.
    assert (Hkf : keyed (filter (fun kv => start <= fst kv) (_storage log))).
    { unfold keyed in *. rewrite Forall_forall in Hk. apply Forall_forall.
      intros x Hx. apply list_elem_of_filter in Hx as [_ Hx]. now apply Hk. }
    assert (Hsf : sorted (filter (fun kv => start <= fst kv) (_storage log)))
      by now apply sorted_filter.
    split.
    + apply Forall_forall. intros e He.
      apply list_elem_of_In, in_map_iff in He as [[k e'] [Heq Hin]]. cbn [snd] in Heq.
      subst e'. unfold keyed in Hkf. rewrite Forall_forall in Hkf.
      apply list_elem_of_In in Hin. pose proof (Hkf _ Hin) as Hke. cbn [fst snd] in Hke.
      apply list_elem_of_filter in Hin as [Hge _]. cbn [fst] in Hge. lia.
    + rewrite map_map.
      revert Hkf Hsf. generalize (filter (fun kv => start <= fst kv) (_storage log)).
      intros m Hkm Hsm. unfold sorted in Hsm.
      induction Hsm as [|[k e] m Hsm IH Hall]; [constructor|].
      apply Forall_cons in Hkm as [Hke Hkm]. cbn [fst snd] in Hke.
      cbn [map snd]. constructor; [now apply IH|].
      apply List.Forall_map. unfold keyed in Hkm.
      rewrite Forall_forall in Hall, Hkm. apply Forall_forall. intros [k' e'] Hin.
      specialize (Hall _ Hin). specialize (Hkm _ Hin). cbn [fst snd] in *. lia.
Qed.

Lemma keyed_is_kept_witness :
  keyed (_storage Samples.log1235) /\
  map logIndex (drain (read 2 Samples.log1235)) = [2; 3; 5] /\
  StronglySorted N.lt (map logIndex (drain (read 2 Samples.log1235))).
Proof.
  assert (Hk : keyed (_storage Samples.log1235)) by (repeat constructor).
  assert (Hs : sorted (_storage Samples.log1235)) by (apply sortedb_spec; reflexivity).
  destruct (keyed_is_kept Samples.log1235 Hk) as (_ & _ & _ & _ & _ & Hread).
  split; [exact Hk|]. split; [reflexivity|]. exact (proj2 (Hread Hs 2)).
Defined.

End MockLogKeyed.

(** ** [FakeLogFollower::appendEntries] and transport failures *)
Module FakeLogFollowerClaims.
Import Futures FakeLogFollower.

Section Claims.
Variables AppendEntriesRequest VPackBuffer VPackSlice Response : Type.
Variable toVelocyPack : AppendEntriesRequest -> VPackBuffer.
Variable Response_fail : Response -> bool.
Variable Response_slice : Response -> VPackSlice.
Variable Slice_get : VPackSlice -> string -> Outcome VPackSlice.
Variable Slice_isFalse : VPackSlice -> bool.
Variable Slice_toJson : VPackSlice -> Outcome string.
Variable fromVelocyPack : VPackSlice -> Outcome AppendEntriesResult.t.
Variable sendRequest :
  N -> string -> RestVerb -> string -> VPackBuffer -> RequestOptions.t -> Future Response.
Variable maintainerMode : bool.

Local Abbreviation sent := (appendEntries_sent _ _ _ toVelocyPack sendRequest).
Local Abbreviation call :=
  (appendEntries _ _ _ _ toVelocyPack Response_fail Response_slice Slice_get
     Slice_isFalse Slice_toJson fromVelocyPack sendRequest maintainerMode).
Local Abbreviation continuation :=
  (appendEntries_continuation _ _ Response_fail Response_slice Slice_get
     Slice_isFalse Slice_toJson fromVelocyPack maintainerMode).

(** The continuation never throws on a failed response. *)
Lemma continuation_on_failure this result :
  Response_fail result = true ->
  continuation this result
  = Returns {| AppendEntriesResult.success := false; AppendEntriesResult.logTerm := 0 |}.
Proof. intros H. unfold appendEntries_continuation. now rewrite H. Qed.

(** What the continuation throws stays inside the returned future. *)
Lemma appendEntries_captures this request response what :
  sent this request = HasValue response ->
  continuation this response = Throws what ->
  call this request = HasException what.
Proof. intros Hsent Hc. unfold appendEntries. now rewrite Hsent; simpl; rewrite Hc. Qed.

(** A reply that parses completes the future with the follower's answer. *)
Lemma appendEntries_reply this request response r :
  sent this request = HasValue response ->
  continuation this response = Returns r ->
  call this request = HasValue r.
Proof. intros Hsent Hc. unfold appendEntries. now rewrite Hsent; simpl; rewrite Hc. Qed.

(** C8. A transport failure of the request sent by [appendEntries] reaches
    the leader through the returned future and in no other way: when the
    network reports a response with [fail()] set, the returned future is
    completed with the error value [AppendEntriesResult{false, LogTerm(0)}];
    when the network future itself holds an exception, the returned future
    holds that exception. The call always hands back a future. *)
Theorem appendEntries_transport_failure
    (this : FakeLogFollower) (request : AppendEntriesRequest) :
  (forall response,
     sent this request = HasValue response -> Response_fail response = true ->
     call this request =
       HasValue {| AppendEntriesResult.success := false;
                   AppendEntriesResult.logTerm := 0 |}) /\
  (forall what,
     sent this request = HasException what -> call this request = HasException what).
Proof.
  split.
  - intros response Hsent Hfail.
    apply (appendEntries_reply this request response); [exact Hsent|].
    now apply continuation_on_failure.
  - intros what Hsent. unfold appendEntries. now rewrite Hsent.
Qed.

End Claims.

Lemma appendEntries_transport_failure_witness :
  let this := {| pool := 0; id := "F1"; database := "_system"; logId := 12 |} in
  let request := [Samples.entry 1 1] in
  appendEntries (list LogEntry) unit unit bool (fun _ => tt) (fun r => r) (fun _ => tt)
    (fun s _ => Returns s) (fun _ => false) (fun _ => Returns "{}") (fun _ => Throws "malformed")
    (fun _ _ _ _ _ _ => HasValue true) true this request
  = HasValue {| AppendEntriesResult.success := false; AppendEntriesResult.logTerm := 0 |}.
Proof.
  intros this request.
  exact (proj1 (appendEntries_transport_failure (list LogEntry) unit unit bool
           (fun _ => tt) (fun r => r)
           (fun _ => tt) (fun s _ => Returns s) (fun _ => false) (fun _ => Returns "{}")
           (fun _ => Throws "malformed")
           (fun _ _ _ _ _ _ => HasValue true) true this request)
         true eq_refl eq_refl).
Defined.

End FakeLogFollowerClaims.

(** ** [FakeLogFollower::appendEntries]: where each outcome comes from *)
Module FakeLogFollowerProps.
Import Futures FakeLogFollower.

Section Props.
Variables AppendEntriesRequest VPackBuffer VPackSlice Response : Type.
Variable toVelocyPack : AppendEntriesRequest -> VPackBuffer.
Variable Response_fail : Response -> bool.
Variable Response_slice : Response -> VPackSlice.
Variable Slice_get : VPackSlice -> string -> Outcome VPackSlice.
Variable Slice_isFalse : VPackSlice -> bool.
Variable Slice_toJson : VPackSlice -> Outcome string.
Variable fromVelocyPack : VPackSlice -> Outcome AppendEntriesResult.t.
Variable sendRequest :
  N -> string -> RestVerb -> string -> VPackBuffer -> RequestOptions.t -> Future Response.
Variable maintainerMode : bool.

Local Abbreviation sent := (appendEntries_sent _ _ _ toVelocyPack sendRequest).
Local Abbreviation call :=
  (appendEntries _ _ _ _ toVelocyPack Response_fail Response_slice Slice_get
     Slice_isFalse Slice_toJson fromVelocyPack sendRequest maintainerMode).

(** the steps of the continuation on a response: each is a library call
    that returns, throws or ends the process *)
Ltac decode_cases response :=
  destruct (Slice_get (Response_slice response) "result") as [answer| |] eqn:?;
  cbn [thenValue andThen];
  [ destruct (fromVelocyPack answer) eqn:?; cbn [thenValue andThen] | | ].

Ltac reply_cases response :=
  unfold appendEntries_continuation;
  destruct (Response_fail response) eqn:?; cbn [thenValue andThen];
  [ | destruct (Slice_toJson (Response_slice response)) eqn:?; cbn [thenValue andThen];
      [ destruct maintainerMode eqn:?; cbn [thenValue andThen];
        [ destruct (Slice_get (Response_slice response) "error") as [error| |] eqn:?;
          cbn [thenValue andThen];
          [ destruct (Slice_isFalse error) eqn:?; cbn [thenValue andThen];
            [ decode_cases response | ]
          | | ]
        | decode_cases response ]
      | | ] ].

(** from what the future holds to what is said of the steps *)
Ltac to_cases :=
  solve [ repeat match goal with
                 | |- _ /\ _ => split
                 | |- ex _ => eexists
                 | |- _ = _ => first [reflexivity | eassumption]
                 | |- _ \/ _ => first [left; to_cases | right; to_cases]
                 end ].

(** from what is said of the steps to what the future holds *)
Ltac from_cases :=
  intros;
  repeat match goal with
         | H : _ /\ _ |- _ => destruct H
         | H : _ \/ _ |- _ => destruct H
         | H : ex _ |- _ => destruct H
         end;
  simplify_eq; congruence.

(** X24. Where the outcome of [appendEntries] comes from, once the request
    is sent. The continuation works on a response in four steps: the check
    of [fail()], the dump of the reply for the log line ([toJson]), in a
    maintainer build the [TRI_ASSERT] on the reply's [error] attribute, and
    the decoding of its [result] attribute ([get], then
    [AppendEntriesResult::fromVelocyPack]).

    The returned future holds a value exactly when the network future held
    a response and either the response failed, which gives
    [AppendEntriesResult{false, LogTerm(0)}], or every step returned, which
    gives what [fromVelocyPack] decoded; so a result with [success] set is
    never made up locally. It holds an exception exactly when the network
    future held that exception, or the response did not fail and the first
    step that did not return threw it: [toJson], [get("error")] in a
    maintainer build, [get("result")] or [fromVelocyPack]. It stays pending
    exactly when the network future is pending, or the response did not fail
    and the first step that did not return ended the process, among them
    the assertion on an [error] attribute that is not [false]. In a build
    without assertions the [error] attribute is not read: what [get] does
    for that key changes nothing. *)
Theorem appendEntries_outcomes (this : FakeLogFollower) (request : AppendEntriesRequest) :
  let slice response := Response_slice response in
  (* the dump for the log line returned *)
  let dumped response := exists json, Slice_toJson (slice response) = Returns json in
  (* the assertion let the continuation pass *)
  let asserted response :=
    maintainerMode = false \/
    exists error, Slice_get (slice response) "error" = Returns error /\
                  Slice_isFalse error = true in
  (* how the steps behind the check of [fail()] end *)
  let ends response (o : Outcome AppendEntriesResult.t) :=
    match o with
    | Returns r =>
        dumped response /\ asserted response /\
        exists answer, Slice_get (slice response) "result" = Returns answer /\
                       fromVelocyPack answer = Returns r
    | Throws what =>
        Slice_toJson (slice response) = Throws what \/
        (dumped response /\ maintainerMode = true /\
         Slice_get (slice response) "error" = Throws what) \/
        (dumped response /\ asserted response /\
         (Slice_get (slice response) "result" = Throws what \/
          exists answer, Slice_get (slice response) "result" = Returns answer /\
                         fromVelocyPack answer = Throws what))
    | Aborts =>
        Slice_toJson (slice response) = Aborts \/
        (dumped response /\ maintainerMode = true /\
         (Slice_get (slice response) "error" = Aborts \/
          exists error, Slice_get (slice response) "error" = Returns error /\
                        Slice_isFalse error = false)) \/
        (dumped response /\ asserted response /\
         (Slice_get (slice response) "result" = Aborts \/
          exists answer, Slice_get (slice response) "result" = Returns answer /\
                         fromVelocyPack answer = Aborts))
    end in
  (forall r, call this request = HasValue r <->
     exists response, sent this request = HasValue response /\
       ((Response_fail response = true /\
         r = {| AppendEntriesResult.success := false; AppendEntriesResult.logTerm := 0 |}) \/
        (Response_fail response = false /\ ends response (Returns r)))) /\
  (forall what, call this request = HasException what <->
     sent this request = HasException what \/
     exists response, sent this request = HasValue response /\
       Response_fail response = false /\ ends response (Throws what)) /\
  (call this request = Pending <->
     sent this request = Pending \/
     exists response, sent this request = HasValue response /\
       Response_fail response = false /\ ends response Aborts) /\
  (forall r, call this request = HasValue r ->
     AppendEntriesResult.success r = true ->
     exists response answer, sent this request = HasValue response /\
       Response_fail response = false /\
       Slice_get (slice response) "result" = Returns answer /\
       fromVelocyPack answer = Returns r) /\
  (maintainerMode = false ->
   forall get_error get_error' : VPackSlice -> Outcome VPackSlice,
     appendEntries _ _ _ _ toVelocyPack Response_fail Response_slice
       (fun s key => if String.eqb key "error" then get_error s else Slice_get s key)
       Slice_isFalse Slice_toJson fromVelocyPack sendRequest maintainerMode this request =
     appendEntries _ _ _ _ toVelocyPack Response_fail Response_slice
       (fun s key => if String.eqb key "error" then get_error' s else Slice_get s key)
       Slice_isFalse Slice_toJson fromVelocyPack sendRequest maintainerMode this request).
Proof.
  intros slice dumped asserted ends.
  assert (Hvalue : forall r, call this request = HasValue r <->
     exists response, sent this request = HasValue response /\
       ((Response_fail response = true /\
         r = {| AppendEntriesResult.success := false; AppendEntriesResult.logTerm := 0 |}) \/
        (Response_fail response = false /\ ends response (Returns r)))).
  { intros r. subst slice dumped asserted ends. cbn beta iota.
    unfold appendEntries.
    destruct (sent this request) as [response|what|] eqn:Hsent; cbn [thenValue].
    2,3: split; [discriminate | intros (resp & Hd & _); discriminate Hd].
    split.
    - intros Hcall. exists response. split; [reflexivity|]. revert Hcall.
      reply_cases response; intros Hcall; try discriminate Hcall;
        try injection Hcall as <-; to_cases.
    - intros (resp & [= <-] & Hcase). revert Hcase.
      reply_cases response; from_cases. }
  split; [exact Hvalue|]. split; [|split; [|split]].
  - intros what. subst slice dumped asserted ends. cbn beta iota.
    unfold appendEntries.
    destruct (sent this request) as [response|what'|] eqn:Hsent; cbn [thenValue].
    + split.
      * intros Hcall. right. exists response. split; [reflexivity|]. revert Hcall.
        reply_cases response; intros Hcall; try discriminate Hcall;
          try injection Hcall as <-; to_cases.
      * intros [Hd|(resp & [= <-] & Hcase)]; [discriminate Hd|]. revert Hcase.
        reply_cases response; from_cases.
    + split; [intros [= ->]; now left|].
      intros [[= ->]|(resp & Hd & _)]; [reflexivity | discriminate Hd].
    + split; [discriminate|]. intros [Hd|(resp & Hd & _)]; discriminate Hd.
  - subst slice dumped asserted ends. cbn beta iota.
    unfold appendEntries.
    destruct (sent this request) as [response|what'|] eqn:Hsent; cbn [thenValue].
    + split.
      * intros Hcall. right. exists response. split; [reflexivity|]. revert Hcall.
        reply_cases response; intros Hcall; try discriminate Hcall; to_cases.
      * intros [Hd|(resp & [= <-] & Hcase)]; [discriminate Hd|]. revert Hcase.
        reply_cases response; from_cases.
    + split; [discriminate|]. intros [Hd|(resp & Hd & _)]; discriminate Hd.
    + split; [now left | reflexivity].
  - intros r Hr Hsucc.
    apply Hvalue in Hr as (response & Hsent & [[_ ->]|(Hf & _ & _ & answer & Hget & Hd)]).
    + discriminate Hsucc.
    + exists response, answer. now repeat split.
  - intros -> get_error get_error'. unfold appendEntries.
    destruct (sent this request) as [response|what'|]; cbn [thenValue]; reflexivity.
Qed.

End Props.

(** a reply from the follower's server that decodes to success in term 7 *)
Lemma appendEntries_outcomes_witness :
  let this := {| pool := 0; id := "F1"; database := "_system"; logId := 12 |} in
  let answer := {| AppendEntriesResult.success := true; AppendEntriesResult.logTerm := 7 |} in
  appendEntries (list LogEntry) unit unit bool
    (fun _ => tt) (fun r => r) (fun _ => tt) (fun s _ => Returns s) (fun _ => true)
    (fun _ => Returns "{}")
    (fun _ => Returns answer) (fun _ _ _ _ _ _ => HasValue false) true
    this [Samples.entry 1 1]
  = HasValue answer.
Proof.
  intros this answer.
  destruct (appendEntries_outcomes (list LogEntry) unit unit bool
              (fun _ => tt) (fun r => r) (fun _ => tt) (fun s _ => Returns s) (fun _ => true)
              (fun _ => Returns "{}")
              (fun _ => Returns answer) (fun _ _ _ _ _ _ => HasValue false) true
              this [Samples.entry 1 1]) as (Hvalue & _).
  apply (proj2 (Hvalue answer)). exists false. split; [reflexivity|].
  right. split; [reflexivity|]. split; [now exists "{}"|].
  split; [right; now exists tt|]. now exists tt.
Defined.

End FakeLogFollowerProps.

(** ** The revision tree: node algebra and order independence *)
Module RevisionTreeFacts.
Import RevisionTree TreeBatches.

Lemma W_pos : 0 < W.
Proof. reflexivity. Qed.

Lemma Node_eq (a b : Node) :
  nodeCount a = nodeCount b -> nodeHash a = nodeHash b -> a = b.
Proof. destruct a, b; simpl; congruence. Qed.

Section WithHashing.
Context `{Aggregation} `{Hashing}.

(** *** The algebra of changes to one node *)

Lemma combine_neutral_l x : combine neutral x = x.
Proof. rewrite combine_comm. apply combine_neutral. Qed.

Lemma combine_swap x y z : combine x (combine y z) = combine y (combine x z).
Proof. rewrite !combine_assoc. f_equal. apply combine_comm. Qed.

Lemma combine_cancel x y : combine (inverse x) (combine x y) = y.
Proof.
  rewrite combine_assoc, (combine_comm (inverse x)), combine_inverse.
  apply combine_neutral_l.
Qed.

Lemma Node_insert_act v n : Node_insert v n = act (1, v) n.
Proof. reflexivity. Qed.

Lemma Node_remove_act v n : Node_remove v n = act (W - 1, inverse v) n.
Proof. reflexivity. Qed.

Lemma act_act a b n : act a (act b n) = act (addDelta a b) n.
Proof.
  apply Node_eq; simpl.
  - rewrite N.Div0.add_mod_idemp_l, N.Div0.add_mod_idemp_r.
    f_equal. lia.
  - rewrite <- combine_assoc. f_equal. apply combine_comm.
Qed.

Lemma act_zero n : nodeCount n < W -> act noDelta n = n.
Proof.
  intros Hn. apply Node_eq; simpl.
  - rewrite N.add_0_r. now apply N.mod_small.
  - apply combine_neutral.
Qed.

Lemma act_count_lt dl n : nodeCount (act dl n) < W.
Proof. simpl. apply N.mod_lt. discriminate. Qed.

Lemma addDelta_swap a b c : addDelta a (addDelta b c) = addDelta b (addDelta a c).
Proof.
  unfold addDelta; simpl. f_equal.
  - rewrite !N.Div0.add_mod_idemp_r. f_equal. lia.
  - apply combine_swap.
Qed.

(** insert then remove of one id cancels in the sum of changes *)
Lemma addDelta_cancel v c :
  fst c < W -> addDelta (W - 1, inverse v) (addDelta (1, v) c) = c.
Proof.
  intros Hc. destruct c as [dc dh]. unfold addDelta; simpl in *. f_equal.
  - rewrite N.Div0.add_mod_idemp_r.
    replace (W - 1 + (1 + dc)) with (dc + 1 * W) by (unfold W; lia).
    rewrite N.Div0.mod_add. now apply N.mod_small.
  - apply combine_cancel.
Qed.

(** *** Paths and nodes *)

Lemma maxDepth_modify f key t : maxDepth (modify f key t) = maxDepth t.
Proof. reflexivity. Qed.

Lemma position_modify f key t k d : position (modify f key t) k d = position t k d.
Proof. reflexivity. Qed.

Lemma lookup_modifyAt f t key ns a d p :
  default emptyNode (modifyAt f t key ns a !! (d, p)) =
    if decide (a = d /\ p = position t key d)
    then f (default emptyNode (ns !! (d, p)))
    else default emptyNode (ns !! (d, p)).
Proof.
  unfold modifyAt. destruct (decide (a = d /\ p = position t key d)) as [[-> ->]|Hno].
  - now rewrite lookup_insert_eq.
  - rewrite lookup_insert_ne; [reflexivity|].
    intros Heq. inversion Heq; subst. apply Hno; auto.
Qed.

Lemma lookup_foldl_modifyAt f t key ds ns d p :
  NoDup ds ->
  default emptyNode (foldl (modifyAt f t key) ns ds !! (d, p)) =
    if decide (d ∈ ds /\ p = position t key d)
    then f (default emptyNode (ns !! (d, p)))
    else default emptyNode (ns !! (d, p)).
Proof.
  revert ns. induction ds as [|a ds IH]; intros ns Hnd; cbn [foldl].
  - rewrite decide_False; [reflexivity|]. intros [Hin _]. inversion Hin.
  - apply NoDup_cons in Hnd as [Ha Hnd]. rewrite IH by exact Hnd.
    rewrite lookup_modifyAt.
    destruct (decide (d ∈ ds /\ p = position t key d)) as [[Hin Hp]|Hno];
      destruct (decide (a = d /\ p = position t key d)) as [[Had Hp']|Hno2];
      destruct (decide (d ∈ a :: ds /\ p = position t key d)) as [[Hin3 Hp3]|Hno3];
      try reflexivity; exfalso.
    + subst a. contradiction.
    + apply Hno3. split; [now right | assumption].
    + apply Hno3. split; [now right | assumption].
    + apply Hno3. split; [subst; now left | assumption].
    + apply elem_of_cons in Hin3 as [->|Hin3]; [apply Hno2 | apply Hno]; auto.
Qed.

(** A modification changes exactly the nodes on the id's path. *)
Lemma nodeAt_modify f key t d p :
  nodeAt (modify f key t) d p =
    if hitb t key d p then f (nodeAt t d p) else nodeAt t d p.
Proof.
  unfold nodeAt, modify. cbn [nodes].
  rewrite lookup_foldl_modifyAt by apply NoDup_seq.
  unfold hitb.
  destruct (decide (d ∈ seq 0 (S (maxDepth t)) /\ p = position t key d)) as [[Hin ->]|Hno].
  - apply elem_of_seq in Hin.
    replace (d <=? maxDepth t)%nat with true by (symmetry; apply Nat.leb_le; lia).
    now rewrite N.eqb_refl.
  - destruct (Nat.leb_spec d (maxDepth t)); simpl; [|reflexivity].
    destruct (N.eqb_spec p (position t key d)); [|reflexivity].
    exfalso. apply Hno. split; [apply elem_of_seq; lia | assumption].
Qed.

Lemma hitb_modify f key t k d p : hitb (modify f key t) k d p = hitb t k d p.
Proof. reflexivity. Qed.

Lemma maxDepth_applyKeyOps ops t : maxDepth (applyKeyOps ops t) = maxDepth t.
Proof.
  revert t. induction ops as [|op ops IH]; intros t; [reflexivity|].
  change (applyKeyOps (op :: ops) t) with (applyKeyOps ops (applyKeyOp op t)).
  rewrite IH. now destruct op.
Qed.

Lemma hitb_maxDepth t t' k d p : maxDepth t = maxDepth t' -> hitb t k d p = hitb t' k d p.
Proof. intros Hd. unfold hitb, position, bucket. now rewrite Hd. Qed.

Lemma deltaAt_maxDepth t t' ops d p :
  maxDepth t = maxDepth t' -> deltaAt t ops d p = deltaAt t' ops d p.
Proof.
  intros Hd. unfold deltaAt. induction ops as [|op ops IH]; [reflexivity|].
  simpl. rewrite IH. now rewrite (hitb_maxDepth t t').
Qed.

Lemma nodeAt_applyKeyOp op t d p :
  nodeAt (applyKeyOp op t) d p =
    if hitb t (opKey op) d p then act (keyDelta op) (nodeAt t d p) else nodeAt t d p.
Proof. destruct op; simpl; unfold insert_one, remove_one; now rewrite nodeAt_modify. Qed.

Lemma wf_applyKeyOp op t : wf t -> wf (applyKeyOp op t).
Proof.
  intros Hwf d p. rewrite nodeAt_applyKeyOp.
  destruct (hitb t (opKey op) d p); [apply act_count_lt | apply Hwf].
Qed.

Lemma deltaAt_fst_lt t ops d p : fst (deltaAt t ops d p) < W.
Proof.
  induction ops as [|op ops IH]; simpl; [reflexivity|].
  destruct (hitb t (opKey op) d p); [|exact IH].
  simpl. apply N.mod_lt. discriminate.
Qed.

Lemma deltaAt_app t ops1 ops2 d p :
  deltaAt t (ops1 ++ ops2) d p =
    foldr (fun op acc => if hitb t (opKey op) d p then addDelta (keyDelta op) acc else acc)
          (deltaAt t ops2 d p) ops1.
Proof. unfold deltaAt. now rewrite foldr_app. Qed.

(** The node after a sequence of ids is the node before, moved by the net
    change of the ids whose path passes through it. *)
Lemma nodeAt_applyKeyOps ops t d p :
  wf t ->
  nodeAt (applyKeyOps ops t) d p = act (deltaAt t ops d p) (nodeAt t d p).
Proof.
  revert t. induction ops as [|op ops IH]; intros t Hwf.
  - simpl. symmetry. apply act_zero, Hwf.
  - change (applyKeyOps (op :: ops) t) with (applyKeyOps ops (applyKeyOp op t)).
    rewrite IH by (apply wf_applyKeyOp, Hwf).
    rewrite nodeAt_applyKeyOp.
    rewrite (deltaAt_maxDepth (applyKeyOp op t) t) by (now destruct op).
    simpl. destruct (hitb t (opKey op) d p); [|reflexivity].
    rewrite act_act.
    f_equal. unfold addDelta. f_equal; [f_equal; lia | apply combine_comm].
Qed.

Lemma wf_applyKeyOps ops t : wf t -> wf (applyKeyOps ops t).
Proof.
  revert t. induction ops as [|op ops IH]; intros t Hwf; [exact Hwf|].
  apply IH, wf_applyKeyOp, Hwf.
Qed.

(** The net change does not depend on the order of the ids. *)
Lemma deltaAt_Permutation t ops ops' d p :
  Permutation ops ops' -> deltaAt t ops d p = deltaAt t ops' d p.
Proof.
  induction 1 as [|x l l' _ IH|x y l|l l' l'' _ IH1 _ IH2]; simpl.
  - reflexivity.
  - now rewrite IH.
  - destruct (hitb t (opKey x) d p), (hitb t (opKey y) d p); try reflexivity.
    apply addDelta_swap.
  - now rewrite IH1.
Qed.

Lemma wf_empty depth : wf (empty depth).
Proof. intros d p. unfold nodeAt, empty. simpl. rewrite lookup_empty. reflexivity. Qed.

Lemma insert_keyOps keys t : insert keys t = applyKeyOps (map KInsert keys) t.
Proof.
  revert t. induction keys as [|k keys IH]; intros t; [reflexivity|].
  change (insert (k :: keys) t) with (insert keys (insert_one k t)).
  now rewrite IH.
Qed.

Lemma remove_keyOps keys t : remove keys t = applyKeyOps (map KRemove keys) t.
Proof.
  revert t. induction keys as [|k keys IH]; intros t; [reflexivity|].
  change (remove (k :: keys) t) with (remove keys (remove_one k t)).
  now rewrite IH.
Qed.

Lemma applyKeyOps_app ops1 ops2 t :
  applyKeyOps (ops1 ++ ops2) t = applyKeyOps ops2 (applyKeyOps ops1 t).
Proof. unfold applyKeyOps. apply foldl_app. Qed.

Lemma applyBatches_keyOps bs t :
  applyBatches bs t = applyKeyOps (concat (map keysOf bs)) t.
Proof.
  revert t. induction bs as [|b bs IH]; intros t; [reflexivity|].
  change (applyBatches (b :: bs) t) with (applyBatches bs (applyBatch b t)).
  cbn [map concat]. rewrite applyKeyOps_app, IH.
  f_equal. destruct b; [apply insert_keyOps | apply remove_keyOps].
Qed.

(** The root lies on every path. *)
Lemma hitb_root t key : hitb t key 0 0 = true.
Proof.
  unfold hitb, position, bucket. rewrite Nat.sub_0_r.
  change (0 <=? maxDepth t)%nat with true. cbn [andb].
  apply N.eqb_eq. symmetry.
  destruct (N.eq_dec (fanout ^ N.of_nat (maxDepth t)) 0) as [Hz|Hnz].
  - rewrite Hz. now destruct (leafOf key mod 0).
  - apply N.div_small. apply N.mod_lt. exact Hnz.
Qed.

End WithHashing.
End RevisionTreeFacts.

(** ** Cancellation and order independence, through the accessor *)
Module RevisionTreeClaims.
Import RevisionTree TreeBatches RevisionTreeFacts.

Section WithParameters.
Context `{Aggregation} `{Hashing} `{RevisionTreeAccessor.Codec}.

Abbreviation tree a := (snd (RevisionTreeAccessor.ensureTree a)).

Lemma tree_new t c : tree (RevisionTreeAccessor.new t c) = t.
Proof. reflexivity. Qed.

Lemma tree_withTree f a : tree (RevisionTreeAccessor.withTree f a) = f (tree a).
Proof.
  unfold RevisionTreeAccessor.withTree, RevisionTreeAccessor.ensureTree.
  destruct (RevisionTreeAccessor._tree a); reflexivity.
Qed.

Lemma tree_applyBatches bs a :
  tree (AccessorBatches.applyBatches bs a) = applyBatches bs (tree a).
Proof.
  revert a. induction bs as [|b bs IH]; intros a; [reflexivity|].
  change (AccessorBatches.applyBatches (b :: bs) a)
    with (AccessorBatches.applyBatches bs (AccessorBatches.applyBatch b a)).
  rewrite IH. change (applyBatches (b :: bs) (tree a))
    with (applyBatches bs (applyBatch b (tree a))).
  f_equal. destruct b; apply tree_withTree.
Qed.

(** Two id sequences with the same net change at a node leave that node in
    the same state. *)
Lemma nodeAt_same_delta ops ops' t d p :
  wf t -> deltaAt t ops d p = deltaAt t ops' d p ->
  nodeAt (applyKeyOps ops t) d p = nodeAt (applyKeyOps ops' t) d p.
Proof. intros Hwf Hd. rewrite !nodeAt_applyKeyOps by exact Hwf. now rewrite Hd. Qed.

(** An insert of [r] and a later remove of [r] drop out of the net change,
    whatever is applied before, between and after them. *)
Lemma deltaAt_cancel t ops1 ops2 ops3 r d p :
  deltaAt t (ops1 ++ KInsert r :: ops2 ++ KRemove r :: ops3) d p =
  deltaAt t (ops1 ++ ops2 ++ ops3) d p.
Proof.
  rewrite (deltaAt_Permutation t _ (KRemove r :: KInsert r :: ops1 ++ ops2 ++ ops3)).
  - cbn [deltaAt foldr opKey keyDelta].
    destruct (hitb t r d p); [|reflexivity].
    apply addDelta_cancel, deltaAt_fst_lt.
  - etransitivity; [symmetry; apply Permutation_middle|].
    etransitivity; [|apply perm_swap].
    constructor. rewrite app_assoc.
    etransitivity; [symmetry; apply Permutation_middle|].
    now rewrite app_assoc.
Qed.

Lemma keysOf_concat_app bs1 bs2 :
  concat (map keysOf (bs1 ++ bs2)) = concat (map keysOf bs1) ++ concat (map keysOf bs2).
Proof. now rewrite map_app, concat_app. Qed.

Lemma keysOf_Permutation bs bs' :
  Permutation bs bs' -> Permutation (concat (map keysOf bs)) (concat (map keysOf bs')).
Proof.
  induction 1 as [|x l l' _ IH|x y l|l l' l'' _ IH1 _ IH2]; cbn [map concat].
  - reflexivity.
  - now apply Permutation_app_head.
  - rewrite !app_assoc. apply Permutation_app_tail, Permutation_app_comm.
  - now rewrite IH1.
Qed.

(** C3. On the accessor of the empty revision tree, [insert([r])] followed
    by [remove([r])] gives [count() = 0] and the root value of the empty
    tree; the same cancellation holds with any batches applied before,
    between and after the two calls, and the aggregate state after a list of
    batches does not depend on the order in which they are applied. *)
Theorem insert_remove_cancels (depth : nat) (compressible : bool) (r : N) :
  let a0 := RevisionTreeAccessor.new (empty depth) compressible in
  let cancelled := RevisionTreeAccessor.remove [r] (RevisionTreeAccessor.insert [r] a0) in
  (RevisionTreeAccessor.count cancelled = 0 /\
   RevisionTreeAccessor.rootValue cancelled = RevisionTreeAccessor.rootValue a0) /\
  (forall bs1 bs2 bs3 : list Batch,
     let interleaved :=
       AccessorBatches.applyBatches
         (bs1 ++ InsertBatch [r] :: bs2 ++ RemoveBatch [r] :: bs3) a0 in
     let without := AccessorBatches.applyBatches (bs1 ++ bs2 ++ bs3) a0 in
     RevisionTreeAccessor.count interleaved = RevisionTreeAccessor.count without /\
     RevisionTreeAccessor.rootValue interleaved = RevisionTreeAccessor.rootValue without) /\
  (forall bs bs' : list Batch,
     Permutation bs bs' ->
     RevisionTreeAccessor.count (AccessorBatches.applyBatches bs a0) =
       RevisionTreeAccessor.count (AccessorBatches.applyBatches bs' a0) /\
     RevisionTreeAccessor.rootValue (AccessorBatches.applyBatches bs a0) =
       RevisionTreeAccessor.rootValue (AccessorBatches.applyBatches bs' a0)).
Proof.
  intros a0 cancelled.
  assert (Hcancel : forall bs1 bs2 bs3 d p,
    nodeAt (tree (AccessorBatches.applyBatches
                    (bs1 ++ InsertBatch [r] :: bs2 ++ RemoveBatch [r] :: bs3) a0)) d p =
    nodeAt (tree (AccessorBatches.applyBatches (bs1 ++ bs2 ++ bs3) a0)) d p).
  { intros bs1 bs2 bs3 d p. rewrite !tree_applyBatches, !applyBatches_keyOps.
    apply nodeAt_same_delta; [apply wf_empty|].
    rewrite !keysOf_concat_app. cbn [map concat keysOf].
    rewrite !keysOf_concat_app. cbn [map concat keysOf app].
    apply deltaAt_cancel. }
  assert (Hperm : forall bs bs' d p, Permutation bs bs' ->
    nodeAt (tree (AccessorBatches.applyBatches bs a0)) d p =
    nodeAt (tree (AccessorBatches.applyBatches bs' a0)) d p).
  { intros bs bs' d p Hp. rewrite !tree_applyBatches, !applyBatches_keyOps.
    apply nodeAt_same_delta; [apply wf_empty|].
    apply deltaAt_Permutation, keysOf_Permutation, Hp. }
  split; [|split].
  - pose proof (Hcancel [] [] [] 0%nat 0) as Hc.
    unfold RevisionTreeAccessor.count, RevisionTreeAccessor.rootValue, count, rootValue.
    change (tree cancelled) with
      (tree (AccessorBatches.applyBatches
               ([] ++ InsertBatch [r] :: [] ++ RemoveBatch [r] :: []) a0)).
    rewrite Hc. split; reflexivity.
  - intros bs1 bs2 bs3 interleaved without.
    unfold RevisionTreeAccessor.count, RevisionTreeAccessor.rootValue, count, rootValue.
    subst interleaved without. now rewrite Hcancel.
  - intros bs bs' Hp.
    unfold RevisionTreeAccessor.count, RevisionTreeAccessor.rootValue, count, rootValue.
    now rewrite (Hperm bs bs' 0%nat 0 Hp).
Qed.

End WithParameters.

(** The cancellation on the sample instantiation: exclusive-or digests,
    eight children per node, depth 6, revision id 42. *)
Lemma insert_remove_cancels_witness :
  let a0 := RevisionTreeAccessor.new
              (RevisionTree.empty RevisionTreeAccessor.revisionTreeDepth) true in
  let cancelled :=
    @RevisionTreeAccessor.remove TreeSamples.aggregation TreeSamples.hashing
      TreeSamples.codec [42]
      (@RevisionTreeAccessor.insert TreeSamples.aggregation TreeSamples.hashing
         TreeSamples.codec [42] a0) in
  @RevisionTreeAccessor.count TreeSamples.aggregation TreeSamples.codec cancelled = 0 /\
  @RevisionTreeAccessor.rootValue TreeSamples.aggregation TreeSamples.codec cancelled =
    @RevisionTreeAccessor.rootValue TreeSamples.aggregation TreeSamples.codec a0.
Proof.
  exact (proj1 (@insert_remove_cancels TreeSamples.aggregation TreeSamples.hashing
                  TreeSamples.codec RevisionTreeAccessor.revisionTreeDepth true 42)).
Defined.

End RevisionTreeClaims.

(** ** Runs of the REST handler *)
Module HandlerRunFacts.
Import Futures FakeLogFollower RestLogHandler HandlerRuns.

Section Facts.
Context `{External}.

(** [every_run] speaks of exactly the runs. *)
Lemma every_run_sound {R} (p : Prog R) Q :
  every_run p Q -> forall t e, run p t e -> Q t e.
Proof.
  intros HQ t e Hrun. revert Q HQ.
  induction Hrun as [r|what| | |X c k x t e _ IH|X c k what]; intros Q HQ; cbn in HQ;
    try exact HQ.
  - destruct HQ as [HQ _]. exact (IH _ (HQ x)).
  - destruct HQ as [_ HQ]. exact (HQ what).
Qed.

Lemma every_run_complete {R} (p : Prog R) (Q : list Event -> Ending R -> Prop) :
  (forall t e, run p t e -> Q t e) -> every_run p Q.
Proof.
  revert Q. induction p as [r|what| | |X c k IH]; intros Q HQ; cbn.
  - apply HQ. constructor.
  - apply HQ. constructor.
  - apply HQ. constructor.
  - apply HQ. constructor.
  - split.
    + intros x. apply IH. intros t e Hrun. apply HQ. now constructor.
    + intros what. apply HQ. constructor.
Qed.

Lemma every_run_mono {R} (p : Prog R) (Q Q' : list Event -> Ending R -> Prop) :
  (forall t e, Q t e -> Q' t e) -> every_run p Q -> every_run p Q'.
Proof.
  intros HQ Hp. apply every_run_complete. intros t e Hrun.
  apply HQ. exact (every_run_sound p Q Hp t e Hrun).
Qed.

Lemma every_run_bind {A B} (p : Prog A) (f : A -> Prog B) Q :
  every_run p (then_run f Q) -> every_run (bind p f) Q.
Proof.
  revert Q. induction p as [r|what| | |X c k IH]; intros Q HQ; cbn in *; try exact HQ.
  destruct HQ as [Hret Hthrow]. split; [|exact Hthrow].
  intros x. apply IH. exact (Hret x).
Qed.

(** a run of [p] that returns, followed by a run of what comes next *)
Lemma run_bind {A B} (p : Prog A) (f : A -> Prog B) t1 a t2 e :
  run p t1 (Finished a) -> run (f a) t2 e -> run (bind p f) (t1 ++ t2) e.
Proof.
  intros Hp Hf. remember (Finished a) as ea eqn:Hea. revert Hea.
  induction Hp as [r|what| | |X c k x t e' _ IH|X c k what]; intros Hea;
    try discriminate Hea.
  - injection Hea as ->. exact Hf.
  - cbn. constructor. exact (IH Hea).
Qed.

Lemma last_cons_default {A} (a : A) l d d' : List.last (a :: l) d = List.last (a :: l) d'.
Proof. revert a. induction l as [|b l IH]; intros a; [reflexivity|]. exact (IH b). Qed.

Lemma last_cons_head {A} (a : A) l d : List.last (a :: l) d = List.last l a.
Proof.
  destruct l as [|b l]; [reflexivity|].
  change (List.last (b :: l) d = List.last (b :: l) a). apply last_cons_default.
Qed.

Lemma Forall_removelast {A} (P : A -> Prop) l : Forall P l -> Forall P (removelast l).
Proof.
  induction 1 as [|a l Ha Hl IH]; [constructor|].
  cbn [removelast]. destruct l; [constructor|]. now constructor.
Qed.

(** An [insert] call is no response. *)
Lemma inserted_quiet ev : inserted ev <> None -> responds ev = false.
Proof. destruct ev as [X c x|X c what]; destruct c; cbn; congruence. Qed.

(** [insert] calls neither respond nor attach a continuation. *)
Lemma inserts_silent t :
  Forall (fun ev => inserted ev <> None) t ->
  List.filter answers t = [] /\ List.filter attaches t = [] /\
  List.filter responds t = [].
Proof.
  induction 1 as [|ev t Hev _ (IH1 & IH2 & IH3)]; [now repeat split|].
  destruct ev as [X c x|X c what]; destruct c; cbn in *; try congruence;
    now repeat split.
Qed.

Lemma inserts_not_waited t :
  Forall (fun ev => inserted ev <> None) t -> omap waited_for t = [].
Proof.
  induction 1 as [|ev t Hev _ IH]; [reflexivity|].
  destruct ev as [X c x|X c what]; destruct c; cbn in *; try congruence; exact IH.
Qed.

(** The loop of [insertBabies] makes [insert] calls only; a run that
    returns has made one for each member, each with the member's JSON. *)
Lemma insertBabies_loop_runs log entries lastIndex :
  every_run (insertBabies_loop log entries lastIndex)
    (fun t e =>
       Forall (fun ev => inserted ev <> None) t /\
       e <> OutOfBounds /\
       (exists n, map (fun p => Returns (dummy p)) (omap inserted t) =
                  map Slice_toJson (take n entries)) /\
       (forall idx, e = Finished idx ->
          map (fun p => Returns (dummy p)) (omap inserted t) = map Slice_toJson entries /\
          idx = List.last (omap insert_returned t) lastIndex /\
          exists calls : list (string * LogIndex),
            map Slice_toJson entries = map (fun c => Returns (fst c)) calls /\
            t = map (fun c => Returned (LogLeader_insert log {| dummy := fst c |}) (snd c))
                  calls /\
            idx = List.last (map snd calls) lastIndex)).
Proof.
  revert lastIndex. induction entries as [|entry rest IH]; intros lastIndex.
  - cbn. split; [constructor|]. split; [discriminate|]. split; [now exists 0%nat|].
    intros idx [= <-]. split; [reflexivity|]. split; [reflexivity|]. now exists [].
  - cbn [insertBabies_loop]. destruct (Slice_toJson entry) as [json|what|] eqn:Hjson.
    + cbn. split.
      * intros idx. eapply every_run_mono; [|apply IH].
        cbn. intros t e (Hall & Hne & [n Hn] & Hfin).
        split; [constructor; [discriminate | exact Hall]|].
        split; [exact Hne|]. split.
        -- exists (S n). cbn. now rewrite Hjson, Hn.
        -- intros idx' Hidx'.
           destruct (Hfin idx' Hidx') as (Hall' & Hlast & calls & Hcalls & Ht & Hidx).
           split; [now rewrite Hjson, Hall'|]. split.
           ++ rewrite Hlast. destruct (omap insert_returned t) as [|i l]; [reflexivity|].
              apply last_cons_default.
           ++ exists ((json, idx) :: calls). cbn [map fst snd].
              split; [now rewrite Hjson, Hcalls|]. split; [now rewrite Ht|].
              now rewrite last_cons_head.
      * intros what. split; [repeat constructor; discriminate|].
        split; [discriminate|]. split; [|discriminate].
        exists 1%nat. cbn. now rewrite Hjson.
    + cbn. split; [constructor|]. split; [discriminate|]. split; [now exists 0%nat|].
      discriminate.
    + cbn. split; [constructor|]. split; [discriminate|]. split; [now exists 0%nat|].
      discriminate.
Qed.

(** Where each member's JSON can be made, the loop has the run in which
    every [insert] returns. *)
Lemma insertBabies_loop_returns log entries lastIndex (calls : list (string * LogIndex)) :
  map Slice_toJson entries = map (fun c => Returns (fst c)) calls ->
  run (insertBabies_loop log entries lastIndex)
    (map (fun c => Returned (LogLeader_insert log {| dummy := fst c |}) (snd c)) calls)
    (Finished (List.last (map snd calls) lastIndex)).
Proof.
  revert lastIndex calls. induction entries as [|entry rest IH]; intros lastIndex calls Hc.
  - destruct calls; [|discriminate Hc]. constructor.
  - destruct calls as [|[json idx] calls]; [discriminate Hc|].
    cbn [map fst snd] in *. injection Hc as Hjson Hrest.
    rewrite last_cons_head. cbn [insertBabies_loop]. rewrite Hjson.
    cbn [lift bind call]. constructor. now apply IH.
Qed.

(** The loop of [becomeLeader] makes no call; it builds one follower per
    member, in the order of the members. *)
Lemma becomeLeader_loop_runs this logId parts follower :
  every_run (becomeLeader_loop this logId parts follower)
    (fun t e =>
       t = [] /\ e <> OutOfBounds /\
       (forall fl, e = Finished fl ->
          exists added,
            fl = follower ++ added /\
            map (fun f => Returns (id f)) added = map Slice_copyString parts /\
            Forall (fun f => pool f = networkPool this /\
                             database f = vocbase_name this /\
                             FakeLogFollower.logId f = logId) added)).
Proof.
  revert follower. induction parts as [|part rest IH]; intros follower.
  - cbn. split; [reflexivity|]. split; [discriminate|].
    intros fl [= <-]. exists []. split; [now rewrite app_nil_r|]. split; constructor.
  - cbn [becomeLeader_loop]. destruct (Slice_copyString part) as [partId|what|] eqn:Hpart.
    + cbn. eapply every_run_mono; [|apply IH].
      cbn. intros t e (Ht & Hne & Hfin). split; [exact Ht|]. split; [exact Hne|].
      intros fl Hfl. destruct (Hfin fl Hfl) as (added & Hadd & Hids & Hall).
      exists (mkFakeLogFollower (networkPool this) partId (vocbase_name this) logId :: added).
      split; [now rewrite Hadd, <- app_assoc|]. split.
      * cbn. now rewrite Hpart, Hids.
      * constructor; [now repeat split | exact Hall].
    + cbn. split; [reflexivity|]. split; discriminate.
    + cbn. split; [reflexivity|]. split; discriminate.
Qed.

End Facts.
End HandlerRunFacts.

(** ** [RestLogHandler]: what every run of the handler does *)
Module RestLogHandlerProps.
Import Futures FakeLogFollower RestLogHandler HandlerRuns HandlerRunFacts.

(** one step through the tree of a handler function *)
Ltac after_loop :=
  let t := fresh "t" in
  let e := fresh "e" in
  let Hloop := fresh "Hloop" in
  cbn beta; intros t e Hloop; destruct e; cbn [then_run];
  [ | | | exfalso; now destruct Hloop as (_ & Hne & _) ].

Ltac run_step :=
  match goal with
  | |- _ /\ _ => split
  | |- forall _, _ => intro
  | |- every_run (bind (insertBabies_loop _ _ _) _) _ =>
      apply every_run_bind; eapply every_run_mono; [|apply insertBabies_loop_runs];
      after_loop
  | |- every_run (bind (becomeLeader_loop _ _ _ _) _) _ =>
      apply every_run_bind; eapply every_run_mono; [|apply becomeLeader_loop_runs];
      after_loop
  | |- every_run (if String.eqb ?a ?b then _ else _) _ =>
      let v := eval vm_compute in (String.eqb a b) in
      match v with
      | true => change (String.eqb a b) with true; cbv iota
      | false => change (String.eqb a b) with false; cbv iota
      end
  | |- every_run (bind (lift ?o) _) _ => destruct o eqn:?; cbn [lift bind]
  | |- every_run (bind (if ?b then _ else _) _) _ => destruct b eqn:?
  | |- every_run (if ?b then _ else _) _ => destruct b eqn:?
  | |- every_run (match ?x with _ => _ end) _ => destruct x eqn:?
  | |- every_run _ _ =>
      progress cbn [every_run bind call subscript lookup list_lookup fst snd]
  end.

(** what [parseVPackBody] reported, in the runs that go on behind it *)
Ltac parse_reported :=
  repeat match goal with
         | x : (bool * Slice)%type |- _ =>
             destruct x as [[|] ?]; cbn [fst snd negb] in *; try discriminate
         end.

(** a run spelled out call by call *)
Ltac responds_once_leaf :=
  parse_reported;
  split; [cbn; lia|];
  split; [cbn; repeat constructor|];
  let s := fresh "s" in
  let Hs := fresh "Hs" in
  intros s Hs;
  first
    [ discriminate Hs
    | injection Hs as <-; split; [reflexivity|];
      first
        [ left; eexists; split; [reflexivity|]; split; [reflexivity|];
          split; reflexivity
        | right; eexists _, _, _, _; split; [reflexivity|]; split; reflexivity ] ].

(** the same for a run through the loop of [insertBabies], whose [insert]
    calls are in [t] *)
Ltac filter_loop Hsilent :=
  cbn; rewrite ?List.filter_app, ?Hsilent; cbn.

Ltac responds_once_loop_leaf Hq Hanswers Hattaches Hresponds :=
  parse_reported;
  split; [filter_loop Hanswers; lia|];
  split;
    [ first
        [ rewrite !app_comm_cons; rewrite removelast_app by (intros ?; discriminate);
          apply Forall_app; split;
          [ repeat constructor; exact Hq | cbn; repeat constructor ]
        | apply Forall_removelast; repeat constructor; exact Hq ]
    | let s := fresh "s" in
      let Hs := fresh "Hs" in
      intros s Hs;
      first
        [ discriminate Hs
        | injection Hs as <-; split; [filter_loop Hanswers; reflexivity|];
          right; eexists _, _, _, _; split;
          [ rewrite !app_comm_cons, last_app; reflexivity
          | split; [filter_loop Hattaches | filter_loop Hresponds]; reflexivity ] ] ].

(** what [parseVPackBody] returned, from what a hypothesis says of the run *)
Ltac parsed_first :=
  match goal with
  | Hp : omap parsed _ = [_] |- _ =>
      apply (f_equal head) in Hp; cbn in Hp;
      first [ discriminate Hp | injection Hp as -> ];
      repeat match goal with
             | Hb : negb (fst _) = _ |- _ => cbn in Hb; try discriminate Hb; clear Hb
             end
  end.

(** the verb of the request is one of those excluded by a hypothesis *)
Ltac known_verb :=
  match goal with
  | Hs : _ = [_; _] |- _ => cbn in Hs; first [discriminate Hs | injection Hs as -> ->]
  end;
  match goal with
  | Hn : ~ In _ _, Hv : String.eqb _ _ = true |- _ =>
      apply String.eqb_eq in Hv; exfalso; apply Hn; rewrite Hv; cbn; tauto
  end.

(** a run spelled out call by call that touches nothing on the database *)
Ltac trace_leaf :=
  split;
  [ reflexivity
  | let s := fresh "s" in
    let Hs := fresh "Hs" in
    intros s Hs;
    first [ discriminate Hs
          | injection Hs as <-; split; [reflexivity|]; eexists; reflexivity ] ].

(** all runs of a handler function, down to what is claimed of each *)
Ltac all_runs := repeat run_step.

Section Props.
Context `{External}.

(** X15. The handler never subscripts [decodedSuffixes] past its end:
    whatever the request and whatever the calls return, no run of [execute]
    reads [suffixes[i]] with [i] not below [suffixes.size()]. *)
Theorem execute_subscripts_in_range (this : Handler) t e :
  run (execute this) t e -> e <> OutOfBounds.
Proof.
  intros Hrun. revert t e Hrun. apply every_run_sound.
  set (Q := fun (_ : list Event) (e : Ending RestStatus) => e <> OutOfBounds).
  destruct this as [rt suffixes name pool sid]. unfold execute. cbn [requestType].
  destruct rt.
  - unfold handleGetRequest. cbn [decodedSuffixes].
    destruct suffixes as [|s0 [|s1 [|s2 [|s3 rest]]]]; cbn [length Nat.eqb negb];
      all_runs.
    all: subst Q; cbn beta; discriminate.
  - unfold handlePostRequest. cbn [decodedSuffixes].
    destruct suffixes as [|s0 [|s1 [|s2 rest]]]; cbn [length Nat.eqb negb];
      all_runs.
    all: subst Q; cbn beta; try discriminate.
  - unfold handleDeleteRequest. cbn [decodedSuffixes].
    destruct suffixes as [|s0 [|s1 rest]]; cbn [length Nat.eqb negb]; all_runs.
    all: subst Q; cbn beta; discriminate.
  - all_runs. all: subst Q; cbn beta; discriminate.
Qed.

(** X16. A request is answered from one place. A response comes from a
    call that generates it ([generateOk], [generateError], [parseVPackBody]
    reporting failure) or from the continuation a [thenValue] attached,
    which the future runs when it is completed (inside [thenValue], inside
    a later call or after the handler returned; when, is not part of a
    run). In every run of [execute] at most one call does either, and a
    call of the handler that generates the response itself is the last
    call of the run. A run that returns has exactly one such call: either
    its last call generated the response, no continuation is attached and
    it returns [DONE]; or it generated no response itself, attached one
    continuation and ends by handing that future to [waitForFuture]. Each
    run of a continuation is one call, which generates the response and
    attaches nothing. *)
Theorem execute_responds_once (this : Handler) :
  (forall t e, run (execute this) t e ->
     (length (List.filter answers t) <= 1)%nat /\
     Forall (fun ev => responds ev = false) (removelast t) /\
     (forall s, e = Finished s ->
        length (List.filter answers t) = 1%nat /\
        ((exists ev, last t = Some ev /\ responds ev = true /\ s = DONE /\
                     List.filter attaches t = []) \/
         (exists A (waiting : FutureOf A) fn f,
            last t = Some (Returned (waitForFuture f) s) /\
            List.filter attaches t = [Returned (Future_thenValue waiting fn) f] /\
            List.filter responds t = [])))) /\
  (forall A (fn : Continuation A) a t e, run (continuation_body fn a) t e ->
     exists ev, t = [ev] /\ responds ev = true /\ attaches ev = false).
Proof.
  split.
  - apply every_run_sound.
    match goal with |- every_run _ ?P => set (Q := P) end.
    destruct this as [rt suffixes name pool sid]. unfold execute. cbn [requestType].
    destruct rt.
    + unfold handleGetRequest. cbn [decodedSuffixes].
      destruct suffixes as [|s0 [|s1 [|s2 [|s3 rest]]]]; cbn [length Nat.eqb negb];
        all_runs.
      all: subst Q; cbn beta; responds_once_leaf.
    + unfold handlePostRequest. cbn [decodedSuffixes].
      destruct suffixes as [|s0 [|s1 [|s2 rest]]]; cbn [length Nat.eqb negb];
        all_runs.
      all: subst Q; cbn beta; try responds_once_leaf.
      all: try (destruct Hloop as (-> & _); cbn [app]; responds_once_leaf).
      all: destruct Hloop as (Hquiet & _);
        destruct (inserts_silent _ Hquiet) as (Hanswers & Hattaches & Hresponds);
        assert (Hq : Forall (fun ev => responds ev = false) t)
          by (eapply Forall_impl; [exact Hquiet | apply inserted_quiet]).
      all: responds_once_loop_leaf Hq Hanswers Hattaches Hresponds.
    + unfold handleDeleteRequest. cbn [decodedSuffixes].
      destruct suffixes as [|s0 [|s1 rest]]; cbn [length Nat.eqb negb]; all_runs.
      all: subst Q; cbn beta; responds_once_leaf.
    + all_runs. all: subst Q; cbn beta; responds_once_leaf.
  - intros A fn a. apply every_run_sound. destruct fn; cbn.
    all: repeat split; intros; eexists; repeat split; reflexivity.
Qed.

(** X17. A GET request only reads: no run of [handleGetRequest] creates
    or drops a log, inserts into one, changes a participant's role or
    appends entries, none touches a future, and every run that returns
    returns [DONE]. *)
Theorem handleGetRequest_reads_only (this : Handler) t e :
  run (handleGetRequest this) t e ->
  Forall (fun ev => writes ev = false /\ uses_future ev = false) t /\
  (forall s, e = Finished s -> s = DONE).
Proof.
  intros Hrun. revert t e Hrun. apply every_run_sound.
  set (Q := fun (t : list Event) (e : Ending RestStatus) =>
     Forall (fun ev => writes ev = false /\ uses_future ev = false) t /\
     (forall s, e = Finished s -> s = DONE)).
  destruct this as [rt suffixes name pool sid].
  unfold handleGetRequest. cbn [decodedSuffixes].
  destruct suffixes as [|s0 [|s1 [|s2 [|s3 rest]]]]; cbn [length Nat.eqb negb]; all_runs.
  all: subst Q; cbn beta; split; [repeat constructor | intros s Hs; congruence].
Qed.

(** X18. A DELETE request drops at most one log. With exactly one suffix
    the handler calls [dropReplicatedLog] once, for the log id read from
    that suffix, calls nothing else on the database, and answers [ACCEPTED]
    when the drop reports success and with the drop's own [Result]
    otherwise. With any other number of suffixes it calls nothing on the
    database and answers [BAD] with [TRI_ERROR_HTTP_BAD_PARAMETER]. *)
Theorem handleDeleteRequest_drops_one (this : Handler) t e :
  run (handleDeleteRequest this) t e ->
  match decodedSuffixes this with
  | [s0] =>
      omap dropped t = [uint64 s0] /\
      length (List.filter touches_vocbase t) = 1%nat /\
      (forall s, e = Finished s ->
         s = DONE /\
         exists result x,
           t = [Returned (dropReplicatedLog (uint64 s0)) result;
                Returned (if ok result then generateOk ACCEPTED emptyObjectSlice
                          else generateError_result result) x])
  | _ =>
      List.filter touches_vocbase t = [] /\
      (forall s, e = Finished s ->
         s = DONE /\
         exists x,
           t = [Returned (generateError_message BAD TRI_ERROR_HTTP_BAD_PARAMETER
                            "expect DELETE /_api/log/<log-id>") x])
  end.
Proof.
  intros Hrun. revert t e Hrun. apply every_run_sound.
  destruct this as [rt suffixes name pool sid].
  unfold handleDeleteRequest. cbn [decodedSuffixes].
  destruct suffixes as [|s0 [|s1 rest]]; cbn [length Nat.eqb negb].
  - all_runs; try reflexivity; try discriminate; try congruence; eauto.
  - set (Q := fun (t : list Event) (e : Ending RestStatus) =>
       omap dropped t = [uint64 s0] /\
       length (List.filter touches_vocbase t) = 1%nat /\
       (forall s, e = Finished s ->
          s = DONE /\
          exists result x,
            t = [Returned (dropReplicatedLog (uint64 s0)) result;
                 Returned (if ok result then generateOk ACCEPTED emptyObjectSlice
                           else generateError_result result) x])).
    all_runs.
    all: subst Q; cbn beta; split; [reflexivity|]; split; [reflexivity|].
    all: intros s Hs; first [discriminate Hs | injection Hs as <-].
    all: split; [reflexivity|]; eexists _, _.
    + apply negb_true_iff in Heqb. rewrite Heqb. reflexivity.
    + apply negb_false_iff in Heqb. rewrite Heqb. reflexivity.
  - all_runs; try reflexivity; try discriminate; try congruence; eauto.
Qed.

(** X19. A POST request is checked before anything is looked up. The
    body is parsed first, whatever the URL; when parsing fails the handler
    returns [DONE] and calls nothing else. With a body that parses, a URL
    with one suffix or with more than two is answered [BAD] with
    [TRI_ERROR_HTTP_BAD_PARAMETER], and a two-suffix URL whose verb is none
    of the five the handler serves is answered [NOT_FOUND]; in both cases
    nothing is called on the database. *)
Theorem handlePostRequest_rejects_early (this : Handler) t e :
  run (handlePostRequest this) t e ->
  (exists ev, head t = Some ev /\
     match ev with
     | Returned c _ | Threw c _ =>
         match c with parseVPackBody => True | _ => False end
     end) /\
  (forall body, omap parsed t = [(false, body)] ->
     length t = 1%nat /\ e = Finished DONE) /\
  (forall body, omap parsed t = [(true, body)] ->
     length (decodedSuffixes this) <> 0%nat ->
     length (decodedSuffixes this) <> 2%nat ->
     List.filter touches_vocbase t = [] /\
     (forall s, e = Finished s ->
        s = DONE /\
        exists x,
          t = [Returned parseVPackBody (true, body);
               Returned (generateError_message BAD TRI_ERROR_HTTP_BAD_PARAMETER
                           "expect GET /_api/log/<log-id>") x])) /\
  (forall body s0 verb, omap parsed t = [(true, body)] ->
     decodedSuffixes this = [s0; verb] ->
     ~ In verb ["insert"; "insertBabies"; "becomeLeader"; "becomeFollower";
                "appendEntries"]%string ->
     List.filter touches_vocbase t = [] /\
     (forall s, e = Finished s ->
        s = DONE /\
        exists x,
          t = [Returned parseVPackBody (true, body);
               Returned (generateError_message NOT_FOUND TRI_ERROR_HTTP_NOT_FOUND
                           "expecting one of the resources 'insert', ") x])).
Proof.
  intros Hrun. revert t e Hrun. apply every_run_sound.
  destruct this as [rt suffixes name pool sid].
  unfold handlePostRequest. cbn [decodedSuffixes].
  match goal with |- every_run _ ?P => set (Q := P) end.
  destruct suffixes as [|s0 [|s1 [|s2 rest]]]; cbn [length Nat.eqb negb]; all_runs.
  all: subst Q; cbn beta.
  all: split; [eexists; split; [reflexivity | exact I]|].
  all: split; [|split].
  all: intros; parsed_first.
  all: try known_verb.
  all: try (cbn in *; congruence).
  all: try (split; reflexivity).
  all: trace_leaf.
Qed.

(** X20. The verb [insertBabies] on a body that parsed. A run that
    returns has inserted every member of the array, in the array's order,
    one [insert] per member with the member's JSON as payload, has then
    called [waitFor] once, for the index the last [insert] returned
    ([LogIndex{0}] when the array is empty), attached the reply
    continuation for that index, called [runAsyncStep] and returned what
    [waitForFuture] gave; its calls are exactly these, behind
    [parseVPackBody] and [getReplicatedLogLeaderById]. Where the JSON of
    every member can be made, each such sequence of calls is a run of the
    handler. A run that does not return has inserted a prefix of the
    members, and has called [waitFor] only after all of them. A body that
    is no array is answered without any [insert] or [waitFor]. *)
Theorem insertBabies_in_order (this : Handler) s0 body :
  decodedSuffixes this = [s0; "insertBabies"%string] ->
  let returning log (calls : list (string * LogIndex)) waiting f u s :=
    let lastIndex := List.last (map snd calls) 0%N in
    [Returned parseVPackBody (true, body);
     Returned (getReplicatedLogLeaderById (uint64 s0)) log] ++
    map (fun c => Returned (LogLeader_insert log {| dummy := fst c |}) (snd c)) calls ++
    [Returned (LogLeader_waitFor log lastIndex) waiting;
     Returned (Future_thenValue waiting (quorum_reply lastIndex)) f;
     Returned (LogLeader_runAsyncStep log) u;
     Returned (waitForFuture f) s] in
  (forall t e, run (handlePostRequest this) t e -> omap parsed t = [(true, body)] ->
     (Slice_isArray body = false ->
        omap inserted t = [] /\ omap waited_for t = [] /\
        forall s, e = Finished s -> s = DONE) /\
     (forall entries, Slice_isArray body = true -> ArrayIterator body = Returns entries ->
        (exists n, map (fun p => Returns (dummy p)) (omap inserted t) =
                   map Slice_toJson (take n entries)) /\
        (omap waited_for t = [] \/
         (map (fun p => Returns (dummy p)) (omap inserted t) = map Slice_toJson entries /\
          omap waited_for t = [List.last (omap insert_returned t) 0%N])) /\
        (forall s, e = Finished s ->
           exists log calls waiting f u,
             map Slice_toJson entries = map (fun c => Returns (fst c)) calls /\
             t = returning log calls waiting f u s))) /\
  (forall entries log calls waiting f u s,
     Slice_isArray body = true -> ArrayIterator body = Returns entries ->
     map Slice_toJson entries = map (fun c => Returns (fst c)) calls ->
     run (handlePostRequest this) (returning log calls waiting f u s) (Finished s)).
Proof.
  intros Hsuf returning. split.
  - match goal with
    | |- forall t e, run ?p t e -> @?P t e => apply (every_run_sound p P)
    end.
    destruct this as [rt suffixes name pool sid]. cbn in Hsuf. subst suffixes.
    unfold handlePostRequest. cbn [decodedSuffixes].
    match goal with |- every_run _ ?P => set (Q := P) end.
    cbn [length Nat.eqb negb]. all_runs.
    all: subst Q; cbn beta; intros Hp; parsed_first.
    all: cbn [snd] in *.
    all: split; [intros Harr | intros entries Harr Hit].
    all: try (rewrite Harr in *; discriminate).
    all: try (rewrite Hit in *; discriminate).
    all: try (split; [reflexivity|]; split; [reflexivity|]; intros s Hs; congruence).
    all: try (split; [now exists 0%nat|]; split; [now left|]; intros s Hs;
              discriminate Hs).
    all: destruct Hloop as (Hins & _ & [n Hn] & Hfin).
    all: pose proof (inserts_not_waited _ Hins) as Hw.
    all: assert (v = entries) by congruence; subst v.
    all: split; [|split].
    all: try (rewrite ?app_comm_cons, ?omap_app; cbn; rewrite ?app_nil_r; now exists n).
    all: try (intros s Hs; first
           [ discriminate Hs
           | injection Hs as <-;
             destruct (Hfin _ eq_refl) as (_ & _ & calls & Hcalls & -> & ->);
             eexists _, calls, _, _, _; split; [exact Hcalls | reflexivity] ]).
    all: rewrite ?app_comm_cons, ?omap_app, ?Hw; cbn; rewrite ?app_nil_r, ?Hw.
    all: try (now left).
    all: cbn [app]; right; destruct (Hfin _ eq_refl) as (Hall & Hlast & _);
         split; [exact Hall|]; now rewrite <- Hlast.
  - intros entries log calls waiting f u s Harr Hit Hcalls.
    destruct this as [rt suffixes name pool sid]. cbn in Hsuf. subst suffixes.
    unfold handlePostRequest. cbn [decodedSuffixes length Nat.eqb negb].
    subst returning. cbn beta zeta. cbn [app].
    cbn [bind call]. apply run_Vis. cbn [fst snd negb subscript lookup list_lookup bind].
    change (String.eqb "insertBabies" "insert") with false.
    change (String.eqb "insertBabies" "insertBabies") with true. cbv iota.
    cbn [bind call]. apply run_Vis. rewrite Harr, Hit. cbn [negb lift bind].
    eapply run_bind; [now apply insertBabies_loop_returns|].
    repeat (cbn [bind call]; first [apply run_Ret | apply run_Vis]).
Qed.


(** X21. The verb [becomeLeader] calls [becomeLeader] at most once, with
    one [FakeLogFollower] per member of the body's [follower] array, in the
    order of the members and under the member's string as participant id;
    each of them carries the connection pool, the name of the handler's
    database and the log id of the URL, so that its [appendEntries] posts to
    [server:<id>] under [_api/log/<log id>/appendEntries] in that
    database. *)
Theorem becomeLeader_followers (this : Handler) s0 t e :
  decodedSuffixes this = [s0; "becomeLeader"%string] ->
  run (handlePostRequest this) t e ->
  omap became_leader_with t = [] \/
  exists follower,
    omap became_leader_with t = [follower] /\
    Forall (fun f => pool f = networkPool this /\
                     database f = vocbase_name this /\
                     logId f = uint64 s0) follower /\
    (forall body followerSlice parts,
       omap parsed t = [(true, body)] ->
       Slice_get body "follower" = Returns followerSlice ->
       ArrayIterator followerSlice = Returns parts ->
       map (fun f => Returns (id f)) follower = map Slice_copyString parts) /\
    (forall (Request Buffer Response : Type) (toVelocyPack : Request -> Buffer)
            sendRequest (request : Request) f,
       f ∈ follower ->
       appendEntries_sent Request Buffer Response toVelocyPack sendRequest f request =
       sendRequest (networkPool this) ("server:" ++ id f)%string Post
         ("_api/log/" ++ pretty (uint64 s0) ++ "/appendEntries")%string
         (toVelocyPack request)
         {| RequestOptions.database := vocbase_name this |}).
Proof.
  intros Hsuf Hrun. revert t e Hrun.
  match goal with
  | |- forall t e, run ?p t e -> @?P t e => apply (every_run_sound p P)
  end.
  destruct this as [rt suffixes name pool sid]. cbn in Hsuf. subst suffixes.
  unfold handlePostRequest. cbn [decodedSuffixes].
  match goal with |- every_run _ ?P => set (Q := P) end.
  cbn [length Nat.eqb negb]. all_runs.
  all: subst Q; cbn beta.
  all: try (left; reflexivity).
  all: destruct Hloop as (-> & _ & Hfin); cbn [app].
  all: try (left; reflexivity).
  all: destruct (Hfin _ eq_refl) as (added & Hadd & Hids & Hall); cbn [app] in Hadd;
       subst r.
  all: right; exists added; split; [reflexivity|]; split; [exact Hall|]; split.
  all: try (intros body followerSlice parts Hp Hget Hit; parsed_first; cbn [snd] in *;
            congruence).
  all: intros Request Buffer Response toVelocyPack sendRequest request f Hf;
       rewrite Forall_forall in Hall; destruct (Hall f Hf) as (Hpool & Hdb & Hid);
       unfold appendEntries_sent; rewrite Hpool, Hdb, Hid; reflexivity.
Qed.

(** X22. The request a [FakeLogFollower] sends arrives at the follower of
    the same log. The follower for log [n] posts to [_api/log/<n>/appendEntries];
    a POST handler whose suffixes are the two segments of that path behind
    [_api/log/] parses the body, asks the database for the follower of log
    [n] (given that [StringUtils::uint64] reads back what [std::to_string]
    printed), hands it the decoded request and waits for the future to which
    the reply continuation is attached. No run that returns does anything
    else, except that a body that does not parse ends the handler. *)
Theorem appendEntries_reaches_follower (f : FakeLogFollower) (this : Handler) t e :
  uint64 (pretty (logId f)) = logId f ->
  requestType this = POST ->
  decodedSuffixes this = [pretty (logId f); "appendEntries"%string] ->
  run (execute this) t e ->
  (forall (Request Buffer Response : Type) (toVelocyPack : Request -> Buffer)
          sendRequest (request : Request),
     appendEntries_sent Request Buffer Response toVelocyPack sendRequest f request =
     sendRequest (pool f) ("server:" ++ id f)%string Post
       ("_api/log/" ++ String.concat "/" (decodedSuffixes this))%string
       (toVelocyPack request) {| RequestOptions.database := database f |}) /\
  (forall s, e = Finished s ->
     (exists body, t = [Returned parseVPackBody (false, body)] /\ s = DONE) \/
     (exists body log request appended waiting,
        AppendEntriesRequest_fromVelocyPack body = Returns request /\
        t = [Returned parseVPackBody (true, body);
             Returned (getReplicatedLogFollowerById (logId f)) log;
             Returned (LogFollower_appendEntries log request) appended;
             Returned (Future_thenValue appended appendEntries_reply) waiting;
             Returned (waitForFuture waiting) s])).
Proof.
  intros Hu Hpost Hsuf Hrun. split.
  - intros Request Buffer Response toVelocyPack sendRequest request.
    rewrite Hsuf. reflexivity.
  - revert t e Hrun.
    match goal with
    | |- forall t e, run ?p t e -> @?P t e => apply (every_run_sound p P)
    end.
    destruct this as [rt suffixes name pl sid]. cbn in Hsuf, Hpost. subst suffixes rt.
    unfold execute. cbn [requestType]. unfold handlePostRequest. cbn [decodedSuffixes].
    match goal with |- every_run _ ?P => set (Q := P) end.
    cbn [length Nat.eqb negb].
    cbn [bind call subscript lookup list_lookup]. rewrite Hu.
    all_runs.
    all: subst Q; cbn beta; intros s Hs; first [discriminate Hs | injection Hs as <-].
    all: match goal with
         | x : (bool * Slice)%type |- _ =>
             destruct x as [[|] body]; cbn [fst snd negb] in *; try discriminate
         end.
    + left. exists body. split; reflexivity.
    + right. eexists _, _, _, _, _. split; [eassumption | reflexivity].
Qed.

End Props.
End RestLogHandlerProps.

(** ** Worked runs of the handler *)
Module RestLogHandlerRuns.
Import Futures FakeLogFollower RestLogHandler HandlerRuns HandlerRunFacts.
Import RestLogHandlerProps HandlerSamples.

#[local] Existing Instance external.
Local Open Scope string_scope.

(** builds the run that a trace spells out *)
Ltac spell_run := repeat (cbn; first [apply run_Ret | apply run_Vis]).

Lemma run_delete_12 :
  run (execute (request DELETE_REQ ["12"])) delete_12 (Finished DONE).
Proof. spell_run. Defined.

Lemma run_handleDelete_12 :
  run (handleDeleteRequest (request DELETE_REQ ["12"])) delete_12 (Finished DONE).
Proof. spell_run. Defined.

Lemma run_get_dump :
  run (handleGetRequest (request GET ["12"; "dump"])) get_dump (Finished DONE).
Proof. spell_run. Defined.

Lemma run_post_unknown :
  run (handlePostRequest (request POST ["12"; "frobnicate"])) post_unknown (Finished DONE).
Proof. spell_run. Defined.

Lemma run_becomeLeader :
  run (handlePostRequest (request POST ["12"; "becomeLeader"])) post_becomeLeader
    (Finished DONE).
Proof. spell_run. Defined.

Lemma run_appendEntries :
  run (execute (request POST [pretty (12 : N); "appendEntries"])) post_appendEntries
    (Finished (OtherStatus 1)).
Proof. spell_run. Defined.

Lemma execute_subscripts_in_range_witness :
  Finished DONE <> (OutOfBounds : Ending RestStatus).
Proof.
  exact (execute_subscripts_in_range (request DELETE_REQ ["12"]) delete_12 (Finished DONE)
           run_delete_12).
Defined.

(** the request a follower sends is answered by the continuation alone *)
Lemma execute_responds_once_witness :
  length (List.filter answers post_appendEntries) = 1%nat /\
  List.filter responds post_appendEntries = [].
Proof.
  destruct (proj1 (execute_responds_once (request POST [pretty (12 : N); "appendEntries"]))
              post_appendEntries (Finished (OtherStatus 1)) run_appendEntries)
    as (_ & _ & Hfin).
  destruct (Hfin (OtherStatus 1) eq_refl)
    as [Hone [(ev & _ & _ & Hdone & _)|(A & waiting & fn & f & _ & _ & Hnone)]].
  - discriminate Hdone.
  - split; [exact Hone | exact Hnone].
Defined.

Lemma handleGetRequest_reads_only_witness :
  Forall (fun ev => writes ev = false /\ uses_future ev = false) get_dump.
Proof.
  exact (proj1 (handleGetRequest_reads_only (request GET ["12"; "dump"]) get_dump
                  (Finished DONE) run_get_dump)).
Defined.

Lemma handleDeleteRequest_drops_one_witness : omap dropped delete_12 = [12].
Proof.
  exact (proj1 (handleDeleteRequest_drops_one (request DELETE_REQ ["12"]) delete_12
                  (Finished DONE) run_handleDelete_12)).
Defined.

Lemma handlePostRequest_rejects_early_witness :
  List.filter touches_vocbase post_unknown = [].
Proof.
  destruct (handlePostRequest_rejects_early (request POST ["12"; "frobnicate"])
              post_unknown (Finished DONE) run_post_unknown) as (_ & _ & _ & Hverb).
  apply (Hverb JNull "12" "frobnicate" eq_refl eq_refl).
  cbn. intros Hin.
  repeat (destruct Hin as [Hin|Hin]; [discriminate Hin|]). exact Hin.
Defined.

(** the body [[1, 2]]: both members are inserted, then index 6 is waited for *)
Lemma insertBabies_in_order_witness :
  run (handlePostRequest (request POST ["12"; "insertBabies"])) post_insertBabies
    (Finished (OtherStatus 1)) /\
  omap waited_for post_insertBabies = [List.last (omap insert_returned post_insertBabies) 0%N].
Proof.
  destruct (@insertBabies_in_order external (request POST ["12"; "insertBabies"]) "12"
              (JArray [JNumber 1; JNumber 2]) eq_refl) as [Hall Hreturning].
  pose proof (Hreturning [JNumber 1; JNumber 2] (7 : LeaderRef) [("1", 5%N); ("2", 6%N)]
                (Pending : FutureOf QuorumData) (Pending : FutureOf unit) tt
                (OtherStatus 1) eq_refl eq_refl eq_refl) as Hrun.
  split; [exact Hrun|].
  destruct (Hall _ _ Hrun eq_refl) as [_ Harray].
  destruct (Harray [JNumber 1; JNumber 2] eq_refl eq_refl) as (_ & [Hnone|[_ Hwait]] & _).
  - discriminate Hnone.
  - exact Hwait.
Defined.

Lemma becomeLeader_followers_witness :
  exists follower,
    omap became_leader_with post_becomeLeader = [follower] /\
    map (fun f => Returns (id f)) follower = [Returns "A"; Returns "B"].
Proof.
  destruct (becomeLeader_followers (request POST ["12"; "becomeLeader"]) "12"
              post_becomeLeader (Finished DONE) eq_refl run_becomeLeader)
    as [Hnone|(follower & Hcall & _ & Hids & _)].
  - discriminate Hnone.
  - exists follower. split; [exact Hcall|].
    exact (Hids becomeLeader_body (JArray [JString "A"; JString "B"])
             [JString "A"; JString "B"] eq_refl eq_refl eq_refl).
Defined.

Lemma appendEntries_reaches_follower_witness :
  omap parsed post_appendEntries = [(true, JNull)] /\
  exists body log request appended waiting,
    post_appendEntries =
      [Returned parseVPackBody (true, body);
       Returned (getReplicatedLogFollowerById 12) log;
       Returned (LogFollower_appendEntries log request) appended;
       Returned (Future_thenValue appended appendEntries_reply) waiting;
       Returned (waitForFuture waiting) (OtherStatus 1)].
Proof.
  split; [reflexivity|].
  destruct (appendEntries_reaches_follower (mkFakeLogFollower 1 "A" "_system" 12)
              (request POST [pretty (12 : N); "appendEntries"])
              post_appendEntries (Finished (OtherStatus 1))
              eq_refl eq_refl eq_refl run_appendEntries) as [_ Hrun].
  destruct (Hrun (OtherStatus 1) eq_refl) as
    [(body & Hfail & Hdone)|(body & log & request & appended & waiting & _ & Ht)].
  - discriminate Hdone.
  - exists body, log, request, appended, waiting. exact Ht.
Defined.

End RestLogHandlerRuns.

(** ** Worked examples *)
Module Examples.
Import Futures.

(** [log1235] holds its four entries in index order, whatever the order of
    the [setEntry] calls. *)
Example log1235_storage :
  map fst (MockLog._storage Samples.log1235) = [1; 2; 3; 5].
Proof. reflexivity. Qed.

(** [read(3)] starts at the entry with index 3; [read(4)] at the next one. *)
Example read_from_3 :
  map logIndex (MockLog.drain (MockLog.read 3 Samples.log1235)) = [3; 5].
Proof. reflexivity. Qed.

Example read_from_4 :
  map logIndex (MockLog.drain (MockLog.read 4 Samples.log1235)) = [5].
Proof. reflexivity. Qed.

(** A second [setEntry] for an index that is taken changes nothing. *)
Example setEntry_taken :
  MockLog.setEntry (Samples.entry 9 3) Samples.log1235 = Samples.log1235.
Proof. reflexivity. Qed.

(** [insert] of an iterator over entries 1, 2, 3, 5 into a log that holds
    index 3 already: the entries are stored, the one at 3 is not replaced
    and the assertion on [try_emplace] is reported as violated. *)
Example insert_into_taken :
  let target := MockLog.setEntry (Samples.entry 7 3) (MockLog.mkMockLog []) in
  let '(result, log, _, asserts) :=
    MockLog.insert (MockLog.read 0 Samples.log1235) target in
  ok result = true /\
  map (fun kv => (fst kv, logTerm (snd kv))) (MockLog._storage log) =
    [(1, 1); (2, 1); (3, 7); (5, 2)] /\
  asserts = false.
Proof. repeat split. Qed.

(** An iterator taken before [drop()] still yields the whole log. *)
Example iterator_survives_drop :
  let st := snd (MockLog.st_read 0 {| MockLog.theLog := Samples.log1235;
                                      MockLog.handedOut := [] |}) in
  let dropped := {| MockLog.theLog := snd (MockLog.drop (MockLog.theLog st));
                    MockLog.handedOut := MockLog.handedOut st |} in
  MockLog._storage (MockLog.theLog dropped) = [] /\
  option_map (map logIndex) (MockLog.st_yields 0 dropped) = Some [1; 2; 3; 5].
Proof. split; reflexivity. Qed.

(** [FakeLogFollower::appendEntries] posts to the follower's server under
    the log's path, in the follower's database. *)
Example appendEntries_destination :
  FakeLogFollower.appendEntries_sent (list LogEntry) unit (string * string * string)
    (fun _ => tt)
    (fun _ destination _ path _ opts =>
       HasValue (destination, path, RequestOptions.database opts))
    {| FakeLogFollower.pool := 0; FakeLogFollower.id := "F1";
       FakeLogFollower.database := "_system"; FakeLogFollower.logId := 12 |}
    [Samples.entry 1 1]
  = HasValue ("server:F1", "_api/log/12/appendEntries", "_system")%string.
Proof. reflexivity. Qed.

(** A reply that does not parse ends up in the future as an exception. *)
Example appendEntries_malformed_reply :
  FakeLogFollower.appendEntries (list LogEntry) unit unit bool
    (fun _ => tt) (fun r => r) (fun _ => tt)
    (fun s _ => Returns s) (fun _ => true) (fun _ => Returns "{}")
    (fun _ => Throws "malformed")
    (fun _ _ _ _ _ _ => HasValue false) true
    {| FakeLogFollower.pool := 0; FakeLogFollower.id := "F1";
       FakeLogFollower.database := "_system"; FakeLogFollower.logId := 12 |}
    [Samples.entry 1 1]
  = HasException "malformed".
Proof. reflexivity. Qed.

(** The scenario of the specification on the revision tree: the tree
    starts empty, 42 is inserted and removed again. *)
Example insert_42_remove_42 :
  let a :=
    @RevisionTreeAccessor.remove TreeSamples.aggregation TreeSamples.hashing TreeSamples.codec [42]
      (@RevisionTreeAccessor.insert TreeSamples.aggregation TreeSamples.hashing TreeSamples.codec [42]
         TreeSamples.emptyAccessor) in
  @RevisionTreeAccessor.count TreeSamples.aggregation TreeSamples.codec a = 0 /\
  @RevisionTreeAccessor.rootValue TreeSamples.aggregation TreeSamples.codec a =
    @RevisionTreeAccessor.rootValue TreeSamples.aggregation TreeSamples.codec TreeSamples.emptyAccessor.
Proof. split; vm_compute; reflexivity. Qed.

(** Two ids in the same leaf: both are counted, the digests are combined. *)
Example insert_42_43 :
  let a := @RevisionTreeAccessor.insert TreeSamples.aggregation TreeSamples.hashing TreeSamples.codec [42; 43]
             TreeSamples.emptyAccessor in
  @RevisionTreeAccessor.count TreeSamples.aggregation TreeSamples.codec a = 2 /\
  @RevisionTreeAccessor.rootValue TreeSamples.aggregation TreeSamples.codec a = N.lxor 42 43.
Proof. split; vm_compute; reflexivity. Qed.

(** The path of 42 in a tree of depth 6 with eight children per node. *)
Example path_of_42 :
  map (@RevisionTree.position TreeSamples.hashing
         (RevisionTree.empty RevisionTreeAccessor.revisionTreeDepth) 42)
      (seq 0 7)
  = [0; 0; 0; 0; 0; 5; 42].
Proof. vm_compute. reflexivity. Qed.

End Examples.
